(** * TSVDataStore: schema resolution and the parallel load pipeline

    A shallow embedding of [src/data_store/tsv_data_store.cc] (gbdt).

    - [SetupColumns] is a pure function on the members of the store.
    - [LoadTSVs] runs worker threads, so it is a labelled transition
      system: the controlling thread is a program counter, each
      [ThreadPool] is the list of the tasks enqueued on it with their
      status, and every interleaving of the workers is a run.

    Indices are [int] and [size_t] in the source; they are natural
    numbers here, headers and configurations being far smaller than
    [2^31] entries. *)

From Stdlib Require Import Ascii String.
From stdpp Require Import gmap strings list fin_maps relations.

Open Scope string_scope.
Open Scope list_scope.
Open Scope nat_scope.

(** ** Data model *)

(** The three column kinds of [column.h]. *)
Inductive Kind := BinnedFloat | RawFloat | StringKind.

#[global] Instance Kind_eq_dec : EqDecision Kind.
Proof. solve_decision. Defined.

(** [TSVDataConfig] (config.proto): three repeated string fields. *)
Record TSVDataConfig := {
  binned_float_column : list string;
  raw_float_column : list string;
  string_column : list string
}.

(** A [CHECK] that fails, an [...OrDie] helper that dies, or the parser
    that dies on a file: the process is aborted with a message. *)
Inductive Fatal :=
| HeaderUnreadable (header_file : string)
| FailedToFind (header : string)
| DoesNotExist (tsv : string)
| ParseError (tsv : string).

Inductive Outcome (A : Type) :=
| Ok (a : A)
| Died (e : Fatal).
Arguments Ok {A} a.
Arguments Died {A} e.

(** Addresses of heap objects (the values of [Column*]). *)
Abbreviation addr := nat.

Section Store.

(** The element type of a numeric column ([float] in the source); the
    development never computes with it. *)
Context {float : Type}.

(** The values handed to one [Add] call: a [vector<float>] for the two
    numeric kinds, a [vector<string>] for the string kind. *)
Inductive Values :=
| Floats (l : list float)
| Strings (l : list string).

(** Modelled from the spec: the classes of [column.h] are not part of the
    sources at hand.  An accumulator is kept as what it has observed:
    the values accepted so far, in order ([accept] "appends/consumes the
    given per-row values"), and the number of [Finalize] calls. *)
Record Column := {
  col_kind : Kind;
  col_name : string;
  col_floats : list float;
  col_strings : list string;
  col_finalized : nat
}.

(** [new BinnedFloatColumn(header)], [new RawFloatColumn(header)],
    [new StringColumn(header)]. *)
Definition new_Column (k : Kind) (header : string) : Column :=
  {| col_kind := k; col_name := header;
     col_floats := []; col_strings := []; col_finalized := 0 |}.

(** [Column::Add]. *)
Definition Column_Add (v : Values) (c : Column) : Column :=
  match v with
  | Floats l =>
      {| col_kind := col_kind c; col_name := col_name c;
         col_floats := col_floats c ++ l; col_strings := col_strings c;
         col_finalized := col_finalized c |}
  | Strings l =>
      {| col_kind := col_kind c; col_name := col_name c;
         col_floats := col_floats c; col_strings := col_strings c ++ l;
         col_finalized := col_finalized c |}
  end.

(** [Column::Finalize]. *)
Definition Column_Finalize (c : Column) : Column :=
  {| col_kind := col_kind c; col_name := col_name c;
     col_floats := col_floats c; col_strings := col_strings c;
     col_finalized := S (col_finalized c) |}.

(** The members of [TSVDataStore] that [SetupColumns] fills.
    [column_map_] owns the columns through smart pointers: [objects] is
    the heap of the columns that are alive.  The three per-kind vectors
    hold raw pointers, each with its slot in the blocks. *)
Record TSVDataStore := {
  column_map_ : gmap string addr;
  objects : gmap addr Column;
  binned_float_columns_ : list (addr * nat);
  raw_float_columns_ : list (addr * nat);
  string_columns_ : list (addr * nat);
  float_column_indices_ : list nat;
  string_column_indices_ : list nat
}.

(** A store as the constructor finds it. *)
Definition empty_store : TSVDataStore :=
  {| column_map_ := ∅; objects := ∅;
     binned_float_columns_ := []; raw_float_columns_ := [];
     string_columns_ := [];
     float_column_indices_ := []; string_column_indices_ := [] |}.

(** ** Schema resolution: [SetupColumns] *)

Section SetupColumns.

(** The helpers of [src/utils] used by [SetupColumns], none of which is
    in the sources at hand; the theorems hold for every choice.
    - [ReadFile path] is the contents of [path], if it can be read;
    - [split s] is [strings::split(s, "\t")];
    - [TrimWhiteSpace] is the in-place trim, as a function;
    - [new_column h] is the address [new] returns when the live columns
      are [h]. *)
Variable ReadFile : string → option string.
Variable split : string → list string.
Variable TrimWhiteSpace : string → string.
Variable new_column : gmap addr Column → addr.

(** Lines 117-120: the loop over [headers], from index [i] on. *)
Fixpoint index_headers (i : nat) (headers : list string)
    (map_from_header_to_index : gmap string nat) : gmap string nat :=
  match headers with
  | [] => map_from_header_to_index
  | h :: rest =>
      index_headers (S i) rest
        (<[TrimWhiteSpace h := i]> map_from_header_to_index)
  end.

(** [column_map_[header].reset(new ...Column(header))] followed by
    [column_map_[header].get()]: the new object is allocated first,
    then the object the entry owned (if any) is destroyed. *)
Definition reset_column (k : Kind) (header : string) (st : TSVDataStore)
    : addr * TSVDataStore :=
  let p := new_column (objects st) in
  let allocated := <[p := new_Column k header]> (objects st) in
  let remaining :=
    match column_map_ st !! header with
    | Some old => delete old allocated
    | None => allocated
    end in
  (p, {| column_map_ := <[header := p]> (column_map_ st);
         objects := remaining;
         binned_float_columns_ := binned_float_columns_ st;
         raw_float_columns_ := raw_float_columns_ st;
         string_columns_ := string_columns_ st;
         float_column_indices_ := float_column_indices_ st;
         string_column_indices_ := string_column_indices_ st |}).

(** The two [push_back]s of a loop body, for each of the three loops. *)
Definition push_column (k : Kind) (p : addr) (index : nat)
    (st : TSVDataStore) : TSVDataStore :=
  match k with
  | BinnedFloat =>
      {| column_map_ := column_map_ st; objects := objects st;
         binned_float_columns_ :=
           binned_float_columns_ st ++ [(p, length (float_column_indices_ st))];
         raw_float_columns_ := raw_float_columns_ st;
         string_columns_ := string_columns_ st;
         float_column_indices_ := float_column_indices_ st ++ [index];
         string_column_indices_ := string_column_indices_ st |}
  | RawFloat =>
      {| column_map_ := column_map_ st; objects := objects st;
         binned_float_columns_ := binned_float_columns_ st;
         raw_float_columns_ :=
           raw_float_columns_ st ++ [(p, length (float_column_indices_ st))];
         string_columns_ := string_columns_ st;
         float_column_indices_ := float_column_indices_ st ++ [index];
         string_column_indices_ := string_column_indices_ st |}
  | StringKind =>
      {| column_map_ := column_map_ st; objects := objects st;
         binned_float_columns_ := binned_float_columns_ st;
         raw_float_columns_ := raw_float_columns_ st;
         string_columns_ :=
           string_columns_ st ++ [(p, length (string_column_indices_ st))];
         float_column_indices_ := float_column_indices_ st;
         string_column_indices_ := string_column_indices_ st ++ [index] |}
  end.

(** One of the loops at lines 122-130, 132-140 and 142-150: they differ
    in the class they instantiate and in the vectors they push to. *)
Fixpoint setup_loop (k : Kind) (map_from_header_to_index : gmap string nat)
    (names : list string) (st : TSVDataStore) : Outcome TSVDataStore :=
  match names with
  | [] => Ok st
  | header :: rest =>
      match map_from_header_to_index !! header with
      | None => Died (FailedToFind header)
      | Some index =>
          let '(p, st1) := reset_column k header st in
          setup_loop k map_from_header_to_index rest (push_column k p index st1)
      end
  end.

(** The header names as the first loop leaves them in [headers]. *)
Definition trimmed_headers (contents : string) : list string :=
  TrimWhiteSpace <$> split contents.

Definition SetupColumns (header_file : string) (config : TSVDataConfig)
    (st : TSVDataStore) : Outcome TSVDataStore :=
  match ReadFile header_file with
  | None => Died (HeaderUnreadable header_file)
  | Some contents =>
      let map_from_header_to_index := index_headers 0 (split contents) ∅ in
      match setup_loop BinnedFloat map_from_header_to_index
              (binned_float_column config) st with
      | Died e => Died e
      | Ok st1 =>
          match setup_loop RawFloat map_from_header_to_index
                  (raw_float_column config) st1 with
          | Died e => Died e
          | Ok st2 =>
              setup_loop StringKind map_from_header_to_index
                (string_column config) st2
          end
      end
  end.

End SetupColumns.

(** ** The load pipeline: [LoadTSVs] *)

(** A parsed block ([tsv_block.h]): [float_columns()] and
    [string_columns()], one vector of per-row values for each slot. *)
Record TSVBlock := {
  float_columns : list (list float);
  string_columns : list (list string)
}.

(** A unit of work bound with [std::bind] and handed to a [ThreadPool].
    [Add] carries the index of the file whose block it reads; the index
    only serves to name the call in the trace. *)
Inductive Task :=
| LoadBlock (tsv : string) (i : nat)
| Add (i : nat) (p : addr) (v : Values)
| FinalizeColumn (p : addr).

(** Modelled from the spec: [src/utils/threadpool.h] is not part of the
    sources at hand.  The executor "runs submitted units of work on a
    fixed-size worker pool; no ordering guarantee between submitted
    tasks", and leaving the scope of a pool joins it ("wait for all such
    tasks ... to finish before proceeding").  A [ThreadPool] is the list
    of the tasks enqueued on it, in the order of the [Enqueue] calls,
    each with its status; the constructor makes the empty list, and the
    list of a pool that has been joined stays, every task in it
    [Finished].  The pool has at least one worker ([FLAGS_num_threads]
    is positive) and their number is otherwise left open: any queued
    task may be the next one to start.

    A task is [Queued], then [Running], then [Finished].  [LoadBlock]
    has one more status on the way: it is [Notifying] once it has left
    the block of lines 42-45, its block moved into its slot, with the
    notification of line 46 and its return still to come. *)
Inductive Status := Queued | Running | Notifying | Finished.

#[global] Instance Status_eq_dec : EqDecision Status.
Proof. solve_decision. Defined.

Local Abbreviation ThreadPool := (list (Task * Status)).

(** The two pools that can exist at a time: the one declared in
    [LoadTSVs] (line 58) and the one declared in [ProcessBlock] (line 84)
    or in [Finalize] (line 100). *)
Inductive PoolId := Outer | Inner.

(** What the trace says about a task. *)
Inductive Label :=
| Parse (i : nat)
| Accept (i : nat) (p : addr)
| Finish (p : addr).

#[global] Instance Label_eq_dec : EqDecision Label.
Proof. solve_decision. Defined.

(** What the trace records: the call of [FileExists] at line 61, a
    task enqueued, started, ended, the block of file [i] moved into its
    slot (line 44), and moved out of it by the controlling thread
    (line 71). *)
Inductive Event :=
| Probed (tsv : string)
| Enqueued (l : Label)
| Started (l : Label)
| Ended (l : Label)
| Stored (i : nat)
| Took (i : nat).

#[global] Instance Event_eq_dec : EqDecision Event.
Proof. solve_decision. Defined.

(** Where the controlling thread is.
    - [EnqueueLoop i]: line 59, about to run iteration [i];
    - [ConsumeLoop i]: line 65, about to run iteration [i], which starts
      with the wait of line 70;
    - [InProcessBlock i block todo]: in [ProcessBlock] for file [i],
      past the construction of its pool, [todo] being the iterations
      left of its three loops; with no iteration left the thread is in
      the destructor of the pool;
    - [InFinalize todo]: the same for [Finalize];
    - [Leaving]: the end of [LoadTSVs], in the destructor of its pool;
    - [Aborted e]: a [CHECK] failed or the parser died, the process is
      gone;
    - [Undefined]: the program has run into undefined behaviour. *)
Inductive Line :=
| EnqueueLoop (i : nat)
| ConsumeLoop (i : nat)
| InProcessBlock (i : nat) (block : TSVBlock) (todo : list (Kind * (addr * nat)))
| InFinalize (todo : list addr)
| Leaving
| Returned
| Aborted (e : Fatal)
| Undefined.

Record State := {
  line : Line;
  this : TSVDataStore;
  blocks : list (option TSVBlock);
  pool : ThreadPool;
  local_pool : ThreadPool;
  trace : list Event
}.

Definition with_line (l : Line) (s : State) : State :=
  {| line := l; this := this s; blocks := blocks s; pool := pool s;
     local_pool := local_pool s; trace := trace s |}.

Definition with_blocks (bs : list (option TSVBlock)) (s : State) : State :=
  {| line := line s; this := this s; blocks := bs; pool := pool s;
     local_pool := local_pool s; trace := trace s |}.

Definition with_objects (h : gmap addr Column) (s : State) : State :=
  {| line := line s;
     this := {| column_map_ := column_map_ (this s); objects := h;
                binned_float_columns_ := binned_float_columns_ (this s);
                raw_float_columns_ := raw_float_columns_ (this s);
                string_columns_ := string_columns_ (this s);
                float_column_indices_ := float_column_indices_ (this s);
                string_column_indices_ := string_column_indices_ (this s) |};
     blocks := blocks s; pool := pool s; local_pool := local_pool s;
     trace := trace s |}.

Definition get_pool (w : PoolId) (s : State) : ThreadPool :=
  match w with Outer => pool s | Inner => local_pool s end.

Definition with_pool (w : PoolId) (pl : ThreadPool) (s : State) : State :=
  match w with
  | Outer =>
      {| line := line s; this := this s; blocks := blocks s; pool := pl;
         local_pool := local_pool s; trace := trace s |}
  | Inner =>
      {| line := line s; this := this s; blocks := blocks s; pool := pool s;
         local_pool := pl; trace := trace s |}
  end.

Definition log (e : Event) (s : State) : State :=
  {| line := line s; this := this s; blocks := blocks s; pool := pool s;
     local_pool := local_pool s; trace := trace s ++ [e] |}.

Definition label (t : Task) : Label :=
  match t with
  | LoadBlock _ i => Parse i
  | Add i p _ => Accept i p
  | FinalizeColumn p => Finish p
  end.

(** The column a task works on. *)
Definition target (t : Task) : option addr :=
  match t with
  | LoadBlock _ _ => None
  | Add _ p _ => Some p
  | FinalizeColumn p => Some p
  end.

(** [pool.Enqueue(task)]. *)
Definition Enqueue (w : PoolId) (t : Task) (s : State) : State :=
  log (Enqueued (label t)) (with_pool w (get_pool w s ++ [(t, Queued)]) s).

(** The destructor of a pool returns once every task is finished. *)
Definition all_finished (pl : ThreadPool) : bool :=
  forallb (λ e, bool_decide (e.2 = Finished)) pl.

(** [&block->float_columns()[slot]] and [&block->string_columns()[slot]];
    there is no such element when [slot] is out of range. *)
Definition bound_column (k : Kind) (slot : nat) (block : TSVBlock)
    : option Values :=
  match k with
  | BinnedFloat | RawFloat => Floats <$> float_columns block !! slot
  | StringKind => Strings <$> string_columns block !! slot
  end.

(** The iterations of the three loops of [ProcessBlock], in order. *)
Definition ProcessBlock_loops (st : TSVDataStore) : list (Kind * (addr * nat)) :=
  (pair BinnedFloat <$> binned_float_columns_ st) ++
  (pair RawFloat <$> raw_float_columns_ st) ++
  (pair StringKind <$> string_columns_ st).

(** The iterations of the three loops of [Finalize], in order: binned,
    string, raw. *)
Definition Finalize_loops (st : TSVDataStore) : list addr :=
  (fst <$> binned_float_columns_ st) ++
  (fst <$> string_columns_ st) ++
  (fst <$> raw_float_columns_ st).

(** Some task of the pool is running on column [p]. *)
Definition busy (pl : ThreadPool) (p : addr) : bool :=
  existsb (λ e, bool_decide (e.2 = Running ∧ target e.1 = Some p)) pl.

(** A call on a column is defined when the object is alive and no other
    thread is inside it. *)
Definition defined_start (t : Task) (s : State) : bool :=
  match target t with
  | None => true
  | Some p =>
      match objects (this s) !! p with
      | None => false
      | Some _ => negb (busy (pool s) p || busy (local_pool s) p)
      end
  end.

(** The call a task makes on its column, on the heap of columns. *)
Definition call_on_column (t : Task) (h : gmap addr Column)
    : gmap addr Column :=
  match t with
  | LoadBlock _ _ => h
  | Add _ p v => alter (Column_Add v) p h
  | FinalizeColumn p => alter Column_Finalize p h
  end.

(** A process that is gone, or a function that has returned, runs no
    worker. *)
Definition alive (l : Line) : bool :=
  match l with
  | Returned | Aborted _ | Undefined => false
  | _ => true
  end.

Section LoadTSVs.

(** The collaborators of [LoadTSVs], none of which is in the sources at
    hand; the theorems hold for every choice.
    - [FileExists] of [src/utils/utils.h];
    - [new_TSVBlock tsv float_column_indices string_column_indices] is
      the block [new TSVBlock(...)] builds, or [None] when the parser
      dies on the file.  Modelled from the spec: the row block parser is
      "[parse(file_path, numeric_slot_positions,
      categorical_slot_positions) -> Block | ParseError], purely a
      function of one file and the resolved slot layout", and a parse
      error is "fatal, surfaces as a load failure";
    - [tsvs] is the argument of [LoadTSVs]. *)
Variable FileExists : string → bool.
Variable new_TSVBlock : string → list nat → list nat → option TSVBlock.
Variable tsvs : list string.

(** One step of the controlling thread; [None] when it is blocked (in
    [cv_.wait] or in a destructor) or has stopped. *)
Definition main_step (s : State) : option State :=
  match line s with
  | EnqueueLoop i =>
      match tsvs !! i with
      | Some tsv =>
          if FileExists tsv
          then Some (with_line (EnqueueLoop (S i))
                       (Enqueue Outer (LoadBlock tsv i) (log (Probed tsv) s)))
          else Some (with_line (Aborted (DoesNotExist tsv))
                       (log (Probed tsv) s))
      | None => Some (with_line (ConsumeLoop 0) s)
      end
  | ConsumeLoop i =>
      match blocks s !! i with
      | Some (Some working_block) =>
          Some (with_line
                  (InProcessBlock i working_block (ProcessBlock_loops (this s)))
                  (with_pool Inner []
                     (log (Took i) (with_blocks (<[i := None]> (blocks s)) s))))
      | Some None => None
      | None =>
          Some (with_line (InFinalize (Finalize_loops (this s)))
                  (with_pool Inner [] s))
      end
  | InProcessBlock i block ((k, (p, slot)) :: todo) =>
      match bound_column k slot block with
      | Some v =>
          Some (with_line (InProcessBlock i block todo)
                  (Enqueue Inner (Add i p v) s))
      | None => Some (with_line Undefined s)
      end
  | InProcessBlock i block [] =>
      if all_finished (local_pool s)
      then Some (with_line (ConsumeLoop (S i)) s)
      else None
  | InFinalize (p :: todo) =>
      Some (with_line (InFinalize todo) (Enqueue Inner (FinalizeColumn p) s))
  | InFinalize [] =>
      if all_finished (local_pool s)
      then Some (with_line Leaving s)
      else None
  | Leaving =>
      if all_finished (pool s)
      then Some (with_line Returned s)
      else None
  | Returned | Aborted _ | Undefined => None
  end.

(** A worker of pool [w] takes its [n]-th task. *)
Definition worker_start (w : PoolId) (n : nat) (s : State) : option State :=
  if alive (line s) then
    match get_pool w s !! n with
    | Some (t, Queued) =>
        if defined_start t s
        then Some (log (Started (label t))
                     (with_pool w (<[n := (t, Running)]> (get_pool w s)) s))
        else Some (with_line Undefined s)
    | _ => None
    end
  else None.

(** Lines 41-45 of [LoadBlock], for the [n]-th task of pool [w]: the
    block is built, and the process is gone when the parser dies; then
    the block is moved into its slot, under the mutex.  From here on
    the controlling thread can find the block, while the task has the
    notification of line 46 and its return before it. *)
Definition worker_store (w : PoolId) (n : nat) (s : State) : option State :=
  if alive (line s) then
    match get_pool w s !! n with
    | Some (LoadBlock tsv i, Running) =>
        match new_TSVBlock tsv (float_column_indices_ (this s))
                (string_column_indices_ (this s)) with
        | Some tmp_block =>
            Some (log (Stored i)
                    (with_pool w
                       (<[n := (LoadBlock tsv i, Notifying)]> (get_pool w s))
                       (with_blocks (<[i := Some tmp_block]> (blocks s)) s)))
        | None => Some (with_line (Aborted (ParseError tsv)) s)
        end
    | _ => None
    end
  else None.

(** The status a task ends from: [LoadBlock] has stored its block, a
    call on a column is running. *)
Definition ends_from (t : Task) : Status :=
  match t with
  | LoadBlock _ _ => Notifying
  | Add _ _ _ | FinalizeColumn _ => Running
  end.

(** What a task has done when it ends.  [LoadBlock] (lines 46-47) has
    notified the condition variable, which the state does not record;
    the two other tasks are calls on a column. *)
Definition task_effect (t : Task) (s : State) : State :=
  match t with
  | LoadBlock _ _ => s
  | Add _ _ _ | FinalizeColumn _ =>
      with_objects (call_on_column t (objects (this s))) s
  end.

(** The [n]-th task of pool [w] ends. *)
Definition worker_end (w : PoolId) (n : nat) (s : State) : option State :=
  if alive (line s) then
    match get_pool w s !! n with
    | Some (t, status) =>
        if decide (status = ends_from t) then
          let s1 := task_effect t s in
          Some (log (Ended (label t))
                  (with_pool w (<[n := (t, Finished)]> (get_pool w s1)) s1))
        else None
    | None => None
    end
  else None.

(** The scheduler's choice. *)
Inductive Move :=
| Main
| WorkerStart (w : PoolId) (n : nat)
| WorkerStore (w : PoolId) (n : nat)
| WorkerEnd (w : PoolId) (n : nat).

Definition exec (m : Move) (s : State) : option State :=
  match m with
  | Main => main_step s
  | WorkerStart w n => worker_start w n s
  | WorkerStore w n => worker_store w n s
  | WorkerEnd w n => worker_end w n s
  end.

Definition step (s s' : State) : Prop := ∃ m, exec m s = Some s'.

(** A run under a given schedule. *)
Fixpoint run (ms : list Move) (s : State) : option State :=
  match ms with
  | [] => Some s
  | m :: rest =>
      match exec m s with
      | Some s1 => run rest s1
      | None => None
      end
  end.

End LoadTSVs.

(** [LoadTSVs] up to line 58: [SetupColumns] on the store under
    construction, then the vector of empty slots. *)
Definition LoadTSVs_entry
    (ReadFile : string → option string) (split : string → list string)
    (TrimWhiteSpace : string → string) (new_column : gmap addr Column → addr)
    (header_file : string) (tsvs : list string) (config : TSVDataConfig)
    : State :=
  match SetupColumns ReadFile split TrimWhiteSpace new_column
          header_file config empty_store with
  | Ok st =>
      {| line := EnqueueLoop 0; this := st;
         blocks := replicate (length tsvs) None;
         pool := []; local_pool := []; trace := [] |}
  | Died e =>
      {| line := Aborted e; this := empty_store; blocks := [];
         pool := []; local_pool := []; trace := [] |}
  end.

End Store.

Arguments Values : clear implicits.
Arguments Column : clear implicits.
Arguments TSVDataStore : clear implicits.
Arguments TSVBlock : clear implicits.
Arguments Task : clear implicits.
Arguments Line : clear implicits.
Arguments State : clear implicits.


(** A pool: its tasks in the order of the [Enqueue] calls, each with its
    status. *)
Abbreviation ThreadPool float := (list (Task float * Status)).
(** ** Vocabulary of the statements *)

(** The position of the last occurrence of [name] in [headers]. *)
Fixpoint last_position (name : string) (headers : list string) : option nat :=
  match headers with
  | [] => None
  | h :: rest =>
      match last_position name rest with
      | Some j => Some (S j)
      | None => if decide (h = name) then Some 0 else None
      end
  end.

(** The names a configuration lists, in the order of the three loops of
    [SetupColumns]. *)
Definition configured_names (config : TSVDataConfig) : list string :=
  binned_float_column config ++ raw_float_column config ++ string_column config.

(** [new] never returns the address of an object that is alive. *)
Definition fresh_allocator {float : Type}
    (new_column : gmap addr (Column float) → addr) : Prop :=
  ∀ h, h !! new_column h = None.

(** The per-kind vector of [SetupColumns] and the index vector it goes
    with. *)
Definition columns_of {float : Type} (k : Kind) (st : TSVDataStore float)
    : list (addr * nat) :=
  match k with
  | BinnedFloat => binned_float_columns_ st
  | RawFloat => raw_float_columns_ st
  | StringKind => string_columns_ st
  end.

Definition indices_of {float : Type} (k : Kind) (st : TSVDataStore float)
    : list nat :=
  match k with
  | BinnedFloat | RawFloat => float_column_indices_ st
  | StringKind => string_column_indices_ st
  end.

(** The columns the per-kind vectors point to. *)
Definition accumulators {float : Type} (st : TSVDataStore float) : list addr :=
  (ProcessBlock_loops st).*2.*1.

(** A store whose per-kind vectors point to distinct columns, each alive
    and as its constructor left it, with slots inside the index vector
    of its kind. *)
Definition well_formed {float : Type} (st : TSVDataStore float) : Prop :=
  NoDup (accumulators st) ∧
  ∀ k p slot, (k, (p, slot)) ∈ ProcessBlock_loops st →
    (∃ name, objects st !! p = Some (new_Column k name)) ∧
    slot < length (indices_of k st).

Section Reference.

Context {float : Type}.

(** Two stores that differ in the contents of their columns at most. *)
Definition same_layout (st st' : TSVDataStore float) : Prop :=
  column_map_ st' = column_map_ st ∧
  binned_float_columns_ st' = binned_float_columns_ st ∧
  raw_float_columns_ st' = raw_float_columns_ st ∧
  string_columns_ st' = string_columns_ st ∧
  float_column_indices_ st' = float_column_indices_ st ∧
  string_column_indices_ st' = string_column_indices_ st.

(** *** The load, one call after the other

    What the pipeline computes when nothing runs in parallel: the
    blocks are folded in the order of the files, each block by the
    iterations of [ProcessBlock] in order, then the columns are
    finalized in the order of [Finalize]. *)

Definition fold_column (block : TSVBlock float) (h : gmap addr (Column float))
    (it : Kind * (addr * nat)) : gmap addr (Column float) :=
  match bound_column it.1 it.2.2 block with
  | Some v => alter (Column_Add v) it.2.1 h
  | None => h
  end.

Definition fold_block (loops : list (Kind * (addr * nat)))
    (h : gmap addr (Column float)) (block : TSVBlock float)
    : gmap addr (Column float) :=
  foldl (fold_column block) h loops.

Definition fold_blocks (loops : list (Kind * (addr * nat)))
    (h : gmap addr (Column float)) (bs : list (TSVBlock float))
    : gmap addr (Column float) :=
  foldl (fold_block loops) h bs.

Definition finalize_all (ps : list addr) (h : gmap addr (Column float))
    : gmap addr (Column float) :=
  foldl (λ h p, alter Column_Finalize p h) h ps.

(** The block of a file, parsed for the layout of [st]; a block without
    columns stands for the block of a file the parser dies on. *)
Definition block_of
    (new_TSVBlock : string → list nat → list nat → option (TSVBlock float))
    (st : TSVDataStore float) (tsv : string) : TSVBlock float :=
  default {| float_columns := []; string_columns := [] |}
    (new_TSVBlock tsv (float_column_indices_ st) (string_column_indices_ st)).

(** The blocks of the files, in the order of the files. *)
Definition blocks_of
    (new_TSVBlock : string → list nat → list nat → option (TSVBlock float))
    (st : TSVDataStore float) (tsvs : list string) : list (TSVBlock float) :=
  block_of new_TSVBlock st <$> tsvs.

Definition sequential_load
    (new_TSVBlock : string → list nat → list nat → option (TSVBlock float))
    (tsvs : list string) (st : TSVDataStore float) : gmap addr (Column float) :=
  finalize_all (Finalize_loops st)
    (fold_blocks (ProcessBlock_loops st) (objects st)
       (blocks_of new_TSVBlock st tsvs)).

(** The values slot [slot] of kind [k] holds in a block; nothing when
    the block has no such slot. *)
Definition slice (k : Kind) (slot : nat) (block : TSVBlock float)
    : Values float :=
  default (Floats []) (bound_column k slot block).

(** The rows a column of kind [k] at slot [slot] has seen once the
    blocks [bs] are folded into a new column, in order. *)
Definition feed (k : Kind) (name : string) (slot : nat)
    (bs : list (TSVBlock float)) : Column float :=
  foldl (λ c block, Column_Add (slice k slot block) c) (new_Column k name) bs.

(** The parser honours the layout it is handed: it returns a block,
    with one vector per slot. *)
Definition honours_layout
    (new_TSVBlock : string → list nat → list nat → option (TSVBlock float))
    : Prop :=
  ∀ tsv fi si, ∃ block,
    new_TSVBlock tsv fi si = Some block ∧
    length (float_columns block) = length fi ∧
    length (string_columns block) = length si.

(** *** Traces *)

(** The indices of the blocks the controlling thread has taken, in the
    order it took them. *)
Definition taken (tr : list Event) : list nat :=
  omap (λ e, match e with Took i => Some i | _ => None end) tr.


Definition is_accept (e : Event) : Prop :=
  match e with
  | Enqueued (Accept _ _) | Started (Accept _ _) | Ended (Accept _ _) => True
  | _ => False
  end.

Definition is_finish (e : Event) : Prop :=
  match e with
  | Enqueued (Finish _) | Started (Finish _) | Ended (Finish _) => True
  | _ => False
  end.

Definition is_parse (e : Event) : Prop :=
  match e with
  | Enqueued (Parse _) | Started (Parse _) | Ended (Parse _) => True
  | Stored _ => True
  | _ => False
  end.

(** The file an event is about. *)
Definition file_of (e : Event) : option nat :=
  match e with
  | Enqueued (Parse i) | Started (Parse i) | Ended (Parse i) => Some i
  | Enqueued (Accept i _) | Started (Accept i _) | Ended (Accept i _) => Some i
  | Stored i | Took i => Some i
  | _ => None
  end.

(** Every [Add] of the first [files] files on the columns [accs] has
    ended. *)
Definition accepts_complete (files : nat) (accs : list addr)
    (tr : list Event) : Prop :=
  ∀ i q, i < files → q ∈ accs → Ended (Accept i q) ∈ tr.

(** Every [Add] that has started has ended. *)
Definition accepts_ended (tr : list Event) : Prop :=
  ∀ i q, Started (Accept i q) ∈ tr → Ended (Accept i q) ∈ tr.


(** The number of times an event occurs in a trace. *)
Definition occurrences (e : Event) (tr : list Event) : nat :=
  length (filter (λ e', e' = e) tr).

(** The effects of the tasks of a pool that have ended, on the heap of
    columns. *)
Definition done_effects (pl : ThreadPool float)
    (h : gmap addr (Column float)) : gmap addr (Column float) :=
  foldl (λ h e, if decide (e.2 = Finished) then call_on_column e.1 h else h)
    h pl.

End Reference.

(** *** What is left to do

    A bound on the number of steps a state can still take: what the
    controlling thread has before it, and what each task has: a start
    and an end, and for [LoadBlock] the store in between. *)

Section Remaining.

Context {float : Type}.

Definition steps_left (t : Task float) (status : Status) : nat :=
  match status, t with
  | Queued, LoadBlock _ _ => 3
  | Queued, _ => 2
  | Running, LoadBlock _ _ => 2
  | Running, _ => 1
  | Notifying, _ => 1
  | Finished, _ => 0
  end.

Fixpoint weight (pl : ThreadPool float) : nat :=
  match pl with
  | [] => 0
  | e :: rest => steps_left e.1 e.2 + weight rest
  end.

Definition budget (files slots columns : nat) (l : Line float) : nat :=
  let per_block := 3 * columns + 2 in
  let finalize := 3 * columns + 3 in
  match l with
  | EnqueueLoop i => 4 * (files - i) + 1 + slots * per_block + finalize
  | ConsumeLoop i => (slots - i) * per_block + finalize
  | InProcessBlock i _ todo =>
      3 * length todo + 1 + (slots - S i) * per_block + finalize
  | InFinalize todo => 3 * length todo + 2
  | Leaving => 1
  | Returned | Aborted _ | Undefined => 0
  end.

Definition remaining (tsvs : list string) (s : State float) : nat :=
  budget (length tsvs) (length (blocks s))
    (length (ProcessBlock_loops (this s))) (line s)
  + weight (pool s) + weight (local_pool s).

End Remaining.

(** *** What the trace records of a load that goes well *)

Section Chronicle.

Context {float : Type}.
Variable tsvs : list string.
Variable st0 : TSVDataStore float.

(** A task on column [p] that has started, that has ended. *)
Definition started_on (p : addr) (e : Task float * Status) : Prop :=
  target e.1 = Some p ∧ e.2 ≠ Queued.

Definition ended_on (p : addr) (e : Task float * Status) : Prop :=
  target e.1 = Some p ∧ e.2 = Finished.

#[global] Instance started_on_dec p e : Decision (started_on p e).
Proof. unfold started_on. apply _. Defined.

#[global] Instance ended_on_dec p e : Decision (ended_on p e).
Proof. unfold ended_on. apply _. Defined.

(** The number of files whose block is folded into every column. *)
Definition folded (l : Line float) : nat :=
  match l with
  | EnqueueLoop _ => 0
  | ConsumeLoop i => i
  | InProcessBlock i _ _ => i
  | _ => length tsvs
  end.

(** While blocks are folded: no [Finalize] yet, and every [Add] that
    has started has ended or is a running task of the pool. *)
Definition folding (lp : ThreadPool float) (tr : list Event) : Prop :=
  Forall (λ e, ¬ is_finish e) tr ∧
  (∀ i q, Started (Accept i q) ∈ tr →
     Ended (Accept i q) ∈ tr ∨ ∃ n v, lp !! n = Some (Add i q v, Running)) ∧
  (∀ n t, lp !! n = Some (t, Finished) → Ended (label t) ∈ tr).

(** While columns are finalized: every [Add] has ended, the trace has
    one start for each task of the pool that has started, one end for
    each that has ended, and it is in two parts, the first one without
    [Finalize], the second one without [Add]. *)
Definition finalizing (lp : ThreadPool float) (tr : list Event) : Prop :=
  accepts_ended tr ∧
  (∀ p, occurrences (Started (Finish p)) tr = length (filter (started_on p) lp) ∧
        occurrences (Ended (Finish p)) tr = length (filter (ended_on p) lp)) ∧
  ∃ pre post, tr = pre ++ post ∧
    Forall (λ e, ¬ is_finish e) pre ∧ Forall (λ e, ¬ is_accept e) post.

Definition chronicle (s : State float) : Prop :=
  (∀ e i, e ∈ trace s → file_of e = Some i → i < length tsvs) ∧
  accepts_complete (folded (line s)) (accumulators st0) (trace s) ∧
  match line s with
  | EnqueueLoop _ | ConsumeLoop _ | InProcessBlock _ _ _ =>
      folding (local_pool s) (trace s)
  | InFinalize _ | Leaving | Returned =>
      finalizing (local_pool s) (trace s)
  | Aborted _ | Undefined => True
  end.

End Chronicle.

(** *** The invariant of a load with a missing file *)

(** File [k], named [missing], is the first one that does not exist:
    the store is as [SetupColumns] left it and the tasks of the first
    [count] files are enqueued, [count] being at most [k]; the
    controlling thread is in its first loop, at iteration [count], or
    the check of line 61 has failed on file [k], or the parser has died
    on one of the first [count] files. *)
Definition enqueueing {float : Type}
    (new_TSVBlock : string → list nat → list nat → option (TSVBlock float))
    (tsvs : list string) (st0 : TSVDataStore float)
    (k : nat) (missing : string) (s : State float) : Prop :=
  this s = st0 ∧ local_pool s = [] ∧
  (∀ j e, pool s !! j = Some e →
     ∃ tsv, tsvs !! j = Some tsv ∧ e.1 = LoadBlock tsv j) ∧
  ∃ count, length (pool s) = count ∧ count ≤ k ∧
    (∀ j, Enqueued (Parse j) ∈ trace s ↔ j < count) ∧
    (line s = EnqueueLoop count ∨
     line s = Aborted (DoesNotExist missing) ∧ count = k ∨
     ∃ j tsv, j < count ∧ tsvs !! j = Some tsv ∧
       line s = Aborted (ParseError tsv) ∧
       new_TSVBlock tsv (float_column_indices_ st0)
         (string_column_indices_ st0) = None).

(** *** The invariant of a load that goes well *)

Section Invariant.

Context {float : Type}.
Variable new_TSVBlock : string → list nat → list nat → option (TSVBlock float).
Variable tsvs : list string.

(** The store as [SetupColumns] left it. *)
Variable st0 : TSVDataStore float.

(** How many [LoadBlock] tasks have been enqueued, and how many blocks
    the controlling thread has taken, at a given line. *)
Definition submitted (l : Line float) : nat :=
  match l with
  | EnqueueLoop i => i
  | _ => length tsvs
  end.

Definition consumed (l : Line float) : nat :=
  match l with
  | EnqueueLoop _ => 0
  | ConsumeLoop i => i
  | InProcessBlock i _ _ => S i
  | _ => length tsvs
  end.

(** A task that has stored its block. *)
Definition has_stored (status : Status) : Prop :=
  status = Notifying ∨ status = Finished.

(** Slot [j] of [blocks]: empty while the task of file [j] has not
    stored its block, holding the block of the file once it has, empty
    again once the controlling thread has taken the block. *)
Definition slot_ok (bs : list (option (TSVBlock float))) (count : nat)
    (pl : ThreadPool float) (j : nat) (tsv : string) : Prop :=
  (bs !! j = Some None ∧ count ≤ j ∧
     ∀ t status, pl !! j = Some (t, status) → ¬ has_stored status) ∨
  (bs !! j = Some (Some (block_of new_TSVBlock st0 tsv)) ∧ count ≤ j ∧
     ∃ status, pl !! j = Some (LoadBlock tsv j, status) ∧ has_stored status) ∨
  (bs !! j = Some None ∧ j < count ∧
     ∃ status, pl !! j = Some (LoadBlock tsv j, status) ∧ has_stored status).

(** The pool of [ProcessBlock] for file [i] holds the calls of the
    iterations [past], in order. *)
Definition adds_of (i : nat) (block : TSVBlock float)
    (past : list (Kind * (addr * nat))) (pl : ThreadPool float) : Prop :=
  Forall2 (λ it e, ∃ v, bound_column it.1 it.2.2 block = Some v ∧
                        e.1 = Add i it.2.1 v) past pl.

(** The pool of [Finalize] holds the calls of the iterations [past]. *)
Definition finalizes_of (past : list addr) (pl : ThreadPool float)
    : Prop :=
  Forall2 (λ p e, e.1 = FinalizeColumn p) past pl.

(** The pool of [ProcessBlock] or of [Finalize] holds calls on columns,
    none with the status of a [LoadBlock] that has stored its block. *)
Definition calls_only (lp : ThreadPool float) : Prop :=
  ∀ n e, lp !! n = Some e → is_Some (target e.1) ∧ e.2 ≠ Notifying.

(** Where the columns are, line by line. *)
Definition phase_ok (l : Line float) (lp : ThreadPool float)
    (h : gmap addr (Column float)) : Prop :=
  let loops := ProcessBlock_loops st0 in
  let bs := blocks_of new_TSVBlock st0 tsvs in
  match l with
  | EnqueueLoop i => i ≤ length tsvs ∧ lp = [] ∧ h = objects st0
  | ConsumeLoop i =>
      i ≤ length tsvs ∧ all_finished lp = true ∧
      h = fold_blocks loops (objects st0) (take i bs)
  | InProcessBlock i block todo =>
      ∃ tsv past, tsvs !! i = Some tsv ∧
        block = block_of new_TSVBlock st0 tsv ∧
        loops = past ++ todo ∧ adds_of i block past lp ∧
        h = done_effects lp (fold_blocks loops (objects st0) (take i bs))
  | InFinalize todo =>
      ∃ past, Finalize_loops st0 = past ++ todo ∧ finalizes_of past lp ∧
        h = done_effects lp (fold_blocks loops (objects st0) bs)
  | Leaving | Returned =>
      finalizes_of (Finalize_loops st0) lp ∧ all_finished lp = true ∧
      h = sequential_load new_TSVBlock tsvs st0
  | Aborted _ | Undefined => False
  end.

(** [LoadTSVs] at line 59, about to enter its first loop. *)
Definition at_line_59 : State float :=
  {| line := EnqueueLoop 0; this := st0;
     blocks := replicate (length tsvs) None;
     pool := []; local_pool := []; trace := [] |}.

Record structure (s : State float) : Prop := {
  str_layout : same_layout st0 (this s);
  str_blocks : length (blocks s) = length tsvs;
  str_pool : length (pool s) = submitted (line s);
  str_tasks : ∀ j e, pool s !! j = Some e →
                ∃ tsv, tsvs !! j = Some tsv ∧ e.1 = LoadBlock tsv j;
  str_slots : ∀ j tsv, tsvs !! j = Some tsv →
                slot_ok (blocks s) (consumed (line s)) (pool s) j tsv;
  str_phase : phase_ok (line s) (local_pool s) (objects (this s));
  str_calls : calls_only (local_pool s)
}.

End Invariant.

(** *** The finished store *)

(** The column registered under [name], if any. *)
Definition column_named {float : Type} (st : TSVDataStore float)
    (name : string) : option (Column float) :=
  column_map_ st !! name ≫= λ p, objects st !! p.

(** [e1] occurs in the trace before [e2] does. *)
Definition occurs_before (e1 e2 : Event) (tr : list Event) : Prop :=
  ∃ t1 t2 t3, tr = t1 ++ e1 :: t2 ++ e2 :: t3.

(** [name] is at position [index] of the header, and nowhere after. *)
Definition last_at (headers : list string) (name : string) (index : nat)
    : Prop :=
  headers !! index = Some name ∧ ∀ j, headers !! j = Some name → j ≤ index.

(** The check of line 61 fails before any [LoadBlock] is enqueued. *)
Definition aborts_before_any_submission {float : Type}
    (FileExists : string → bool)
    (new_TSVBlock : string → list nat → list nat → option (TSVBlock float))
    (tsvs : list string) (entry : State float) : Prop :=
  ∀ s, rtc (step FileExists new_TSVBlock tsvs) entry s →
    ∀ e, line s = Aborted e → ∀ i, Enqueued (Parse i) ∉ trace s.
(** ** A concrete file system, for the scenarios *)

Module Scenario.

(** Modelled from the spec: [strings::split] of [src/utils] is not part
    of the sources at hand.  The header line is "tab-delimited column
    names": [n] separators delimit [n + 1] fields. *)
Fixpoint split_on (sep : ascii) (s : string) : list string :=
  match s with
  | EmptyString => [EmptyString]
  | String c rest =>
      if decide (c = sep) then EmptyString :: split_on sep rest
      else
        match split_on sep rest with
        | [] => [String c EmptyString]
        | field :: fields => String c field :: fields
        end
  end.

Definition tab : ascii := ascii_of_nat 9.
Definition newline : ascii := ascii_of_nat 10.

Definition is_space (c : ascii) : bool :=
  let n := nat_of_ascii c in
  bool_decide (n = 32) || (bool_decide (9 ≤ n) && bool_decide (n ≤ 13)).

Fixpoint trim_left (s : string) : string :=
  match s with
  | String c rest => if is_space c then trim_left rest else s
  | EmptyString => EmptyString
  end.

Fixpoint trim_right (s : string) : string :=
  match s with
  | EmptyString => EmptyString
  | String c rest =>
      match trim_right rest with
      | EmptyString => if is_space c then EmptyString else String c EmptyString
      | kept => String c kept
      end
  end.

(** Modelled from the spec: [TrimWhiteSpace] of [src/utils] is not part
    of the sources at hand; header names are "whitespace-trimmed". *)
Definition TrimWhiteSpace (s : string) : string := trim_right (trim_left s).

(** Fields joined by tabs. *)
Fixpoint tsv_line (fields : list string) : string :=
  match fields with
  | [] => EmptyString
  | [field] => field
  | field :: rest => field +:+ String tab (tsv_line rest)
  end.

(** A file system: paths with their contents. *)
Definition FileSystem : Type := list (string * string).

Fixpoint ReadFile (fs : FileSystem) (path : string) : option string :=
  match fs with
  | [] => None
  | (name, contents) :: rest =>
      if decide (name = path) then Some contents else ReadFile rest path
  end.

Definition FileExists (fs : FileSystem) (path : string) : bool :=
  match ReadFile fs path with Some _ => true | None => false end.

Section Parser.

Context {float : Type}.

(** The conversion of a field to a [float]. *)
Variable atof : string → float.

(** The rows of a file: its non-empty lines, split at tabs. *)
Definition rows_of (contents : string) : list (list string) :=
  split_on tab <$> filter (λ l, l ≠ EmptyString) (split_on newline contents).

(** Modelled from the spec: [tsv_block.h] is not part of the sources at
    hand.  The row block parser, "given one input file and the set of
    column positions to extract, produces a self-contained block
    holding that file's rows as typed columnar arrays", with "arrays
    whose lengths equal each other within a block (one entry per row)
    and whose slot ordering matches the layout handed in".  This parser
    never dies: a file that cannot be read has no row, and a cell that
    a row does not have is empty. *)
Definition new_TSVBlock (fs : FileSystem) (tsv : string)
    (float_column_indices string_column_indices : list nat)
    : option (TSVBlock float) :=
  let rows := rows_of (default EmptyString (ReadFile fs tsv)) in
  Some
    {| float_columns :=
         (λ index, (λ row, atof (row !!! index)) <$> rows) <$> float_column_indices;
       string_columns :=
         (λ index, (λ row, row !!! index) <$> rows) <$> string_column_indices |}.

End Parser.

(** An allocator: the least address that is not in use. *)
Definition new_column {float : Type} (h : gmap addr (Column float)) : addr :=
  fresh (dom h).

(** The scenario of the specification: header [id x y label], two
    one-row files. *)
Definition header_txt : string := tsv_line ["id"; "x"; "y"; "label"].

Definition two_files : FileSystem :=
  [("header.tsv", header_txt);
   ("a.tsv", tsv_line ["1"; "0.5"; "1.2"; "A"]);
   ("b.tsv", tsv_line ["2"; "0.7"; "0.9"; "B"])].

Definition xy_label : TSVDataConfig :=
  {| binned_float_column := [];
     raw_float_column := ["x"; "y"];
     string_column := ["label"] |}.

(** A header with the same name twice, and configurations on it. *)
Definition x_y_x : FileSystem := [("header.tsv", tsv_line ["x"; "y"; "x"])].

Definition raw_x : TSVDataConfig :=
  {| binned_float_column := []; raw_float_column := ["x"];
     string_column := [] |}.

Definition binned_x_twice : TSVDataConfig :=
  {| binned_float_column := ["x"; "x"]; raw_float_column := [];
     string_column := [] |}.

Definition raw_z : TSVDataConfig :=
  {| binned_float_column := []; raw_float_column := ["z"];
     string_column := [] |}.

(** A configuration whose second name is not in the header, and one
    whose name is given with a space before it. *)
Definition raw_x_z_label : TSVDataConfig :=
  {| binned_float_column := []; raw_float_column := ["x"; "z"];
     string_column := ["label"] |}.

Definition raw_padded_x : TSVDataConfig :=
  {| binned_float_column := []; raw_float_column := [" x"];
     string_column := [] |}.

(** A numeric cell kept as its text, where the value does not matter. *)
Definition as_text (field : string) : string := field.

(** A parser that does not honour the layout: its blocks have no
    column at all. *)
Definition no_column {float : Type} (tsv : string)
    (float_column_indices string_column_indices : list nat)
    : option (TSVBlock float) :=
  Some {| float_columns := []; string_columns := [] |}.

(** A second allocator, and a second file system with the header of the
    first one under another name. *)
Definition new_column_far {float : Type} (h : gmap addr (Column float)) : addr :=
  fresh (dom h) + 7.

Definition other_files : FileSystem := [("columns.txt", header_txt)].

(** [SetupColumns] and [LoadTSVs] on a file system, the header being in
    [header.tsv]. *)
Definition resolve {float : Type} (fs : FileSystem) (config : TSVDataConfig)
    : Outcome (TSVDataStore float) :=
  SetupColumns (ReadFile fs) (split_on tab) TrimWhiteSpace new_column
    "header.tsv" config empty_store.

Definition resolved {float : Type} (fs : FileSystem) (config : TSVDataConfig)
    : TSVDataStore float :=
  match resolve fs config with
  | Ok st => st
  | Died _ => empty_store
  end.

Definition entry {float : Type} (fs : FileSystem) (tsvs : list string)
    (config : TSVDataConfig) : State float :=
  LoadTSVs_entry (ReadFile fs) (split_on tab) TrimWhiteSpace new_column
    "header.tsv" tsvs config.

Definition steps {float : Type} (atof : string → float) (fs : FileSystem)
    (tsvs : list string) : State float → State float → Prop :=
  rtc (step (FileExists fs) (new_TSVBlock atof fs) tsvs).

End Scenario.
(** ** Vocabulary of the further properties *)

(** *** The registry of columns *)

(** The kind of the column [SetupColumns] leaves under [name]: the loops
    run in the order binned, raw, string, and a later [reset] replaces
    what an earlier one has put under the same name. *)
Definition registered_kind (config : TSVDataConfig) (name : string)
    : option Kind :=
  if decide (name ∈ string_column config) then Some StringKind
  else if decide (name ∈ raw_float_column config) then Some RawFloat
  else if decide (name ∈ binned_float_column config) then Some BinnedFloat
  else None.

(** Ownership through [column_map_]: a column is alive exactly when an
    entry of the map points to it, and no two entries point to the same
    column. *)
Definition registry_owns {float : Type} (st : TSVDataStore float) : Prop :=
  (∀ p, is_Some (objects st !! p) ↔ ∃ name, column_map_ st !! name = Some p) ∧
  (∀ name1 name2 p,
     column_map_ st !! name1 = Some p → column_map_ st !! name2 = Some p →
     name1 = name2).

(** The per-kind vectors point to columns that are alive, no two
    entries to the same one. *)
Definition slots_sound {float : Type} (st : TSVDataStore float) : Prop :=
  NoDup (accumulators st) ∧
  ∀ p, p ∈ accumulators st → is_Some (objects st !! p).

(** The configured columns with their kind and the slot [SetupColumns]
    gives them: the binned names take the slots [0, 1, ...] of the
    numeric index vector and the raw names the slots after them; the
    string names take the slots [0, 1, ...] of the string index
    vector. *)
Definition configured_columns (config : TSVDataConfig)
    : list (Kind * (string * nat)) :=
  imap (λ j name, (BinnedFloat, (name, j))) (binned_float_column config) ++
  imap (λ j name,
          (RawFloat, (name, length (binned_float_column config) + j)))
    (raw_float_column config) ++
  imap (λ j name, (StringKind, (name, j))) (string_column config).

(** *** The contents of a loaded column *)

Section Contents.

Context {float : Type}.

(** The rows of slot [slot], block after block. *)
Definition float_rows (bs : list (TSVBlock float)) (slot : nat) : list float :=
  mjoin ((λ b, default [] (float_columns b !! slot)) <$> bs).

Definition string_rows (bs : list (TSVBlock float)) (slot : nat)
    : list string :=
  mjoin ((λ b, default [] (string_columns b !! slot)) <$> bs).

(** A column of kind [k] that has seen slot [slot] of the blocks [bs],
    in order, and one [Finalize]. *)
Definition loaded_column (k : Kind) (name : string) (slot : nat)
    (bs : list (TSVBlock float)) : Column float :=
  {| col_kind := k; col_name := name;
     col_floats :=
       match k with StringKind => [] | _ => float_rows bs slot end;
     col_strings :=
       match k with StringKind => string_rows bs slot | _ => [] end;
     col_finalized := 1 |}.

(** A column only grows: it keeps its kind and its name, what it has
    accepted stays at the front of what it holds, and the count of
    [Finalize] calls does not decrease. *)
Definition grows (c c' : Column float) : Prop :=
  col_kind c' = col_kind c ∧ col_name c' = col_name c ∧
  col_floats c `prefix_of` col_floats c' ∧
  col_strings c `prefix_of` col_strings c' ∧
  col_finalized c ≤ col_finalized c'.

Definition columns_grow (h h' : gmap addr (Column float)) : Prop :=
  dom h' = dom h ∧
  ∀ p c, h !! p = Some c → ∃ c', h' !! p = Some c' ∧ grows c c'.

(** Calls on columns exclude one another: the column of a running task
    is alive, and no other running task is on the same column. *)
Definition exclusive (s : State float) : Prop :=
  ∀ w n t p, get_pool w s !! n = Some (t, Running) → target t = Some p →
    is_Some (objects (this s) !! p) ∧
    ∀ w' n' t', get_pool w' s !! n' = Some (t', Running) →
      target t' = Some p → w' = w ∧ n' = n.

(** No column has been touched and no block taken. *)
Definition untouched (st0 : TSVDataStore float) (s : State float) : Prop :=
  this s = st0 ∧ taken (trace s) = [] ∧
  Forall (λ e, ¬ is_accept e ∧ ¬ is_finish e) (trace s).

End Contents.

(** *** Order in a trace *)

(** Whenever [e2] occurs, [e1] has occurred before. *)
Definition precedes (e1 e2 : Event) (tr : list Event) : Prop :=
  ∀ pre post, tr = pre ++ e2 :: post → e1 ∈ pre.

(** The [Add] events of the trace are about the first [count] files. *)
Definition accepts_below (count : nat) (tr : list Event) : Prop :=
  ∀ e i, e ∈ tr → is_accept e → file_of e = Some i → i < count.

(** Blocks are folded one at a time: when the block of file [j] is
    taken, every [Add] of the files before it has ended, no [Add] of
    file [j] or of a later file has been enqueued, and the [Add] events
    that follow are about file [j] or a later one. *)
Definition one_at_a_time (accs : list addr) (tr : list Event) : Prop :=
  ∀ pre j post, tr = pre ++ Took j :: post →
    accepts_complete j accs pre ∧ accepts_below j pre ∧
    ∀ e i, e ∈ post → is_accept e → file_of e = Some i → j ≤ i.

(** An upper bound on the number of steps of a load of [files] files
    into [columns] columns. *)
Definition steps_bound (files columns : nat) : nat :=
  4 * files + 1 + files * (3 * columns + 2) + 3 * columns + 3.

(** *** The life of a parse task *)

Section Parse_log.

Context {float : Type}.
Variable FileExists : string → bool.
Variable new_TSVBlock : string → list nat → list nat → option (TSVBlock float).
Variable tsvs : list string.

(** How far the [n]-th task of a pool has got: not enqueued, queued,
    running, past the store of its block, finished. *)
Definition stage_of (status : Status) : nat :=
  match status with
  | Queued => 1
  | Running => 2
  | Notifying => 3
  | Finished => 4
  end.

Definition stage (pl : ThreadPool float) (n : nat) : nat :=
  match pl !! n with
  | None => 0
  | Some (_, status) => stage_of status
  end.

(** The event [e] is in the trace once if the task has reached stage
    [reached], and not at all otherwise. *)
Definition logged_from (reached : nat) (e : Event) (pl : ThreadPool float)
    (n : nat) (tr : list Event) : Prop :=
  occurrences e tr = if decide (reached ≤ stage pl n) then 1 else 0.

(** [block] is what the parser makes of file [i], for the layout of the
    store. *)
Definition parsed_from (s : State float) (i : nat) (block : TSVBlock float)
    : Prop :=
  ∃ tsv, tsvs !! i = Some tsv ∧
    new_TSVBlock tsv (float_column_indices_ (this s))
      (string_column_indices_ (this s)) = Some block.

(** Where the controlling thread is, how many parse tasks are enqueued
    and which blocks are taken; the block [ProcessBlock] works on is
    that of the file whose turn it is. *)
Definition progress_ok (s : State float) : Prop :=
  let n := length tsvs in
  match line s with
  | EnqueueLoop i =>
      length (blocks s) = n ∧ length (pool s) = i ∧ i ≤ n ∧
      taken (trace s) = []
  | ConsumeLoop i =>
      length (blocks s) = n ∧ length (pool s) = n ∧ i ≤ n ∧
      taken (trace s) = seq 0 i
  | InProcessBlock i block _ =>
      length (blocks s) = n ∧ length (pool s) = n ∧ i < n ∧
      taken (trace s) = seq 0 (S i) ∧ parsed_from s i block
  | InFinalize _ | Leaving =>
      length (blocks s) = n ∧ length (pool s) = n ∧
      taken (trace s) = seq 0 n
  | Returned =>
      length (pool s) = n ∧ taken (trace s) = seq 0 n ∧
      all_finished (pool s) = true
  | Aborted _ | Undefined => True
  end.

Record parse_log (s : State float) : Prop := {
  plg_tasks : ∀ j e, pool s !! j = Some e →
                ∃ tsv, tsvs !! j = Some tsv ∧ FileExists tsv = true ∧
                       e.1 = LoadBlock tsv j;
  plg_local : ∀ n e, local_pool s !! n = Some e → is_Some (target e.1);
  plg_count : ∀ i,
                logged_from 1 (Enqueued (Parse i)) (pool s) i (trace s) ∧
                logged_from 2 (Started (Parse i)) (pool s) i (trace s) ∧
                logged_from 3 (Stored i) (pool s) i (trace s) ∧
                logged_from 4 (Ended (Parse i)) (pool s) i (trace s);
  plg_order : ∀ i,
                precedes (Enqueued (Parse i)) (Started (Parse i)) (trace s) ∧
                precedes (Started (Parse i)) (Ended (Parse i)) (trace s) ∧
                precedes (Started (Parse i)) (Stored i) (trace s) ∧
                precedes (Stored i) (Ended (Parse i)) (trace s) ∧
                precedes (Stored i) (Took i) (trace s);
  plg_probe : ∀ i tsv, tsvs !! i = Some tsv →
                precedes (Probed tsv) (Enqueued (Parse i)) (trace s);
  plg_blocks : ∀ i block, blocks s !! i = Some (Some block) →
                 3 ≤ stage (pool s) i ∧ parsed_from s i block;
  plg_line : progress_ok s
}.

End Parse_log.
(** * Schema resolution *)

Section SetupColumns_facts.

Context {float : Type}.
Variable ReadFile : string → option string.
Variable split : string → list string.
Variable TrimWhiteSpace : string → string.
Variable new_column : gmap addr (Column float) → addr.

Local Abbreviation setup_loop := (setup_loop new_column).
Local Abbreviation SetupColumns :=
  (SetupColumns ReadFile split TrimWhiteSpace new_column).
Local Abbreviation trimmed_headers := (trimmed_headers split TrimWhiteSpace).
Local Abbreviation index_headers := (index_headers TrimWhiteSpace).

(** *** The name-to-index map *)

Lemma last_position_Some name headers j :
  last_position name headers = Some j →
  headers !! j = Some name ∧ ∀ q, headers !! q = Some name → q ≤ j.
Proof.
  revert j. induction headers as [|h rest IH]; intros j; simpl; [done|].
  destruct (last_position name rest) as [j'|] eqn:E.
  - intros [= <-]. destruct (IH j' eq_refl) as [Hj Hmax]. split; [done|].
    intros [|q] Hq; [lia|]. apply Hmax in Hq. lia.
  - destruct (decide (h = name)) as [->|]; [|done].
    intros [= <-]. split; [done|].
    intros [|q] Hq; [lia|]. simpl in Hq.
    exfalso. clear IH. revert q Hq E.
    induction rest as [|h' rest' IH']; intros q Hq E; [done|].
    simpl in E. destruct (last_position name rest'); [done|].
    destruct (decide (h' = name)); [done|].
    destruct q as [|q]; simpl in Hq; [congruence|]. by eapply IH'.
Qed.

Lemma last_position_None name headers :
  last_position name headers = None ↔ name ∉ headers.
Proof.
  induction headers as [|h rest IH]; simpl.
  - split; [intros _; apply not_elem_of_nil|done].
  - rewrite not_elem_of_cons.
    destruct (last_position name rest); [|destruct (decide (h = name))].
    + split; [done|]. intros [_ Hr]. by apply IH in Hr.
    + split; [done|]. intros [Hn _]. congruence.
    + split; [|done]. intros _. split; [congruence|]. by apply IH.
Qed.

Lemma index_headers_lookup i headers m name :
  index_headers i headers m !! name =
    match last_position name (TrimWhiteSpace <$> headers) with
    | Some j => Some (i + j)
    | None => m !! name
    end.
Proof.
  revert i m. induction headers as [|h rest IH]; intros i m; csimpl; [done|].
  rewrite IH. destruct (last_position name (TrimWhiteSpace <$> rest)).
  - apply (f_equal Some). lia.
  - destruct (decide (TrimWhiteSpace h = name)) as [->|Hne].
    + rewrite lookup_insert_eq. apply (f_equal Some). lia.
    + by rewrite lookup_insert_ne.
Qed.

(** The map built at lines 116-120 sends a name to the position of its
    last occurrence among the trimmed header names, and knows no other
    name. *)
Lemma header_map_lookup contents name :
  index_headers 0 (split contents) ∅ !! name =
    last_position name (trimmed_headers contents).
Proof.
  rewrite index_headers_lookup. 
  by destruct (last_position _ _).
Qed.

(** *** One loop of [SetupColumns] *)

Lemma setup_loop_cons k (m : gmap string nat) header rest st :
  setup_loop k m (header :: rest) st =
    match m !! header with
    | None => Died (FailedToFind header)
    | Some idx =>
        setup_loop k m rest
          (push_column k (reset_column new_column k header st).1 idx
             (reset_column new_column k header st).2)
    end.
Proof. done. Qed.

(** One iteration: what it appends, and what it leaves alone. *)
Lemma iteration_layout k header idx st :
  let st1 := push_column k (reset_column new_column k header st).1 idx
               (reset_column new_column k header st).2 in
  indices_of k st1 = indices_of k st ++ [idx] ∧
  columns_of k st1 =
    columns_of k st ++
      [((reset_column new_column k header st).1, length (indices_of k st))] ∧
  (∀ k', k' ≠ k → columns_of k' st1 = columns_of k' st) ∧
  (k ≠ StringKind → string_column_indices_ st1 = string_column_indices_ st) ∧
  (k = StringKind → float_column_indices_ st1 = float_column_indices_ st).
Proof.
  destruct k; simpl; repeat split; try done; by intros [].
Qed.

(** The index vectors and the slots a loop produces depend on the map
    and on the names only. *)
Lemma setup_loop_layout k m names st st' :
  setup_loop k m names st = Ok st' →
  ∃ ps idxs,
    Forall2 (λ name idx, m !! name = Some idx) names idxs ∧
    length ps = length names ∧
    indices_of k st' = indices_of k st ++ idxs ∧
    columns_of k st' =
      columns_of k st ++ zip ps (seq (length (indices_of k st)) (length names)) ∧
    (∀ k', k' ≠ k → columns_of k' st' = columns_of k' st) ∧
    (k ≠ StringKind → string_column_indices_ st' = string_column_indices_ st) ∧
    (k = StringKind → float_column_indices_ st' = float_column_indices_ st).
Proof.
  revert st. induction names as [|header rest IH]; intros st.
  - intros [= <-]. exists [], []. rewrite !app_nil_r. by repeat split.
  - rewrite setup_loop_cons.
    destruct (m !! header) as [idx|] eqn:Hm; [|done].
    destruct (iteration_layout k header idx st) as (Hi1 & Hc1 & Ho1 & Hs1 & Hf1).
    intros Hloop.
    apply IH in Hloop as (ps & idxs & HF & Hlen & Hi & Hc & Ho & Hs & Hf).
    exists ((reset_column new_column k header st).1 :: ps), (idx :: idxs).
    split; [by constructor|]. split; [simpl; lia|].
    rewrite Hi, Hc, Hi1, Hc1, length_app, <- !app_assoc. simpl.
    rewrite Nat.add_1_r.
    split; [done|]. split; [done|]. split; [|split].
    + intros k' Hk. by rewrite Ho, Ho1.
    + intros Hk. by rewrite Hs, Hs1.
    + intros Hk. by rewrite Hf, Hf1.
Qed.

(** A loop succeeds as soon as the map knows every name. *)
Lemma setup_loop_succeeds k (m : gmap string nat) names st :
  (∀ name, name ∈ names → is_Some (m !! name)) →
  ∃ st', setup_loop k m names st = Ok st'.
Proof.
  revert st. induction names as [|header rest IH]; intros st Hall.
  - by eexists.
  - rewrite setup_loop_cons. destruct (Hall header) as [idx ->]; [by left|].
    apply IH. intros name Hin. apply Hall. by right.
Qed.

(** A loop fails on the first name the map does not know. *)
Lemma setup_loop_fails k (m : gmap string nat) names st e :
  setup_loop k m names st = Died e →
  ∃ name, e = FailedToFind name ∧ name ∈ names ∧ m !! name = None.
Proof.
  revert st. induction names as [|header rest IH]; intros st; [done|].
  rewrite setup_loop_cons. destruct (m !! header) as [idx|] eqn:Hm.
  - intros Hloop. apply IH in Hloop as (name & -> & Hin & Hnone).
    exists name. split; [done|]. split; [by right|done].
  - intros [= <-]. exists header. split; [done|]. split; [by left|done].
Qed.

(** *** The three loops together *)

Lemma SetupColumns_unfold header_file contents config st :
  ReadFile header_file = Some contents →
  SetupColumns header_file config st =
    let m := index_headers 0 (split contents) ∅ in
    match setup_loop BinnedFloat m (binned_float_column config) st with
    | Died e => Died e
    | Ok st1 =>
        match setup_loop RawFloat m (raw_float_column config) st1 with
        | Died e => Died e
        | Ok st2 => setup_loop StringKind m (string_column config) st2
        end
    end.
Proof. intros H. unfold SetupColumns. by rewrite H. Qed.

(** What [SetupColumns] leaves in the index vectors and in the slots. *)
Lemma SetupColumns_layout header_file contents config st :
  ReadFile header_file = Some contents →
  SetupColumns header_file config empty_store = Ok st →
  let resolves := λ name idx,
    last_position name (trimmed_headers contents) = Some idx in
  ∃ psB psR psS,
    Forall2 resolves
      (binned_float_column config ++ raw_float_column config)
      (float_column_indices_ st) ∧
    Forall2 resolves (string_column config) (string_column_indices_ st) ∧
    length psB = length (binned_float_column config) ∧
    length psR = length (raw_float_column config) ∧
    length psS = length (string_column config) ∧
    binned_float_columns_ st =
      zip psB (seq 0 (length (binned_float_column config))) ∧
    raw_float_columns_ st =
      zip psR (seq (length (binned_float_column config))
                 (length (raw_float_column config))) ∧
    string_columns_ st = zip psS (seq 0 (length (string_column config))).
Proof.
  intros Hread. rewrite (SetupColumns_unfold _ _ _ _ Hread). simpl.
  destruct (setup_loop BinnedFloat _ _ _) as [st1|] eqn:H1; [|done].
  destruct (setup_loop RawFloat _ _ _) as [st2|] eqn:H2; [|done].
  intros H3.
  apply setup_loop_layout in H1 as (psB & iB & HFB & HlB & HiB & HcB & HoB & HsB & _).
  apply setup_loop_layout in H2 as (psR & iR & HFR & HlR & HiR & HcR & HoR & HsR & _).
  apply setup_loop_layout in H3 as (psS & iS & HFS & HlS & HiS & HcS & HoS & _ & HfS).
  simpl in *.
  exists psB, psR, psS.
  assert (length iB = length (binned_float_column config)) as HliB
    by (symmetry; by eapply Forall2_length).
  split; [|split].
  - rewrite HfS, HiR, HiB by done. simpl.
    apply Forall2_app; (eapply Forall2_impl; [eassumption|]);
      intros name idx Hm; by rewrite <- header_map_lookup.
  - rewrite HiS, HsR, HsB by done. simpl.
    eapply Forall2_impl; [eassumption|].
    intros name idx Hm; by rewrite <- header_map_lookup.
  - split; [done|]. split; [done|]. split; [done|].
    pose proof (HoS BinnedFloat) as E1. pose proof (HoS RawFloat) as E2.
    pose proof (HoR BinnedFloat) as E3. pose proof (HoR StringKind) as E4.
    pose proof (HoB RawFloat) as E5. pose proof (HoB StringKind) as E6.
    simpl in *.
    rewrite E1, E3, HcB by done.
    rewrite E2, HcR, E5 by done.
    rewrite HcS, E4, E6 by done.
    rewrite HsR, HsB, HiB, HliB by done. done.
Qed.

(** [SetupColumns] succeeds when the header has every configured name. *)
Lemma SetupColumns_succeeds header_file contents config st0 :
  ReadFile header_file = Some contents →
  (∀ name, name ∈ configured_names config →
           name ∈ trimmed_headers contents) →
  ∃ st, SetupColumns header_file config st0 = Ok st.
Proof.
  intros Hread Hall. rewrite (SetupColumns_unfold _ _ _ _ Hread). simpl.
  assert (∀ name, name ∈ configured_names config →
            is_Some (index_headers 0 (split contents) ∅ !! name)) as Hm.
  { intros name Hin. rewrite header_map_lookup.
    destruct (last_position name (trimmed_headers contents)) eqn:E; [by eexists|].
    apply last_position_None in E. by apply Hall in Hin. }
  unfold configured_names in Hm. setoid_rewrite elem_of_app in Hm.
  setoid_rewrite elem_of_app in Hm.
  set (m := index_headers 0 (split contents) ∅) in *.
  destruct (setup_loop_succeeds BinnedFloat m (binned_float_column config) st0)
    as [st1 ->]; [by auto|].
  destruct (setup_loop_succeeds RawFloat m (raw_float_column config) st1)
    as [st2 ->]; [by auto|].
  apply setup_loop_succeeds. by auto.
Qed.

(** [SetupColumns] dies on a configured name the header does not have. *)
Lemma SetupColumns_dies header_file contents config st0 e :
  ReadFile header_file = Some contents →
  SetupColumns header_file config st0 = Died e →
  ∃ name, e = FailedToFind name ∧ name ∈ configured_names config ∧
          name ∉ trimmed_headers contents.
Proof.
  intros Hread. rewrite (SetupColumns_unfold _ _ _ _ Hread). simpl.
  unfold configured_names. setoid_rewrite elem_of_app.
  setoid_rewrite elem_of_app.
  setoid_rewrite <- last_position_None.
  setoid_rewrite <- header_map_lookup.
  destruct (setup_loop BinnedFloat _ _ _) as [st1|e1] eqn:H1.
  - destruct (setup_loop RawFloat _ _ _) as [st2|e2] eqn:H2.
    + intros H3. apply setup_loop_fails in H3 as (name & ? & ? & ?).
      exists name. auto.
    + intros [= <-]. apply setup_loop_fails in H2 as (name & ? & ? & ?).
      exists name. auto.
  - intros [= <-]. apply setup_loop_fails in H1 as (name & ? & ? & ?).
    exists name. auto.
Qed.

(** *** Well-formedness of the store [SetupColumns] builds *)

Lemma ProcessBlock_loops_push k p idx (st : TSVDataStore float) :
  ProcessBlock_loops (push_column k p idx st) ≡ₚ
    (k, (p, length (indices_of k st))) :: ProcessBlock_loops st.
Proof.
  unfold ProcessBlock_loops. destruct k; simpl; rewrite ?fmap_app; simpl.
  - rewrite <- !app_assoc. simpl. by rewrite <- Permutation_middle.
  - rewrite <- !app_assoc. simpl. by rewrite <- !Permutation_middle.
  - by rewrite <- !Permutation_middle, !app_nil_r.
Qed.

Lemma indices_of_push_length k k' p idx (st : TSVDataStore float) :
  length (indices_of k' st) ≤ length (indices_of k' (push_column k p idx st)) ∧
  length (indices_of k (push_column k p idx st)) = S (length (indices_of k st)).
Proof.
  destruct k, k'; simpl; rewrite ?length_app; simpl; lia.
Qed.

(** An iteration on a name that [column_map_] does not hold yet. *)
Lemma iteration_well_formed k header idx st :
  fresh_allocator new_column →
  column_map_ st !! header = None →
  well_formed st →
  let st1 := push_column k (reset_column new_column k header st).1 idx
               (reset_column new_column k header st).2 in
  well_formed st1 ∧
  column_map_ st1 = <[header := new_column (objects st)]> (column_map_ st).
Proof.
  intros Hfresh Hnone [Hnd Hobj]. cbv zeta.
  change (reset_column new_column k header st).1 with (new_column (objects st)).
  set (p := new_column (objects st)).
  assert (objects (push_column k p idx (reset_column new_column k header st).2)
          = <[p := new_Column k header]> (objects st)) as Hob.
  { unfold reset_column. rewrite Hnone. by destruct k. }
  assert (column_map_ (push_column k p idx (reset_column new_column k header st).2)
          = <[header := p]> (column_map_ st)) as Hcm by by destruct k.
  split; [|done].
  assert (p ∉ accumulators st) as Hp.
  { unfold accumulators. intros Hin.
    apply list_elem_of_fmap in Hin as ([p' slot] & Hp' & Hin).
    apply list_elem_of_fmap in Hin as ([k' [p'' slot']] & [= <- <-] & Hin).
    apply Hobj in Hin as [[name Hlive] _]. simpl in Hp'. subst p'.
    pose proof (Hfresh (objects st)) as Hf. fold p in Hf.
    congruence. }
  pose proof (ProcessBlock_loops_push k p idx
                (reset_column new_column k header st).2) as Hperm.
  assert (ProcessBlock_loops (reset_column new_column k header st).2
          = ProcessBlock_loops st) as Hsame by done.
  assert (∀ k', indices_of k' (reset_column new_column k header st).2
                = indices_of k' st) as Hsamei by by intros [].
  rewrite Hsame, Hsamei in Hperm.
  split.
  - unfold accumulators. rewrite Hperm. simpl. by constructor.
  - intros k' p' slot' Hin. rewrite Hperm in Hin. rewrite Hob.
    destruct (indices_of_push_length k k' p idx
                (reset_column new_column k header st).2) as [Hle Heq].
    rewrite !Hsamei in Hle, Heq.
    apply elem_of_cons in Hin as [[= -> -> ->]|Hin].
    + split; [|lia]. exists header. by rewrite lookup_insert_eq.
    + assert (p' ≠ p) as Hne.
      { intros ->. apply Hp. unfold accumulators.
        apply list_elem_of_fmap. exists (p, slot'). split; [done|].
        apply list_elem_of_fmap. by exists (k', (p, slot')). }
      apply Hobj in Hin as [Hlive Hslot].
      split; [by rewrite lookup_insert_ne|lia].
Qed.

Lemma setup_loop_well_formed k (m : gmap string nat) names st st' :
  fresh_allocator new_column →
  NoDup names →
  (∀ name, name ∈ names → column_map_ st !! name = None) →
  well_formed st →
  setup_loop k m names st = Ok st' →
  well_formed st' ∧
  ∀ name, column_map_ st' !! name = None ↔
          column_map_ st !! name = None ∧ name ∉ names.
Proof.
  intros Hfresh. revert st.
  induction names as [|header rest IH]; intros st Hnd Hnone Hwf.
  - intros [= <-]. split; [done|]. intros name.
    split; [intros H; split; [done|apply not_elem_of_nil]|by intros [? _]].
  - rewrite setup_loop_cons. destruct (m !! header) as [idx|]; [|done].
    apply NoDup_cons in Hnd as [Hnotin Hnd].
    destruct (iteration_well_formed k header idx st Hfresh) as [Hwf1 Hcm1];
      [apply Hnone; by left|done|].
    intros Hloop. apply IH in Hloop as [Hwf' Hcm']; [|done| |done].
    + split; [done|]. intros name. rewrite Hcm', Hcm1.
      rewrite lookup_insert_None, not_elem_of_cons. intuition congruence.
    + intros name Hin. rewrite Hcm1. rewrite lookup_insert_ne.
      * apply Hnone. by right.
      * intros ->. done.
Qed.

Lemma empty_store_well_formed : well_formed (@empty_store float).
Proof.
  split; [apply NoDup_nil_2|]. intros k p slot Hin.
  by apply elem_of_nil in Hin.
Qed.

(** Without a repeated name, [SetupColumns] builds a well-formed store. *)
Lemma SetupColumns_well_formed header_file config st :
  fresh_allocator new_column →
  NoDup (configured_names config) →
  SetupColumns header_file config empty_store = Ok st →
  well_formed st.
Proof.
  intros Hfresh Hnd. unfold SetupColumns.
  destruct (ReadFile header_file) as [contents|]; [|done].
  unfold configured_names in Hnd.
  apply NoDup_app in Hnd as (HndB & HBR & Hnd).
  apply NoDup_app in Hnd as (HndR & HRS & HndS).
  destruct (setup_loop BinnedFloat _ _ _) as [st1|] eqn:H1; [|done].
  destruct (setup_loop RawFloat _ _ _) as [st2|] eqn:H2; [|done].
  intros H3.
  apply setup_loop_well_formed in H1 as [Hwf1 Hcm1];
    [|done|done|done|apply empty_store_well_formed].
  apply setup_loop_well_formed in H2 as [Hwf2 Hcm2]; [|done|done| |done].
  - apply setup_loop_well_formed in H3 as [Hwf3 _]; [done|done|done| |done].
    intros name Hin. apply Hcm2. split.
    + apply Hcm1. split; [done|]. intros HB.
      apply (HBR name HB). apply elem_of_app. by right.
    + intros HR. by apply (HRS name HR).
  - intros name Hin. apply Hcm1. split; [done|]. intros HB.
    apply (HBR name HB). apply elem_of_app. by left.
Qed.

End SetupColumns_facts.

(** ** Two resolutions *)

(** Whether a loop succeeds, and the name it dies on, depend on the map
    and on the names only. *)
Lemma setup_loop_outcome {float : Type}
    (new_column1 new_column2 : gmap addr (Column float) → addr)
    k (m : gmap string nat) names (st1 st2 : TSVDataStore float) :
  match setup_loop new_column1 k m names st1,
        setup_loop new_column2 k m names st2 with
  | Ok _, Ok _ => True
  | Died e1, Died e2 => ∃ name, e1 = FailedToFind name ∧ e2 = FailedToFind name
  | _, _ => False
  end.
Proof.
  revert st1 st2. induction names as [|header rest IH]; intros st1 st2.
  - done.
  - rewrite !setup_loop_cons. destruct (m !! header); [apply IH|].
    by exists header.
Qed.

Lemma SetupColumns_outcome {float : Type}
    (ReadFile1 ReadFile2 : string → option string)
    (split : string → list string) (TrimWhiteSpace : string → string)
    (new_column1 new_column2 : gmap addr (Column float) → addr)
    (header_file1 header_file2 : string) (config : TSVDataConfig)
    (st1 st2 : TSVDataStore float) :
  ReadFile1 header_file1 = ReadFile2 header_file2 →
  match SetupColumns ReadFile1 split TrimWhiteSpace new_column1
          header_file1 config st1,
        SetupColumns ReadFile2 split TrimWhiteSpace new_column2
          header_file2 config st2 with
  | Ok _, Ok _ => True
  | Died e1, Died e2 =>
      (e1 = HeaderUnreadable header_file1 ∧ e2 = HeaderUnreadable header_file2) ∨
      (∃ name, e1 = FailedToFind name ∧ e2 = FailedToFind name)
  | _, _ => False
  end.
Proof.
  intros Hsame. unfold SetupColumns. rewrite <- Hsame.
  destruct (ReadFile1 header_file1) as [contents|]; [|by left].
  set (m := index_headers TrimWhiteSpace 0 (split contents) ∅).
  pose proof (setup_loop_outcome new_column1 new_column2 BinnedFloat m
                (binned_float_column config) st1 st2) as HB.
  destruct (setup_loop new_column1 BinnedFloat m _ st1) as [st1'|];
    destruct (setup_loop new_column2 BinnedFloat m _ st2) as [st2'|];
    try done; [|by right].
  pose proof (setup_loop_outcome new_column1 new_column2 RawFloat m
                (raw_float_column config) st1' st2') as HR.
  destruct (setup_loop new_column1 RawFloat m _ st1') as [st1''|];
    destruct (setup_loop new_column2 RawFloat m _ st2') as [st2''|];
    try done; [|by right].
  pose proof (setup_loop_outcome new_column1 new_column2 StringKind m
                (string_column config) st1'' st2'') as HS.
  destruct (setup_loop new_column1 StringKind m _ st1'');
    destruct (setup_loop new_column2 StringKind m _ st2'');
    try done. by right.
Qed.
(** * Calls on columns *)

Section Calls.

Context {float : Type}.

Implicit Types (h : gmap addr (Column float)) (t : Task float).
Implicit Types (pl : ThreadPool float).

(** Calls on different columns commute. *)
Lemma call_on_column_commute t1 t2 h :
  target t1 ≠ target t2 →
  call_on_column t1 (call_on_column t2 h)
    = call_on_column t2 (call_on_column t1 h).
Proof.
  destruct t1, t2; simpl; intros Hne; try done;
    apply alter_alter_ne; congruence.
Qed.

Lemma call_on_column_dom t h : dom (call_on_column t h) = dom h.
Proof. destruct t; simpl; [done| |]; apply dom_alter_L. Qed.

Lemma done_effects_dom pl h : dom (done_effects pl h) = dom h.
Proof.
  revert h. induction pl as [|e pl IH]; intros h; [done|].
  unfold done_effects in *. simpl. rewrite IH.
  destruct (decide _); [apply call_on_column_dom|done].
Qed.

Lemma fold_block_dom loops h (block : TSVBlock float) :
  dom (fold_block loops h block) = dom h.
Proof.
  revert h. induction loops as [|it loops IH]; intros h; [done|].
  unfold fold_block in *. simpl. rewrite IH. unfold fold_column.
  destruct (bound_column _ _ _); [apply dom_alter_L|done].
Qed.

Lemma fold_blocks_dom loops h (bs : list (TSVBlock float)) :
  dom (fold_blocks loops h bs) = dom h.
Proof.
  revert h. induction bs as [|b bs IH]; intros h; [done|].
  unfold fold_blocks in *. simpl. rewrite IH. apply fold_block_dom.
Qed.

Lemma finalize_all_dom ps h : dom (finalize_all ps h) = dom h.
Proof.
  revert h. induction ps as [|p ps IH]; intros h; [done|].
  unfold finalize_all in *. simpl. rewrite IH. apply dom_alter_L.
Qed.

(** *** The effects of a pool *)

Lemma done_effects_cons e pl h :
  done_effects (e :: pl) h =
    done_effects pl (if decide (e.2 = Finished) then call_on_column e.1 h else h).
Proof. done. Qed.

Lemma done_effects_enqueue pl t h :
  done_effects (pl ++ [(t, Queued)]) h = done_effects pl h.
Proof. unfold done_effects. by rewrite foldl_app. Qed.

Lemma done_effects_start pl q t h :
  pl !! q = Some (t, Queued) →
  done_effects (<[q := (t, Running)]> pl) h = done_effects pl h.
Proof.
  unfold done_effects.
  revert q h. induction pl as [|e pl IH]; intros q h Hq; [done|].
  destruct q as [|q]; simpl in *.
  - by injection Hq as ->.
  - by apply IH.
Qed.

Lemma done_effects_past t pl h :
  (∀ e, e ∈ pl → target e.1 ≠ target t) →
  done_effects pl (call_on_column t h) = call_on_column t (done_effects pl h).
Proof.
  revert h. induction pl as [|e pl IH]; intros h Hne; [done|].
  rewrite !done_effects_cons.
  assert (∀ e', e' ∈ pl → target e'.1 ≠ target t) as Hrest
    by (intros e' Hin; apply Hne; by right).
  destruct (decide (e.2 = Finished)); [|by apply IH].
  rewrite call_on_column_commute; [by apply IH|].
  apply Hne. by left.
Qed.

(** When a task ends, its call adds to the effects of the pool: the
    other tasks of the pool work on other columns. *)
Lemma done_effects_end pl q t h :
  pl !! q = Some (t, Running) →
  NoDup ((λ e, target e.1) <$> pl) →
  done_effects (<[q := (t, Finished)]> pl) h
    = call_on_column t (done_effects pl h).
Proof.
  revert q h. induction pl as [|e pl IH]; intros q h Hq Hnd; [done|].
  rewrite fmap_cons in Hnd. apply NoDup_cons in Hnd as [Hnotin Hnd].
  destruct q as [|q].
  - injection Hq as ->. simpl in Hnotin.
    change (<[0:=(t, Finished)]> ((t, Running) :: pl))
      with ((t, Finished) :: pl).
    rewrite !done_effects_cons. simpl.
    apply done_effects_past. intros e Hin Heq. apply Hnotin.
    apply list_elem_of_fmap. by exists e.
  - change (<[S q:=(t, Finished)]> (e :: pl))
      with (e :: <[q:=(t, Finished)]> pl).
    rewrite !done_effects_cons. by apply IH.
Qed.

Lemma all_finished_Forall pl :
  all_finished pl = true ↔ Forall (λ e, e.2 = Finished) pl.
Proof.
  unfold all_finished. induction pl as [|e pl IH]; simpl.
  - split; [constructor|done].
  - rewrite andb_true_iff, bool_decide_eq_true, Forall_cons, IH. done.
Qed.

Lemma all_finished_lookup pl q e :
  all_finished pl = true → pl !! q = Some e → e.2 = Finished.
Proof.
  rewrite all_finished_Forall, Forall_lookup. intros H Hq. by eapply H.
Qed.

Lemma done_effects_all_finished pl h :
  all_finished pl = true →
  done_effects pl h = foldl (λ h e, call_on_column e.1 h) h pl.
Proof.
  rewrite all_finished_Forall. revert h.
  induction pl as [|e pl IH]; intros h Hall; [done|].
  apply Forall_cons in Hall as [He Hall].
  rewrite done_effects_cons. simpl. rewrite decide_True by done. by apply IH.
Qed.

(** A pool that is joined has done what the loops of [ProcessBlock] do
    one call after the other. *)
Lemma adds_of_joined i (block : TSVBlock float) past pl h :
  adds_of i block past pl →
  all_finished pl = true →
  done_effects pl h = fold_block past h block.
Proof.
  intros Hadds Hfin. rewrite done_effects_all_finished by done. clear Hfin.
  revert h. induction Hadds as [|it e past pl (v & Hv & He) _ IH]; intros h;
    [done|].
  unfold fold_block in *. simpl. rewrite IH. f_equal.
  unfold fold_column. by rewrite Hv, He.
Qed.

Lemma finalizes_of_joined past pl h :
  finalizes_of past pl →
  all_finished pl = true →
  done_effects pl h = finalize_all past h.
Proof.
  intros Hfs Hfin. rewrite done_effects_all_finished by done. clear Hfin.
  revert h. induction Hfs as [|p e past pl He _ IH]; intros h; [done|].
  unfold finalize_all in *. simpl. rewrite IH. by rewrite He.
Qed.

(** *** The columns the tasks of a pool work on *)

Lemma adds_of_targets i (block : TSVBlock float) past pl :
  adds_of i block past pl →
  (λ e, target e.1) <$> pl = Some <$> past.*2.*1.
Proof.
  induction 1 as [|it e past pl (v & _ & He) _ IH]; [done|].
  rewrite !fmap_cons, IH, He. done.
Qed.

Lemma finalizes_of_targets past pl :
  finalizes_of past pl → (λ e, target e.1) <$> pl = Some <$> past.
Proof.
  induction 1 as [|p e past pl He _ IH]; [done|].
  rewrite !fmap_cons, IH, He. done.
Qed.

(** No task of the pool is running on [p]. *)
Lemma busy_false pl p :
  (∀ q e, pl !! q = Some e → e.2 = Running → target e.1 ≠ Some p) →
  busy pl p = false.
Proof.
  intros H. unfold busy. apply not_true_is_false. intros Hex.
  apply existsb_exists in Hex as (e & Hin & He).
  apply bool_decide_eq_true in He as [Hrun Htgt].
  apply list_elem_of_In, list_elem_of_lookup in Hin as [q Hq].
  by eapply H.
Qed.

(** In a pool whose tasks work on distinct columns, the column of a
    task that has not started is not busy. *)
Lemma busy_false_queued pl q t p :
  NoDup ((λ e, target e.1) <$> pl) →
  pl !! q = Some (t, Queued) →
  target t = Some p →
  busy pl p = false.
Proof.
  intros Hnd Hq Ht. apply busy_false. intros q' e Hq' Hrun Htgt.
  assert (q = q') as <-.
  { apply (NoDup_lookup _ q q' (Some p) Hnd).
    - rewrite list_lookup_fmap, Hq. simpl. by rewrite Ht.
    - rewrite list_lookup_fmap, Hq'. simpl. by rewrite Htgt. }
  rewrite Hq in Hq'. injection Hq' as <-. done.
Qed.

(** The vectors of [Finalize] are those of [ProcessBlock], in another
    order. *)
Lemma Finalize_loops_accumulators (st : TSVDataStore float) :
  Finalize_loops st ≡ₚ accumulators st.
Proof.
  unfold Finalize_loops, accumulators, ProcessBlock_loops.
  rewrite !fmap_app, <- !list_fmap_compose.
  rewrite (Permutation_app_comm (_ <$> string_columns_ st)).
  done.
Qed.

(** *** The columns of the load that makes one call after the other *)

Lemma Column_Add_nothing (c : Column float) : Column_Add (Floats []) c = c.
Proof. destruct c. unfold Column_Add. simpl. by rewrite app_nil_r. Qed.

Lemma fold_column_alter (block : TSVBlock float) h it :
  fold_column block h it =
    alter (Column_Add (slice it.1 it.2.2 block)) it.2.1 h.
Proof.
  unfold fold_column, slice. destruct (bound_column _ _ _); [done|].
  simpl. symmetry. apply alter_id. intros c _. apply Column_Add_nothing.
Qed.

Lemma fold_block_lookup_other loops h (block : TSVBlock float) p :
  p ∉ loops.*2.*1 → fold_block loops h block !! p = h !! p.
Proof.
  revert h. induction loops as [|it loops IH]; intros h Hnotin; [done|].
  rewrite !fmap_cons in Hnotin. apply not_elem_of_cons in Hnotin as [Hne Hnotin].
  unfold fold_block in *. simpl. rewrite IH by done.
  rewrite fold_column_alter. by apply lookup_alter_ne.
Qed.

Lemma fold_block_lookup loops h (block : TSVBlock float) k p slot :
  NoDup loops.*2.*1 →
  (k, (p, slot)) ∈ loops →
  fold_block loops h block !! p = Column_Add (slice k slot block) <$> h !! p.
Proof.
  revert h. induction loops as [|it loops IH]; intros h Hnd Hin.
  - by apply elem_of_nil in Hin.
  - rewrite !fmap_cons in Hnd. apply NoDup_cons in Hnd as [Hnotin Hnd].
    change (fold_block (it :: loops) h block)
      with (fold_block loops (fold_column block h it) block).
    apply elem_of_cons in Hin as [<-|Hin].
    + rewrite fold_block_lookup_other by done.
      rewrite fold_column_alter. simpl. apply lookup_alter_eq.
    + rewrite IH by done. rewrite fold_column_alter.
      rewrite lookup_alter_ne; [done|]. intros Heq. apply Hnotin.
      rewrite Heq. apply list_elem_of_fmap. exists (p, slot). split; [done|].
      apply list_elem_of_fmap. by exists (k, (p, slot)).
Qed.

Lemma fold_blocks_lookup loops h (bs : list (TSVBlock float)) k p slot :
  NoDup loops.*2.*1 →
  (k, (p, slot)) ∈ loops →
  fold_blocks loops h bs !! p =
    (λ c, foldl (λ c block, Column_Add (slice k slot block) c) c bs) <$> h !! p.
Proof.
  intros Hnd Hin. revert h. induction bs as [|b bs IH]; intros h.
  - simpl. by destruct (h !! p).
  - change (fold_blocks loops h (b :: bs))
      with (fold_blocks loops (fold_block loops h b) bs).
    rewrite IH, (fold_block_lookup _ _ _ k p slot) by done.
    by destruct (h !! p).
Qed.

Lemma finalize_all_lookup_other ps h p :
  p ∉ ps → finalize_all ps h !! p = h !! p.
Proof.
  revert h. induction ps as [|p' ps IH]; intros h Hnotin; [done|].
  apply not_elem_of_cons in Hnotin as [Hne Hnotin].
  unfold finalize_all in *. simpl. rewrite IH by done.
  by apply lookup_alter_ne.
Qed.

Lemma finalize_all_lookup ps h p :
  NoDup ps → p ∈ ps → finalize_all ps h !! p = Column_Finalize <$> h !! p.
Proof.
  revert h. induction ps as [|p' ps IH]; intros h Hnd Hin.
  - by apply elem_of_nil in Hin.
  - apply NoDup_cons in Hnd as [Hnotin Hnd].
    change (finalize_all (p' :: ps) h)
      with (finalize_all ps (alter Column_Finalize p' h)).
    apply elem_of_cons in Hin as [->|Hin].
    + rewrite finalize_all_lookup_other by done. apply lookup_alter_eq.
    + rewrite IH by done. rewrite lookup_alter_ne; [done|]. by intros ->.
Qed.

(** Each column of a well-formed store ends up with the slices of its
    slot, block after block, and finalized once. *)
Lemma sequential_load_lookup new_TSVBlock tsvs (st : TSVDataStore float)
    k p slot :
  well_formed st →
  (k, (p, slot)) ∈ ProcessBlock_loops st →
  ∃ name, objects st !! p = Some (new_Column k name) ∧
    sequential_load new_TSVBlock tsvs st !! p =
      Some (Column_Finalize (feed k name slot (blocks_of new_TSVBlock st tsvs))).
Proof.
  intros [Hnd Hobj] Hin. destruct (Hobj _ _ _ Hin) as [[name Hname] _].
  exists name. split; [done|]. unfold sequential_load.
  rewrite finalize_all_lookup.
  - rewrite (fold_blocks_lookup _ _ _ k p slot), Hname by done. done.
  - by rewrite Finalize_loops_accumulators.
  - rewrite Finalize_loops_accumulators. unfold accumulators.
    apply list_elem_of_fmap. exists (p, slot). split; [done|].
    apply list_elem_of_fmap. by exists (k, (p, slot)).
Qed.

Lemma feed_fields k name slot (bs : list (TSVBlock float)) :
  col_kind (feed k name slot bs) = k ∧
  col_name (feed k name slot bs) = name ∧
  col_finalized (feed k name slot bs) = 0.
Proof.
  unfold feed. generalize (eq_refl (new_Column (float:=float) k name)).
  generalize (new_Column (float:=float) k name) at 1 3 4 5.
  intros c Hc.
  assert (col_kind c = k ∧ col_name c = name ∧ col_finalized c = 0) as Hinv
    by by rewrite Hc.
  clear Hc. revert c Hinv. induction bs as [|b bs IH]; intros c Hinv; [done|].
  simpl. apply IH. by destruct (slice k slot b).
Qed.

(** A numeric column has the rows of its slot, file after file, and no
    string. *)
Lemma feed_floats k name slot (bs : list (TSVBlock float)) :
  k ≠ StringKind →
  col_floats (feed k name slot bs) =
    mjoin ((λ b, default [] (float_columns b !! slot)) <$> bs) ∧
  col_strings (feed k name slot bs) = [].
Proof.
  intros Hk. unfold feed.
  assert (∀ c, col_floats (foldl (λ c block, Column_Add (slice k slot block) c)
                             c bs)
               = col_floats c ++
                 mjoin ((λ b, default [] (float_columns b !! slot)) <$> bs) ∧
               col_strings (foldl (λ c block, Column_Add (slice k slot block) c)
                              c bs) = col_strings c) as H.
  { induction bs as [|b bs IH]; intros c; simpl; [by rewrite app_nil_r|].
    destruct (IH (Column_Add (slice k slot b) c)) as [-> ->].
    unfold slice, bound_column.
    destruct k; [| |done];
      destruct (float_columns b !! slot); simpl; by rewrite <- ?app_assoc. }
  destruct (H (new_Column k name)) as [-> ->]. done.
Qed.

(** A string column has the rows of its slot, file after file, and no
    number. *)
Lemma feed_strings name slot (bs : list (TSVBlock float)) :
  col_strings (feed StringKind name slot bs) =
    mjoin ((λ b, default [] (string_columns b !! slot)) <$> bs) ∧
  col_floats (feed StringKind name slot bs) = [].
Proof.
  unfold feed.
  assert (∀ c, col_strings
                 (foldl (λ c block, Column_Add (slice StringKind slot block) c)
                    c bs)
               = col_strings c ++
                 mjoin ((λ b, default [] (string_columns b !! slot)) <$> bs) ∧
               col_floats
                 (foldl (λ c block, Column_Add (slice StringKind slot block) c)
                    c bs) = col_floats c) as H.
  { induction bs as [|b bs IH]; intros c; simpl; [by rewrite app_nil_r|].
    destruct (IH (Column_Add (slice StringKind slot b) c)) as [-> ->].
    unfold slice, bound_column.
    destruct (string_columns b !! slot); simpl;
      by rewrite <- ?app_assoc, ?app_nil_r. }
  destruct (H (new_Column StringKind name)) as [-> ->]. done.
Qed.

End Calls.
(** * Traces *)

Section Traces.

Context {float : Type}.

Implicit Types (tr : list Event) (lp : ThreadPool float).

Lemma occurrences_snoc e tr e' :
  occurrences e (tr ++ [e']) =
    occurrences e tr + (if decide (e' = e) then 1 else 0).
Proof.
  unfold occurrences. rewrite filter_app, length_app. f_equal.
  rewrite filter_cons. by destruct (decide (e' = e)).
Qed.

Lemma occurrences_app e tr1 tr2 :
  occurrences e (tr1 ++ tr2) = occurrences e tr1 + occurrences e tr2.
Proof. unfold occurrences. by rewrite filter_app, length_app. Qed.

Lemma occurrences_none e tr : e ∉ tr → occurrences e tr = 0.
Proof.
  intros Hnot. unfold occurrences.
  induction tr as [|e' tr IH]; [done|].
  apply not_elem_of_cons in Hnot as [Hne Hnot].
  rewrite filter_cons, decide_False by done. by apply IH.
Qed.

Lemma occurrences_elem_of e tr : 0 < occurrences e tr → e ∈ tr.
Proof.
  intros Hpos. destruct (decide (e ∈ tr)) as [|Hnot]; [done|].
  rewrite occurrences_none in Hpos by done. lia.
Qed.

(** Counting the tasks of a pool. *)
Lemma count_enqueue (P : Task float * Status → Prop)
    `{!∀ e, Decision (P e)} lp e :
  ¬ P e → length (filter P (lp ++ [e])) = length (filter P lp).
Proof.
  intros Hn. rewrite filter_app, length_app, filter_cons, decide_False by done.
  simpl. lia.
Qed.

Lemma count_insert (P : Task float * Status → Prop)
    `{!∀ e, Decision (P e)} lp n e e' :
  lp !! n = Some e →
  length (filter P (<[n := e']> lp)) + (if decide (P e) then 1 else 0) =
  length (filter P lp) + (if decide (P e') then 1 else 0).
Proof.
  revert n. induction lp as [|e0 lp IH]; intros n Hn; [done|].
  destruct n as [|n]; simpl in *.
  - injection Hn as ->. rewrite !filter_cons.
    destruct (decide (P e)), (decide (P e')); simpl; lia.
  - rewrite !filter_cons. specialize (IH n Hn).
    destruct (decide (P e0)); simpl; lia.
Qed.

Lemma files_bound_snoc (files : nat) tr e :
  (∀ e' i, e' ∈ tr → file_of e' = Some i → i < files) →
  (∀ i, file_of e = Some i → i < files) →
  ∀ e' i, e' ∈ tr ++ [e] → file_of e' = Some i → i < files.
Proof.
  intros Htr He e' i Hin Hfile. apply elem_of_app in Hin as [Hin|Hin].
  - by eapply Htr.
  - apply list_elem_of_singleton in Hin. subst e'. by apply He.
Qed.

(** *** While blocks are folded *)

Lemma accepts_complete_app files accs tr tr' :
  accepts_complete files accs tr → accepts_complete files accs (tr ++ tr').
Proof. intros H i q Hi Hq. apply elem_of_app. left. by apply H. Qed.

Lemma folding_log lp tr e :
  ¬ is_finish e →
  (∀ i q, e ≠ Started (Accept i q)) →
  folding lp tr → folding lp (tr ++ [e]).
Proof.
  intros Hfin Hacc (F1 & F2 & F3). split; [|split].
  - apply Forall_app. split; [done|]. by constructor.
  - intros i q Hin. apply elem_of_app in Hin as [Hin|Hin].
    + destruct (F2 i q Hin) as [Hend|Hrun]; [|by right].
      left. apply elem_of_app. by left.
    + apply list_elem_of_singleton in Hin. by destruct (Hacc i q).
  - intros n t Hn. apply elem_of_app. left. by eapply F3.
Qed.

Lemma folding_enqueue lp tr t :
  folding lp tr → folding (lp ++ [(t, Queued)]) tr.
Proof.
  intros (F1 & F2 & F3). split; [done|]. split.
  - intros i q Hin. destruct (F2 i q Hin) as [Hend|(n & v & Hn)]; [by left|].
    right. exists n, v. by apply lookup_app_l_Some.
  - intros n t' Hn. apply lookup_app_Some in Hn as [Hn|[_ Hn]]; [by eapply F3|].
    by destruct (n - length lp); simplify_eq/=.
Qed.

Lemma folding_start lp tr n i q v :
  lp !! n = Some (Add i q v, Queued) →
  folding lp tr →
  folding (<[n := (Add i q v, Running)]> lp) (tr ++ [Started (Accept i q)]).
Proof.
  intros Hn (F1 & F2 & F3).
  assert (n < length lp) as Hlt by by eapply lookup_lt_Some.
  split; [|split].
  - apply Forall_app. split; [done|]. constructor; [|done]. by intros [].
  - intros i' q' Hin. apply elem_of_app in Hin as [Hin|Hin].
    + destruct (F2 i' q' Hin) as [Hend|(n' & v' & Hn')].
      * left. apply elem_of_app. by left.
      * right. exists n', v'. rewrite list_lookup_insert_ne; [done|].
        intros ->. congruence.
    + apply list_elem_of_singleton in Hin. injection Hin as -> ->.
      right. exists n, v. by rewrite list_lookup_insert_eq.
  - intros n' t Hn'.
    apply list_lookup_insert_Some in Hn' as [(_ & [= _] & _)|[_ Hn']].
    apply elem_of_app. left. by eapply F3.
Qed.

Lemma folding_end lp tr n i q v :
  lp !! n = Some (Add i q v, Running) →
  folding lp tr →
  folding (<[n := (Add i q v, Finished)]> lp) (tr ++ [Ended (Accept i q)]).
Proof.
  intros Hn (F1 & F2 & F3).
  assert (n < length lp) as Hlt by by eapply lookup_lt_Some.
  split; [|split].
  - apply Forall_app. split; [done|]. constructor; [|done]. by intros [].
  - intros i' q' Hin. apply elem_of_app in Hin as [Hin|Hin].
    + destruct (F2 i' q' Hin) as [Hend|(n' & v' & Hn')].
      * left. apply elem_of_app. by left.
      * destruct (decide (n' = n)) as [->|Hne].
        -- left. rewrite Hn in Hn'. injection Hn' as -> -> ->.
           apply elem_of_app. right. by left.
        -- right. exists n', v'. by rewrite list_lookup_insert_ne.
    + apply list_elem_of_singleton in Hin. done.
  - intros n' t Hn'.
    apply list_lookup_insert_Some in Hn' as [(_ & [= <-] & _)|[_ Hn']].
    + apply elem_of_app. right. by left.
    + apply elem_of_app. left. by eapply F3.
Qed.

(** A pool that is joined leaves no [Add] running. *)
Lemma folding_joined lp tr :
  all_finished lp = true → folding lp tr → accepts_ended tr.
Proof.
  intros Hfin (_ & F2 & _) i q Hin.
  destruct (F2 i q Hin) as [Hend|(n & v & Hn)]; [done|].
  by pose proof (all_finished_lookup _ _ _ Hfin Hn).
Qed.

Lemma folding_new_pool lp tr :
  all_finished lp = true → folding lp tr → folding (float:=float) [] tr.
Proof.
  intros Hfin Hf. pose proof (folding_joined _ _ Hfin Hf) as Hended.
  destruct Hf as (F1 & _ & _). split; [done|]. split; [|done].
  intros i q Hin. left. by apply Hended.
Qed.

(** *** While columns are finalized *)

Lemma finalizing_new_pool lp tr :
  all_finished lp = true → folding lp tr → finalizing (float:=float) [] tr.
Proof.
  intros Hfin Hf. split; [by eapply folding_joined|].
  destruct Hf as (F1 & _ & _). split.
  - intros p. simpl.
    split; apply occurrences_none; intros Hin;
      by apply (proj1 (Forall_forall _ _) F1) in Hin.
  - exists tr, []. by rewrite app_nil_r.
Qed.

Lemma finalizing_log lp tr e :
  ¬ is_accept e →
  (∀ p, e ≠ Started (Finish p)) → (∀ p, e ≠ Ended (Finish p)) →
  finalizing lp tr → finalizing lp (tr ++ [e]).
Proof.
  intros Ha Hs He (Hended & Hcount & pre & post & -> & Hpre & Hpost).
  split; [|split].
  - intros i q Hin. apply elem_of_app in Hin as [Hin|Hin].
    + apply elem_of_app. left. by apply Hended.
    + apply list_elem_of_singleton in Hin. subst e. by destruct Ha.
  - intros p. rewrite !occurrences_snoc.
    rewrite !decide_False; [|apply He|apply Hs].
    rewrite !Nat.add_0_r. apply Hcount.
  - exists pre, (post ++ [e]). rewrite app_assoc. split; [done|].
    split; [done|]. apply Forall_app. split; [done|]. by constructor.
Qed.

Lemma finalizing_enqueue lp tr t :
  finalizing lp tr → finalizing (lp ++ [(t, Queued)]) tr.
Proof.
  intros (Hended & Hcount & Hparts). split; [done|]. split; [|done].
  intros p.
  rewrite !count_enqueue; [done|by intros [_ ?]|by intros [_ ?]].
Qed.

Lemma finalizing_start lp tr n p :
  lp !! n = Some (FinalizeColumn p, Queued) →
  finalizing lp tr →
  finalizing (<[n := (FinalizeColumn p, Running)]> lp)
    (tr ++ [Started (Finish p)]).
Proof.
  intros Hn (Hended & Hcount & pre & post & -> & Hpre & Hpost).
  split; [|split].
  - intros i q Hin. apply elem_of_app in Hin as [Hin|Hin].
    + apply elem_of_app. left. by apply Hended.
    + by apply list_elem_of_singleton in Hin.
  - intros p'. rewrite !occurrences_snoc.
    destruct (Hcount p') as [Hs He].
    pose proof (count_insert (started_on p') lp n _
                  (FinalizeColumn p, Running) Hn) as Cs.
    pose proof (count_insert (ended_on p') lp n _
                  (FinalizeColumn p, Running) Hn) as Ce.
    rewrite decide_False in Cs by (by intros [_ ?]).
    rewrite decide_False in Ce by (by intros [_ ?]).
    rewrite (decide_False (P := ended_on _ _)) in Ce by (by intros [_ ?]).
    rewrite (decide_False (P := Started _ = Ended _)) by done.
    destruct (decide (p = p')) as [->|Hne].
    + rewrite decide_True by done.
      rewrite (decide_True (P := started_on _ _)) in Cs by done. lia.
    + rewrite decide_False by congruence.
      rewrite (decide_False (P := started_on _ _)) in Cs
        by (intros [Ht _]; simpl in Ht; congruence).
      lia.
  - exists pre, (post ++ [Started (Finish p)]). rewrite app_assoc.
    split; [done|]. split; [done|].
    apply Forall_app. split; [done|]. constructor; [|done]. by intros [].
Qed.

Lemma finalizing_end lp tr n p :
  lp !! n = Some (FinalizeColumn p, Running) →
  finalizing lp tr →
  finalizing (<[n := (FinalizeColumn p, Finished)]> lp)
    (tr ++ [Ended (Finish p)]).
Proof.
  intros Hn (Hended & Hcount & pre & post & -> & Hpre & Hpost).
  split; [|split].
  - intros i q Hin. apply elem_of_app in Hin as [Hin|Hin].
    + apply elem_of_app. left. by apply Hended.
    + by apply list_elem_of_singleton in Hin.
  - intros p'. rewrite !occurrences_snoc.
    destruct (Hcount p') as [Hs He].
    pose proof (count_insert (started_on p') lp n _
                  (FinalizeColumn p, Finished) Hn) as Cs.
    pose proof (count_insert (ended_on p') lp n _
                  (FinalizeColumn p, Finished) Hn) as Ce.
    rewrite decide_False in Ce by (by intros [_ ?]).
    rewrite (decide_False (P := Ended _ = Started _)) by done.
    destruct (decide (p = p')) as [->|Hne].
    + rewrite decide_True by done.
      rewrite !(decide_True (P := started_on _ _)) in Cs by done.
      rewrite (decide_True (P := ended_on _ _)) in Ce by done. lia.
    + rewrite decide_False by congruence.
      rewrite !(decide_False (P := started_on _ _)) in Cs
        by (intros [Ht _]; simpl in Ht; congruence).
      rewrite (decide_False (P := ended_on _ _)) in Ce
        by (intros [Ht _]; simpl in Ht; congruence).
      lia.
  - exists pre, (post ++ [Ended (Finish p)]). rewrite app_assoc.
    split; [done|]. split; [done|].
    apply Forall_app. split; [done|]. constructor; [|done]. by intros [].
Qed.




(** In a pool whose tasks work on distinct columns, at most one task
    works on a given column. *)
Lemma count_at_most_one (P : addr → Task float * Status → Prop)
    `{!∀ p e, Decision (P p e)} lp p :
  (∀ e, P p e → target e.1 = Some p) →
  NoDup ((λ e, target e.1) <$> lp) →
  length (filter (P p) lp) ≤ 1.
Proof.
  intros Htgt. induction lp as [|e lp IH]; intros Hnd; [simpl; lia|].
  rewrite fmap_cons in Hnd. apply NoDup_cons in Hnd as [Hnotin Hnd].
  rewrite filter_cons. destruct (decide (P p e)) as [HP|HP]; [|by apply IH].
  simpl. assert (filter (P p) lp = []) as ->; [|simpl; lia].
  destruct (filter (P p) lp) as [|e' rest] eqn:E; [done|]. exfalso.
  assert (e' ∈ filter (P p) lp) as Hin by (rewrite E; by left).
  apply list_elem_of_filter in Hin as [HP' Hin]. apply Hnotin.
  apply list_elem_of_fmap. exists e'. split; [|done].
  rewrite (Htgt _ HP), (Htgt _ HP'). done.
Qed.

Lemma count_at_least_one (P : Task float * Status → Prop)
    `{!∀ e, Decision (P e)} lp n e :
  lp !! n = Some e → P e → 1 ≤ length (filter P lp).
Proof.
  intros Hn HP. apply list_elem_of_lookup_2 in Hn.
  assert (e ∈ filter P lp) as Hin by by apply list_elem_of_filter.
  destruct (filter P lp); [by apply elem_of_nil in Hin|simpl; lia].
Qed.

End Traces.
(** * The load pipeline *)

Section LoadTSVs_facts.

Context {float : Type}.
Variable FileExists : string → bool.
Variable new_TSVBlock : string → list nat → list nat → option (TSVBlock float).
Variable tsvs : list string.

Local Notation "s ~~> s'" := (step FileExists new_TSVBlock tsvs s s')
  (at level 70, no associativity).
Local Notation "s ~~>* s'" := (rtc (step FileExists new_TSVBlock tsvs) s s')
  (at level 70, no associativity).

(** ** The shape of a step *)

(** Case analysis on [H : s ~~> s']: one goal per kind of step, with
    [s'] replaced by the state the step builds. *)
Ltac step_cases H :=
  let m := fresh "m" in
  destruct H as [m H];
  destruct m as [|[] ?n|[] ?n|[] ?n]; simpl in H;
  [ unfold main_step in H
  | unfold worker_start in H | unfold worker_start in H
  | unfold worker_store in H | unfold worker_store in H
  | unfold worker_end in H | unfold worker_end in H ];
  repeat match type of H with
         | context [decide ?P] => destruct (decide P)
         | context [match ?x with _ => _ end] => destruct x eqn:?
         end;
  try discriminate H;
  apply (inj Some) in H; subst; cbn [get_pool] in *.

(** ** What no step changes *)

Lemma same_layout_refl (st : TSVDataStore float) : same_layout st st.
Proof. by repeat split. Qed.

Lemma same_layout_trans (st1 st2 st3 : TSVDataStore float) :
  same_layout st1 st2 → same_layout st2 st3 → same_layout st1 st3.
Proof.
  intros (?&?&?&?&?&?) (?&?&?&?&?&?). repeat split; congruence.
Qed.

Lemma task_effect_layout t (s : State float) :
  same_layout (this s) (this (task_effect t s)).
Proof. destruct t; by repeat split. Qed.

Lemma task_effect_frame t (s : State float) :
  line (task_effect t s) = line s ∧
  pool (task_effect t s) = pool s ∧
  local_pool (task_effect t s) = local_pool s ∧
  trace (task_effect t s) = trace s.
Proof. by destruct t. Qed.

(** A step changes the contents of the columns at most: the vectors of
    [SetupColumns] stay as they are. *)
Lemma step_layout (s s' : State float) :
  s ~~> s' → same_layout (this s) (this s').
Proof.
  intros H. step_cases H; simpl; try apply same_layout_refl.
  all: apply task_effect_layout.
Qed.

Lemma steps_layout (s s' : State float) :
  s ~~>* s' → same_layout (this s) (this s').
Proof.
  induction 1 as [|s1 s2 s3 H12 _ IH]; [apply same_layout_refl|].
  eapply same_layout_trans; [by apply step_layout|done].
Qed.

Lemma same_layout_loops (st st' : TSVDataStore float) :
  same_layout st st' →
  ProcessBlock_loops st' = ProcessBlock_loops st ∧
  Finalize_loops st' = Finalize_loops st.
Proof.
  intros (?&Hb&Hr&Hs&?&?). unfold ProcessBlock_loops, Finalize_loops.
  by rewrite Hb, Hr, Hs.
Qed.

(** ** The order in which blocks are consumed *)

Lemma taken_app tr e :
  taken (tr ++ [e]) =
    taken tr ++ match e with Took i => [i] | _ => [] end.
Proof.
  unfold taken. rewrite omap_app. simpl. by destruct e.
Qed.

Lemma task_effect_blocks t (s : State float) :
  blocks (task_effect t s) = blocks s.
Proof. by destruct t. Qed.




(** ** Runs *)

(** A run under a schedule is a run. *)
Lemma run_steps ms (s s' : State float) :
  run FileExists new_TSVBlock tsvs ms s = Some s' → s ~~>* s'.
Proof.
  revert s. induction ms as [|m ms IH]; intros s; simpl.
  - intros [= <-]. apply rtc_refl.
  - destruct (exec FileExists new_TSVBlock tsvs m s) as [s1|] eqn:E; [|done].
    intros Hrun. eapply rtc_l; [by exists m|by apply IH].
Qed.



(** Once the process is gone or the function has returned, nothing
    happens. *)
Lemma stopped_no_step (s s' : State float) :
  alive (line s) = false → ¬ s ~~> s'.
Proof.
  intros Hstop H. step_cases H; simpl in *; congruence.
Qed.

Lemma stopped_no_steps (s s' : State float) :
  alive (line s) = false → s ~~>* s' → s' = s.
Proof.
  intros Hstop H. destruct H as [|s1 s2 s3 Hstep _]; [done|].
  by apply stopped_no_step in Hstep.
Qed.

Lemma Returned_dec (l : Line float) : {l = Returned} + {l ≠ Returned}.
Proof. destruct l; (by left) || (by right). Qed.

(** ** Every run ends *)

Lemma weight_app (pl1 pl2 : ThreadPool float) :
  weight (pl1 ++ pl2) = weight pl1 + weight pl2.
Proof.
  induction pl1 as [|e pl1 IH]; [done|]. simpl. rewrite IH. lia.
Qed.

Lemma weight_insert (pl : ThreadPool float) n t status status' :
  pl !! n = Some (t, status) →
  steps_left t status = S (steps_left t status') →
  S (weight (<[n := (t, status')]> pl)) = weight pl.
Proof.
  revert n. induction pl as [|e pl IH]; intros n Hn Hleft; [done|].
  destruct n as [|n]; simpl in *.
  - injection Hn as ->. simpl. rewrite Hleft. lia.
  - rewrite <- (IH n Hn Hleft). lia.
Qed.

Lemma weight_start (pl : ThreadPool float) n t :
  pl !! n = Some (t, Queued) →
  S (weight (<[n := (t, Running)]> pl)) = weight pl.
Proof. intros Hn. eapply weight_insert; [done|by destruct t]. Qed.

Lemma weight_store (pl : ThreadPool float) n tsv i :
  pl !! n = Some (LoadBlock tsv i, Running) →
  S (weight (<[n := (LoadBlock tsv i, Notifying)]> pl)) = weight pl.
Proof. intros Hn. by eapply weight_insert. Qed.

Lemma weight_end (pl : ThreadPool float) n t :
  pl !! n = Some (t, ends_from t) →
  S (weight (<[n := (t, Finished)]> pl)) = weight pl.
Proof. intros Hn. eapply weight_insert; [done|by destruct t]. Qed.

Lemma Finalize_loops_length (st : TSVDataStore float) :
  length (Finalize_loops st) = length (ProcessBlock_loops st).
Proof.
  unfold Finalize_loops, ProcessBlock_loops. rewrite !length_app, !length_fmap.
  lia.
Qed.

Lemma budget_alive files slots columns (l : Line float) :
  alive l = true → 0 < budget files slots columns l.
Proof. destruct l; simpl; try done; nia. Qed.

(** Every step uses up some of what is left to do: no run is infinite. *)
Lemma step_remaining (s s' : State float) :
  s ~~> s' → remaining tsvs s' < remaining tsvs s.
Proof.
  intros H. unfold remaining. step_cases H; simpl;
    rewrite ?Finalize_loops_length, ?weight_app, ?length_insert; simpl;
    try lia.
  - apply lookup_lt_Some in Heqo. lia.
  - apply lookup_lt_Some in Heqo.
    replace (length (blocks s) - i) with (S (length (blocks s) - S i)) by lia.
    simpl. lia.
  - apply lookup_ge_None in Heqo.
    replace (length (blocks s) - i) with 0 by lia. simpl. lia.
  - nia.
  - rewrite <- (weight_start _ _ _ Heqo). lia.
  - pose proof (budget_alive (length tsvs) (length (blocks s))
                  (length (ProcessBlock_loops (this s))) _ Heqb). lia.
  - rewrite <- (weight_start _ _ _ Heqo). lia.
  - pose proof (budget_alive (length tsvs) (length (blocks s))
                  (length (ProcessBlock_loops (this s))) _ Heqb). lia.
  - rewrite <- (weight_store _ _ _ _ Heqo). lia.
  - pose proof (budget_alive (length tsvs) (length (blocks s))
                  (length (ProcessBlock_loops (this s))) _ Heqb). lia.
  - rewrite <- (weight_store _ _ _ _ Heqo). lia.
  - pose proof (budget_alive (length tsvs) (length (blocks s))
                  (length (ProcessBlock_loops (this s))) _ Heqb). lia.
  - destruct (task_effect_frame t s) as (-> & -> & -> & _).
    destruct (same_layout_loops _ _ (task_effect_layout t s)) as [-> _].
    rewrite <- (weight_end _ _ _ Heqo), task_effect_blocks. lia.
  - destruct (task_effect_frame t s) as (-> & -> & -> & _).
    destruct (same_layout_loops _ _ (task_effect_layout t s)) as [-> _].
    rewrite <- (weight_end _ _ _ Heqo), task_effect_blocks. lia.
Qed.

(** A task that has not ended can take a step. *)
Lemma worker_can_step (s : State float) w n t st :
  alive (line s) = true →
  get_pool w s !! n = Some (t, st) →
  st ≠ Finished →
  (st = Notifying → target t = None) →
  ∃ s', s ~~> s'.
Proof.
  intros Halive Hn Hst Hcall.
  assert (∀ m s', exec FileExists new_TSVBlock tsvs m s = Some s' →
            ∃ s', s ~~> s') as Hmove
    by (intros m s' Hs'; exists s'; by exists m).
  destruct st; [| | |done].
  - apply (Hmove (WorkerStart w n)
             (if defined_start t s
              then log (Started (label t))
                     (with_pool w (<[n := (t, Running)]> (get_pool w s)) s)
              else with_line Undefined s)).
    simpl. unfold worker_start. rewrite Halive, Hn.
    by destruct (defined_start t s).
  - destruct t as [tsv i|i p v|p].
    + destruct (worker_store new_TSVBlock w n s) as [s'|] eqn:E;
        [by apply (Hmove (WorkerStore w n) s')|].
      unfold worker_store in E. rewrite Halive, Hn in E.
      by destruct (new_TSVBlock tsv _ _).
    + eapply (Hmove (WorkerEnd w n)). simpl. unfold worker_end.
      by rewrite Halive, Hn.
    + eapply (Hmove (WorkerEnd w n)). simpl. unfold worker_end.
      by rewrite Halive, Hn.
  - destruct t as [tsv i|i p v|p]; [|by specialize (Hcall eq_refl)..].
    eapply (Hmove (WorkerEnd w n)). simpl. unfold worker_end.
    by rewrite Halive, Hn.
Qed.

Lemma not_all_finished (pl : ThreadPool float) :
  all_finished pl = false →
  ∃ n t st, pl !! n = Some (t, st) ∧ st ≠ Finished.
Proof.
  induction pl as [|[t st] pl IH]; [done|]. unfold all_finished. simpl.
  intros H. apply andb_false_iff in H as [H|H].
  - apply bool_decide_eq_false in H. by exists 0, t, st.
  - destruct (IH H) as (n & t' & st' & Hn & Hst). by exists (S n), t', st'.
Qed.

(** The pool of [ProcessBlock] or of [Finalize] only ever holds calls
    on columns. *)
Lemma calls_only_insert (lp : ThreadPool float) n t st st' :
  lp !! n = Some (t, st) → st' ≠ Notifying →
  calls_only lp → calls_only (<[n := (t, st')]> lp).
Proof.
  intros Hn Hst Hlp q e Hq.
  apply list_lookup_insert_Some in Hq as [(-> & <- & _)|[_ Hq]]; [|eauto].
  split; [|done]. by destruct (Hlp _ _ Hn).
Qed.

Lemma calls_only_enqueue (lp : ThreadPool float) t :
  is_Some (target t) → calls_only lp → calls_only (lp ++ [(t, Queued)]).
Proof.
  intros Ht Hlp q e Hq.
  apply lookup_app_Some in Hq as [Hq|[_ Hq]]; [eauto|].
  destruct (q - length lp); simplify_eq/=. done.
Qed.

(** A call on a column ends from [Running]. *)
Lemma calls_end (lp : ThreadPool float) n t :
  calls_only lp → lp !! n = Some (t, ends_from t) → ends_from t = Running.
Proof. intros Hlp Hn. destruct (Hlp _ _ Hn) as [[p Hp] _]. by destruct t. Qed.

Lemma calls_only_step (s s' : State float) :
  calls_only (local_pool s) → s ~~> s' → calls_only (local_pool s').
Proof.
  intros Hlp H. step_cases H; simpl; try done;
    try (by apply calls_only_enqueue);
    try (by eapply calls_only_insert);
    try (by destruct (Hlp _ _ Heqo) as [[? [=]] _]).
  - destruct (task_effect_frame t s) as (_ & _ & -> & _). done.
  - destruct (task_effect_frame t s) as (_ & _ & -> & _).
    by eapply calls_only_insert.
Qed.

(** ** A load that goes well *)

Section Going_well.

(** The store as [SetupColumns] left it, here any well-formed store; a
    parser that honours the layout; files that exist. *)
Variable st0 : TSVDataStore float.
Hypothesis st0_well_formed : well_formed st0.
Hypothesis parser_honours_layout :
  ∀ tsv, tsv ∈ tsvs → ∃ block,
    new_TSVBlock tsv (float_column_indices_ st0) (string_column_indices_ st0)
      = Some block ∧
    length (float_columns block) = length (float_column_indices_ st0) ∧
    length (string_columns block) = length (string_column_indices_ st0).
Hypothesis files_exist : ∀ tsv, tsv ∈ tsvs → FileExists tsv = true.

Local Abbreviation Structure := (structure new_TSVBlock tsvs st0).
Local Abbreviation Slot := (slot_ok new_TSVBlock st0).
Local Abbreviation Block := (block_of new_TSVBlock st0).
Local Abbreviation Phase := (phase_ok new_TSVBlock tsvs st0).
Local Abbreviation Start := (at_line_59 tsvs st0).

Implicit Types (pl : ThreadPool float) (bs : list (option (TSVBlock float))).

(** The parser does not die on a file of the load. *)
Lemma parser_returns tsv :
  tsv ∈ tsvs →
  new_TSVBlock tsv (float_column_indices_ st0) (string_column_indices_ st0)
    = Some (Block tsv).
Proof.
  intros Hin. destruct (parser_honours_layout tsv Hin) as (block & Hb & _).
  unfold block_of. by rewrite Hb.
Qed.

Lemma block_layout tsv :
  tsv ∈ tsvs →
  length (float_columns (Block tsv)) = length (float_column_indices_ st0) ∧
  length (string_columns (Block tsv)) = length (string_column_indices_ st0).
Proof.
  intros Hin. destruct (parser_honours_layout tsv Hin) as (block & Hb & Hl).
  unfold block_of. by rewrite Hb.
Qed.

(** *** The slots of [blocks] *)

Lemma slot_ok_enqueue bs count pl t j tsv :
  Slot bs count pl j tsv → Slot bs count (pl ++ [(t, Queued)]) j tsv.
Proof.
  intros [(Hb & Hc & Hp)|[(Hb & Hc & st & Hp & Hst)|(Hb & Hc & st & Hp & Hst)]].
  - left. split; [done|]. split; [done|]. intros t' st' Hl.
    apply lookup_app_Some in Hl as [Hl|[_ Hl]]; [by eapply Hp|].
    destruct (j - length pl); simplify_eq/=. by intros [|].
  - right; left. split; [done|]. split; [done|]. exists st.
    split; [by apply lookup_app_l_Some|done].
  - right; right. split; [done|]. split; [done|]. exists st.
    split; [by apply lookup_app_l_Some|done].
Qed.

(** A task goes from one status to another, on the same side of the
    store of its block. *)
Lemma slot_ok_status bs count pl n t st st' j tsv :
  pl !! n = Some (t, st) →
  (has_stored st ↔ has_stored st') →
  Slot bs count pl j tsv →
  Slot bs count (<[n := (t, st')]> pl) j tsv.
Proof.
  intros Hn Hiff Hok.
  assert (n < length pl) as Hlt by by eapply lookup_lt_Some.
  destruct (decide (j = n)) as [->|Hne].
  - destruct Hok
      as [(Hb & Hc & Hp)|[(Hb & Hc & st1 & Hp & Hst)|(Hb & Hc & st1 & Hp & Hst)]].
    + left. split; [done|]. split; [done|]. intros t' st'' Hl.
      rewrite list_lookup_insert_eq in Hl by done. injection Hl as <- <-.
      rewrite <- Hiff. by eapply Hp.
    + right; left. split; [done|]. split; [done|]. exists st'.
      rewrite list_lookup_insert_eq by done.
      assert (t = LoadBlock tsv n ∧ st1 = st) as [-> ->] by (split; congruence).
      split; [done|]. by apply Hiff.
    + right; right. split; [done|]. split; [done|]. exists st'.
      rewrite list_lookup_insert_eq by done.
      assert (t = LoadBlock tsv n ∧ st1 = st) as [-> ->] by (split; congruence).
      split; [done|]. by apply Hiff.
  - unfold slot_ok. by rewrite !list_lookup_insert_ne.
Qed.

(** [LoadBlock] for file [n] stores its block in slot [n]. *)
Lemma slot_ok_store bs count pl n tsv j tsv' :
  length bs = length tsvs →
  tsvs !! n = Some tsv →
  pl !! n = Some (LoadBlock tsv n, Running) →
  tsvs !! j = Some tsv' →
  Slot bs count pl j tsv' →
  Slot (<[n := Some (Block tsv)]> bs) count
    (<[n := (LoadBlock tsv n, Notifying)]> pl) j tsv'.
Proof.
  intros Hlen Htsv Hn Hj Hok.
  assert (n < length bs) as Hlt by (rewrite Hlen; by eapply lookup_lt_Some).
  assert (n < length pl) as Hlt' by by eapply lookup_lt_Some.
  destruct (decide (j = n)) as [->|Hne].
  - assert (tsv' = tsv) as -> by congruence.
    destruct Hok
      as [(Hb & Hc & Hp)|[(Hb & Hc & st & Hp & [->| ->])
                         |(Hb & Hc & st & Hp & [->| ->])]];
      [|congruence..].
    right; left. rewrite !list_lookup_insert_eq by done.
    split; [done|]. split; [done|]. exists Notifying. split; [done|by left].
  - unfold slot_ok. by rewrite !list_lookup_insert_ne.
Qed.

(** The controlling thread takes the block of slot [i]. *)
Lemma slot_ok_take bs pl i j tsv :
  i < length bs →
  (∃ b, bs !! i = Some (Some b)) →
  Slot bs i pl j tsv →
  Slot (<[i := None]> bs) (S i) pl j tsv.
Proof.
  intros Hlt [b Hi] Hok. destruct (decide (j = i)) as [->|Hne].
  - destruct Hok as [(Hb & Hc & Hp)|[(Hb & Hc & Hp)|(Hb & Hc & Hp)]];
      [congruence| |lia].
    right; right. rewrite list_lookup_insert_eq by done. split; [done|].
    split; [lia|done].
  - unfold slot_ok. rewrite list_lookup_insert_ne by done.
    destruct Hok as [(Hb & Hc & Hp)|[(Hb & Hc & Hp)|(Hb & Hc & Hp)]].
    + left. split; [done|]. split; [lia|done].
    + right; left. split; [done|]. split; [lia|done].
    + right; right. split; [done|]. split; [lia|done].
Qed.

(** *** The pools of [ProcessBlock] and [Finalize] *)

Lemma adds_of_status i (block : TSVBlock float) past pl n t st st' :
  pl !! n = Some (t, st) →
  adds_of i block past pl →
  adds_of i block past (<[n := (t, st')]> pl).
Proof.
  intros Hn Hadds. unfold adds_of in *.
  rewrite <- (list_insert_id' past n (default (BinnedFloat, (0, 0)) (past !! n))).
  - apply Forall2_insert; [done|].
    destruct (past !! n) as [it|] eqn:Hit.
    + destruct (Forall2_lookup_lr _ _ _ _ _ _ Hadds Hit Hn) as (v & Hv & He).
      by exists v.
    + apply Forall2_length in Hadds. apply lookup_ge_None in Hit.
      apply lookup_lt_Some in Hn. lia.
  - intros Hlt. apply lookup_lt_is_Some in Hlt as [x ->]. done.
Qed.

Lemma finalizes_of_status past pl n t st st' :
  pl !! n = Some (t, st) →
  finalizes_of past pl →
  finalizes_of past (<[n := (t, st')]> pl).
Proof.
  intros Hn Hfs. unfold finalizes_of in *.
  rewrite <- (list_insert_id' past n (default 0 (past !! n))).
  - apply Forall2_insert; [done|].
    destruct (past !! n) as [p|] eqn:Hp.
    + by apply (Forall2_lookup_lr _ _ _ _ _ _ Hfs Hp Hn).
    + apply Forall2_length in Hfs. apply lookup_ge_None in Hp.
      apply lookup_lt_Some in Hn. lia.
  - intros Hlt. apply lookup_lt_is_Some in Hlt as [x ->]. done.
Qed.

Lemma adds_of_lookup i (block : TSVBlock float) past pl n t st :
  adds_of i block past pl →
  pl !! n = Some (t, st) →
  ∃ it v, past !! n = Some it ∧ t = Add i it.2.1 v ∧
          bound_column it.1 it.2.2 block = Some v.
Proof.
  intros Hadds Hn.
  destruct (Forall2_lookup_r _ _ _ _ _ Hadds Hn) as (it & Hit & v & Hv & He).
  by exists it, v.
Qed.

Lemma finalizes_of_lookup past pl n t st :
  finalizes_of past pl →
  pl !! n = Some (t, st) →
  past !! n = Some (default 0 (target t)) ∧ t = FinalizeColumn (default 0 (target t)).
Proof.
  intros Hfs Hn.
  destruct (Forall2_lookup_r _ _ _ _ _ Hfs Hn) as (p & Hp & He).
  simpl in He. subst t. done.
Qed.

Lemma adds_of_NoDup i (block : TSVBlock float) past todo pl :
  ProcessBlock_loops st0 = past ++ todo →
  adds_of i block past pl →
  NoDup ((λ e, target e.1) <$> pl).
Proof.
  intros HL Hadds. rewrite (adds_of_targets _ _ _ _ Hadds).
  apply (NoDup_fmap_2 Some).
  destruct st0_well_formed as [Hnd _]. unfold accumulators in Hnd.
  rewrite HL, !fmap_app in Hnd. by apply NoDup_app in Hnd as [? _].
Qed.

Lemma finalizes_of_NoDup past todo pl :
  Finalize_loops st0 = past ++ todo →
  finalizes_of past pl →
  NoDup ((λ e, target e.1) <$> pl).
Proof.
  intros HF Hfs. rewrite (finalizes_of_targets _ _ Hfs).
  apply (NoDup_fmap_2 Some).
  destruct st0_well_formed as [Hnd _].
  rewrite <- Finalize_loops_accumulators, HF in Hnd.
  by apply NoDup_app in Hnd as [? _].
Qed.

(** A block has a vector for every slot a loop of [ProcessBlock]
    reads. *)
Lemma bound_column_is_Some k p slot tsv :
  tsv ∈ tsvs →
  (k, (p, slot)) ∈ ProcessBlock_loops st0 →
  is_Some (bound_column k slot (Block tsv)).
Proof.
  intros Htsv Hin. destruct st0_well_formed as [_ Hobj].
  apply Hobj in Hin as [_ Hslot].
  destruct (block_layout tsv Htsv) as [Hf Hs].
  unfold bound_column.
  destruct k; simpl in Hslot; apply fmap_is_Some, lookup_lt_is_Some; lia.
Qed.

(** The columns of the vectors are alive in any heap with the objects
    of [st0]. *)
Lemma accumulator_alive (h : gmap addr (Column float)) p :
  dom h = dom (objects st0) →
  p ∈ accumulators st0 →
  is_Some (h !! p).
Proof.
  intros Hdom Hin. apply elem_of_dom. rewrite Hdom. apply elem_of_dom.
  destruct st0_well_formed as [_ Hobj]. unfold accumulators in Hin.
  apply list_elem_of_fmap in Hin as ([p' slot] & -> & Hin).
  apply list_elem_of_fmap in Hin as ([k [p'' slot']] & [= <- <-] & Hin).
  apply Hobj in Hin as [[name Hlive] _]. by eexists.
Qed.

(** *** The invariant *)

Lemma structure_start : Structure Start.
Proof.
  split; simpl.
  - apply same_layout_refl.
  - apply length_replicate.
  - done.
  - intros j e Hj. done.
  - intros j tsv Hj. left. split.
    + apply lookup_replicate_2. by eapply lookup_lt_Some.
    + split; [lia|done].
  - split; [lia|done].
  - intros n e Hn. done.
Qed.

Lemma blocks_of_lookup i tsv :
  tsvs !! i = Some tsv →
  blocks_of new_TSVBlock st0 tsvs !! i = Some (Block tsv).
Proof. intros H. unfold blocks_of. by rewrite list_lookup_fmap, H. Qed.

Lemma fold_blocks_snoc loops (h : gmap addr (Column float))
    (l : list (TSVBlock float)) (b : TSVBlock float) :
  fold_blocks loops h (l ++ [b]) = fold_block loops (fold_blocks loops h l) b.
Proof. unfold fold_blocks. by rewrite foldl_app. Qed.

Lemma structure_step (s s' : State float) :
  Structure s → s ~~> s' → Structure s'.
Proof.
  intros [Hlay Hbl Hpl Htk Hsl Hph Hcalls] H.
  pose proof (calls_only_step _ _ Hcalls H) as Hcalls'.
  pose proof (same_layout_loops _ _ Hlay) as [HL HF].
  step_cases H; simpl in *.
  - (* line 62: [LoadBlock] for file [i] is enqueued *)
    destruct Hph as (Hi & Hlp & Hobj).
    split; simpl; try done.
    + rewrite length_app. simpl. lia.
    + intros j e Hj. apply lookup_app_Some in Hj as [Hj|[Hge Hj]]; [eauto|].
      destruct (j - length (pool s)) eqn:E; [|done]. simpl in Hj.
      injection Hj as <-. exists s0. replace j with (length (pool s)) by lia.
      by rewrite Hpl.
    + intros j tsv Hj. by apply slot_ok_enqueue, Hsl.
    + split; [|done]. apply lookup_lt_Some in Heqo. lia.
  - (* line 61: the file is there *)
    rewrite files_exist in Heqb; [done|]. by eapply list_elem_of_lookup_2.
  - (* the first loop is over *)
    destruct Hph as (Hi & Hlp & Hobj). apply lookup_ge_None in Heqo.
    assert (i = length tsvs) as -> by lia.
    split; simpl; try done.
    split; [lia|]. by rewrite Hlp.
  - (* line 71: the block of file [i] is taken *)
    destruct Hph as (Hi & Hlp & Hobj).
    assert (i < length tsvs) as Hlt
      by (rewrite <- Hbl; by eapply lookup_lt_Some).
    destruct (lookup_lt_is_Some_2 tsvs i Hlt) as [tsv Htsv].
    assert (t = Block tsv) as ->.
    { destruct (Hsl i tsv Htsv) as [(Hb & _)|[(Hb & _)|(Hb & _)]]; congruence. }
    split; simpl; try done.
    + by rewrite length_insert.
    + intros j tsv' Hj. apply slot_ok_take; [by rewrite Hbl|by eauto|by auto].
    + exists tsv, []. rewrite HL. split; [done|]. split; [done|].
      split; [done|]. split; [constructor|done].
  - (* the second loop is over *)
    destruct Hph as (Hi & Hlp & Hobj). apply lookup_ge_None in Heqo.
    assert (i = length tsvs) as -> by lia.
    split; simpl; try done.
    exists []. rewrite HF. split; [done|]. split; [constructor|].
    rewrite Hobj, take_ge; [done|]. unfold blocks_of. by rewrite length_fmap.
  - (* the pool of [ProcessBlock] is joined *)
    destruct Hph as (tsv & past & Htsv & -> & Hloops & Hadds & Hobj).
    rewrite app_nil_r in Hloops. subst past.
    split; simpl; try done.
    split; [by eapply lookup_lt_Some|]. split; [done|].
    rewrite (take_S_r _ _ _ (blocks_of_lookup _ _ Htsv)), fold_blocks_snoc.
    rewrite Hobj. by eapply adds_of_joined.
  - (* an [Add] is enqueued *)
    destruct Hph as (tsv & past & Htsv & -> & Hloops & Hadds & Hobj).
    split; simpl; try done.
    exists tsv, (past ++ [(k, (n, n0))]). split; [done|]. split; [done|].
    split; [by rewrite <- app_assoc|]. split.
    + apply Forall2_app; [done|]. constructor; [|done]. by exists v.
    + by rewrite done_effects_enqueue.
  - (* the block has the slot *)
    destruct Hph as (tsv & past & Htsv & -> & Hloops & Hadds & Hobj).
    destruct (bound_column_is_Some k n n0 tsv) as [v Hv]; [| |congruence].
    + by eapply list_elem_of_lookup_2.
    + rewrite Hloops. apply elem_of_app. right. by left.
  - (* the pool of [Finalize] is joined *)
    destruct Hph as (past & Hloops & Hfs & Hobj).
    rewrite app_nil_r in Hloops. subst past.
    split; simpl; try done.
    split; [done|]. split; [done|].
    rewrite Hobj. by apply finalizes_of_joined.
  - (* a [Finalize] is enqueued *)
    destruct Hph as (past & Hloops & Hfs & Hobj).
    split; simpl; try done.
    exists (past ++ [n]). split; [by rewrite <- app_assoc|]. split.
    + apply Forall2_app; [done|]. by constructor.
    + by rewrite done_effects_enqueue.
  - (* the pool of [LoadTSVs] is joined *)
    split; simpl; done.
  - (* a [LoadBlock] starts *)
    split; simpl; try done.
    + by rewrite length_insert.
    + intros j e Hj.
      apply list_lookup_insert_Some in Hj as [(-> & <- & _)|[_ Hj]]; [|eauto].
      destruct (Htk _ _ Heqo) as (tsv & ? & ?). by exists tsv.
    + intros j tsv Hj. eapply slot_ok_status; [done| |by apply Hsl].
      unfold has_stored. split; by intros [|].
  - (* a [LoadBlock] is always defined *)
    destruct (Htk _ _ Heqo) as (tsv & _ & Ht). simpl in Ht. subst t.
    done.
  - (* a call on a column starts *)
    split; simpl; try done.
    destruct (line s) as [| | i b todo | todo | | | |]; simpl in *; try done.
    + destruct Hph as (_ & Hlp & _). by rewrite Hlp in Heqo.
    + destruct Hph as (_ & Hfin & _).
      by pose proof (all_finished_lookup _ _ _ Hfin Heqo).
    + destruct Hph as (tsv & past & Htsv & -> & Hloops & Hadds & Hobj).
      exists tsv, past. split; [done|]. split; [done|]. split; [done|].
      split; [by eapply adds_of_status|]. by rewrite done_effects_start.
    + destruct Hph as (past & Hloops & Hfs & Hobj).
      exists past. split; [done|].
      split; [by eapply finalizes_of_status|]. by rewrite done_effects_start.
    + destruct Hph as (_ & Hfin & _).
      by pose proof (all_finished_lookup _ _ _ Hfin Heqo).
  - (* a call on a column is defined *)
    exfalso.
    match goal with H : defined_start _ _ = false |- _ => rename H into Hdef end.
    unfold defined_start in Hdef.
    assert (∀ p, busy (pool s) p = false) as Hidle.
    { intros p. apply busy_false. intros q e Hq _.
      destruct (Htk _ _ Hq) as (tsv & _ & ->). done. }
    destruct (line s) as [| | i b todo | todo | | | |]; simpl in *; try done.
    + destruct Hph as (_ & Hlp & _). by rewrite Hlp in Heqo.
    + destruct Hph as (_ & Hfin & _).
      by pose proof (all_finished_lookup _ _ _ Hfin Heqo).
    + destruct Hph as (tsv & past & Htsv & -> & Hloops & Hadds & Hobj).
      destruct (adds_of_lookup _ _ _ _ _ _ _ Hadds Heqo)
        as ([k [p slot]] & v & Hit & -> & Hv).
      simpl in *.
      destruct (accumulator_alive (objects (this s)) p) as [c Hc].
      * by rewrite Hobj, done_effects_dom, fold_blocks_dom.
      * unfold accumulators. rewrite Hloops, !fmap_app.
        apply elem_of_app. left.
        apply list_elem_of_fmap. exists (p, slot). split; [done|].
        apply list_elem_of_fmap. exists (k, (p, slot)). split; [done|].
        by eapply list_elem_of_lookup_2.
      * rewrite Hc, Hidle in Hdef. simpl in Hdef.
        rewrite (busy_false_queued _ n (Add i p v) p) in Hdef; try done.
        by eapply adds_of_NoDup.
    + destruct Hph as (past & Hloops & Hfs & Hobj).
      destruct (finalizes_of_lookup _ _ _ _ _ Hfs Heqo) as [Hp Ht].
      rewrite Ht in Hdef, Heqo. simpl in Hdef.
      destruct (accumulator_alive (objects (this s)) (default 0 (target t)))
        as [c Hc].
      * by rewrite Hobj, done_effects_dom, fold_blocks_dom.
      * rewrite <- Finalize_loops_accumulators, Hloops.
        apply elem_of_app. left. by eapply list_elem_of_lookup_2.
      * rewrite Hc, Hidle in Hdef. simpl in Hdef.
        rewrite (busy_false_queued _ n (FinalizeColumn (default 0 (target t)))
                   (default 0 (target t))) in Hdef; try done.
        by eapply finalizes_of_NoDup.
    + destruct Hph as (_ & Hfin & _).
      by pose proof (all_finished_lookup _ _ _ Hfin Heqo).
  - (* a [LoadBlock] stores its block in its slot *)
    destruct (Htk _ _ Heqo) as (tsv' & Htsv & [= <- <-]).
    destruct Hlay as (Hcm & Hb & Hr & Hs & Hfi & Hsi).
    rewrite Hfi, Hsi, parser_returns in Heqo0
      by (by eapply list_elem_of_lookup_2).
    injection Heqo0 as <-.
    split; simpl; try done.
    + by rewrite length_insert.
    + by rewrite length_insert.
    + intros j e Hj.
      apply list_lookup_insert_Some in Hj as [(-> & <- & _)|[_ Hj]]; [|eauto].
      by exists tsv.
    + intros j tsv' Hj. by apply slot_ok_store; auto.
  - (* the parser does not die *)
    destruct (Htk _ _ Heqo) as (tsv' & Htsv & [= <- <-]).
    destruct Hlay as (Hcm & Hb & Hr & Hs & Hfi & Hsi).
    rewrite Hfi, Hsi, parser_returns in Heqo0
      by (by eapply list_elem_of_lookup_2).
    done.
  - (* no [LoadBlock] in the pool of [ProcessBlock] or [Finalize] *)
    by destruct (Hcalls _ _ Heqo) as [[? [=]] _].
  - by destruct (Hcalls _ _ Heqo) as [[? [=]] _].
  - (* a [LoadBlock] ends *)
    destruct (Htk _ _ Heqo) as (tsv & Htsv & Ht). simpl in Ht. subst t.
    simpl in *.
    split; simpl; try done.
    + by rewrite length_insert.
    + intros j e Hj.
      apply list_lookup_insert_Some in Hj as [(-> & <- & _)|[_ Hj]]; [|eauto].
      by exists tsv.
    + intros j tsv' Hj. eapply slot_ok_status; [done| |by apply Hsl].
      unfold has_stored. split; intros _; [by right|by left].
  - (* a call on a column ends *)
    pose proof (calls_end _ _ _ Hcalls Heqo) as Hends. rewrite Hends in Heqo.
    destruct (line s) as [| | i b todo | todo | | | |] eqn:Hline;
      simpl in *; try done.
    + destruct Hph as (_ & Hlp & _). by rewrite Hlp in Heqo.
    + destruct Hph as (_ & Hfin & _).
      by pose proof (all_finished_lookup _ _ _ Hfin Heqo).
    + destruct Hph as (tsv & past & Htsv & -> & Hloops & Hadds & Hobj).
      destruct (adds_of_lookup _ _ _ _ _ _ _ Hadds Heqo)
        as ([k [p slot]] & v & Hit & -> & Hv).
      split; simpl; try done; rewrite ?Hline; simpl; try done;
        try (by eapply calls_only_insert).
      exists tsv, past. split; [done|]. split; [done|]. split; [done|].
      split; [by eapply adds_of_status|].
      rewrite Hobj.
      rewrite (done_effects_end _ _ (Add i p v)); try done.
      by eapply adds_of_NoDup.
    + destruct Hph as (past & Hloops & Hfs & Hobj).
      destruct (finalizes_of_lookup _ _ _ _ _ Hfs Heqo) as [Hp Ht].
      rewrite Ht in Heqo. rewrite Ht.
      split; simpl; try done; rewrite ?Hline; simpl; try done;
        try (by eapply calls_only_insert).
      exists past. split; [done|].
      split; [by eapply finalizes_of_status|].
      rewrite Hobj.
      rewrite (done_effects_end _ _ (FinalizeColumn (default 0 (target t))));
        try done.
      by eapply finalizes_of_NoDup.
    + destruct Hph as (_ & Hfin & _).
      by pose proof (all_finished_lookup _ _ _ Hfin Heqo).
Qed.

Lemma structure_reachable (s : State float) : Start ~~>* s → Structure s.
Proof.
  intros H. revert s H. apply rtc_ind_r.
  - apply structure_start.
  - intros s1 s2 _ Hstep IH. by eapply structure_step.
Qed.

(** *** The load returns *)

(** No deadlock: short of the return, some thread can take a step. *)
Lemma structure_progress (s : State float) :
  Structure s → line s ≠ Returned → ∃ s', s ~~> s'.
Proof.
  intros [Hlay Hbl Hpl Htk Hsl Hph Hcalls] Hline.
  assert (∀ s', main_step FileExists tsvs s = Some s' → ∃ s', s ~~> s')
    as Hmain by (intros s' Hs'; exists s'; by exists Main).
  assert (alive (line s) = true →
          ∀ n t st, local_pool s !! n = Some (t, st) → st ≠ Finished →
            ∃ s', s ~~> s') as Hinner.
  { intros Halive n t st Hn Hst.
    apply (worker_can_step s Inner n t st); [done..|].
    intros ->. by destruct (Hcalls _ _ Hn) as [_ ?]. }
  assert (alive (line s) = true →
          ∀ n t st, pool s !! n = Some (t, st) → st ≠ Finished →
            ∃ s', s ~~> s') as Houter.
  { intros Halive n t st Hn Hst.
    apply (worker_can_step s Outer n t st); [done..|].
    intros _. destruct (Htk _ _ Hn) as (tsv & _ & Ht). simpl in Ht.
    by subst t. }
  unfold main_step in Hmain.
  destruct (line s) as [i|i|i b [|[k [p slot]] todo]|[|p todo]| | | |] eqn:El;
    simpl in *; try done.
  - destruct (tsvs !! i); [destruct (FileExists s0)|]; by eapply Hmain.
  - destruct (blocks s !! i) as [[b|]|] eqn:Eb; [by eapply Hmain| |by eapply Hmain].
    assert (i < length tsvs) as Hlt
      by (rewrite <- Hbl; by eapply lookup_lt_Some).
    destruct (lookup_lt_is_Some_2 tsvs i Hlt) as [tsv Htsv].
    destruct (lookup_lt_is_Some_2 (pool s) i) as [[t st] Ht]; [lia|].
    apply (Houter eq_refl i t st Ht). intros ->.
    destruct (Hsl i tsv Htsv) as [(_ & _ & Hp)|[(Hb & _)|(_ & Hc & _)]];
      [|congruence|lia].
    apply (Hp _ _ Ht). by right.
  - destruct (all_finished (local_pool s)) eqn:Efin; [by eapply Hmain|].
    destruct (not_all_finished _ Efin) as (n & t & st & Hn & Hst).
    by apply (Hinner eq_refl n t st).
  - destruct (bound_column k slot b); by eapply Hmain.
  - destruct (all_finished (local_pool s)) eqn:Efin; [by eapply Hmain|].
    destruct (not_all_finished _ Efin) as (n & t & st & Hn & Hst).
    by apply (Hinner eq_refl n t st).
  - by eapply Hmain.
  - destruct (all_finished (pool s)) eqn:Efin; [by eapply Hmain|].
    destruct (not_all_finished _ Efin) as (n & t & st & Hn & Hst).
    by apply (Houter eq_refl n t st).
Qed.

(** Whatever the schedule has done so far, the load can be run to its
    return; as no run is infinite, every schedule that is run to its
    end returns. *)
Lemma structure_returns (s : State float) :
  Structure s → ∃ s', s ~~>* s' ∧ line s' = Returned.
Proof.
  remember (remaining tsvs s) as fuel eqn:Hfuel.
  revert s Hfuel. induction fuel as [fuel IH] using lt_wf_ind.
  intros s -> Hs.
  destruct (Returned_dec (line s)) as [Hret|Hret].
  - exists s. split; [apply rtc_refl|done].
  - destruct (structure_progress s Hs Hret) as [s1 Hstep].
    destruct (IH (remaining tsvs s1) (step_remaining _ _ Hstep) s1 eq_refl)
      as (s' & Hsteps & Hline); [by eapply structure_step|].
    exists s'. split; [by eapply rtc_l|done].
Qed.

(** *** What the trace records *)

Local Abbreviation Chronicle := (chronicle tsvs st0).

Lemma chronicle_start : Chronicle Start.
Proof.
  split; [|split]; simpl.
  - intros e i Hin. by apply elem_of_nil in Hin.
  - intros i q Hi. lia.
  - split; [constructor|]. split.
    + intros i q Hin. by apply elem_of_nil in Hin.
    + intros n t Hn. done.
Qed.

(** When the pool of [ProcessBlock] is joined, the [Add] of every
    column has ended. *)
Lemma adds_of_complete i (block : TSVBlock float) lp tr q :
  adds_of i block (ProcessBlock_loops st0) lp →
  all_finished lp = true →
  folding lp tr →
  q ∈ accumulators st0 →
  Ended (Accept i q) ∈ tr.
Proof.
  intros Hadds Hfin (_ & _ & F3) Hq. unfold accumulators in Hq.
  apply list_elem_of_fmap in Hq as ([q' slot] & -> & Hq).
  apply list_elem_of_fmap in Hq as ([k [q'' slot']] & [= <- <-] & Hq).
  apply list_elem_of_lookup in Hq as [n Hn].
  destruct (Forall2_lookup_l _ _ _ _ _ Hadds Hn) as ([t st] & Ht & v & _ & Hv).
  simpl in Hv. subst t.
  pose proof (all_finished_lookup _ _ _ Hfin Ht) as Hst. simpl in Hst.
  subst st. by apply (F3 n (Add i q' v)).
Qed.

Lemma chronicle_step (s s' : State float) :
  Structure s → Chronicle s → s ~~> s' → Chronicle s'.
Proof.
  intros Hs (HN & Hcomp & Hphase) H.
  pose proof (structure_step _ _ Hs H) as Hs'.
  destruct Hs as [Hlay Hbl Hpl Htk Hsl Hph Hcalls].
  unfold chronicle.
  step_cases H; simpl in *; try (by destruct Hs' as [_ _ _ _ _ [] _]).
  - (* line 62 *)
    split; [|split].
    + apply files_bound_snoc; [by apply files_bound_snoc|].
      intros i' [= <-]. by eapply lookup_lt_Some.
    + intros i' q Hi'. lia.
    + by do 2 (apply folding_log; [by intros []|done|]).
  - (* line 71 *)
    destruct Hph as (Hi & Hfin & _).
    split; [|split].
    + apply files_bound_snoc; [done|]. intros i' [= <-].
      rewrite <- Hbl. by eapply lookup_lt_Some.
    + by apply accepts_complete_app.
    + apply folding_log; [by intros []|done|]. by eapply folding_new_pool.
  - (* the second loop is over *)
    destruct Hph as (Hi & Hfin & _). apply lookup_ge_None in Heqo.
    assert (i = length tsvs) as -> by lia.
    split; [done|]. split; [done|]. by eapply finalizing_new_pool.
  - (* the pool of [ProcessBlock] is joined *)
    destruct Hph as (tsv & past & Htsv & -> & Hloops & Hadds & Hobj).
    rewrite app_nil_r in Hloops. subst past.
    split; [done|]. split; [|done].
    intros i' q Hi' Hq. destruct (decide (i' = i)) as [->|Hne].
    + by eapply adds_of_complete.
    + apply Hcomp; [lia|done].
  - (* an [Add] is enqueued *)
    destruct Hph as (tsv & past & Htsv & _).
    split; [|split].
    + apply files_bound_snoc; [done|]. intros i' [= <-].
      by eapply lookup_lt_Some.
    + by apply accepts_complete_app.
    + apply folding_log; [by intros []|done|]. by apply folding_enqueue.
  - (* a [Finalize] is enqueued *)
    split; [|split].
    + by apply files_bound_snoc.
    + by apply accepts_complete_app.
    + apply finalizing_log; [by intros []|done|done|].
      by apply finalizing_enqueue.
  - (* a [LoadBlock] starts *)
    destruct (Htk _ _ Heqo) as (tsv & Htsv & Ht). simpl in Ht. subst t.
    split; [|split].
    + apply files_bound_snoc; [done|]. intros i' [= <-].
      by eapply lookup_lt_Some.
    + by apply accepts_complete_app.
    + destruct (line s); try done;
        (by apply folding_log; [intros []|..])
        || (by apply finalizing_log; [intros []|..]).
  - (* a call on a column starts *)
    destruct (line s) as [| | i b todo | todo | | | |]; simpl in *; try done.
    + destruct Hph as (_ & Hlp & _). by rewrite Hlp in Heqo.
    + destruct Hph as (_ & Hfin & _).
      by pose proof (all_finished_lookup _ _ _ Hfin Heqo).
    + destruct Hph as (tsv & past & Htsv & -> & Hloops & Hadds & Hobj).
      destruct (adds_of_lookup _ _ _ _ _ _ _ Hadds Heqo)
        as ([k [p slot]] & v & Hit & -> & Hv).
      simpl in *. split; [|split].
      * apply files_bound_snoc; [done|]. intros i' [= <-].
        by eapply lookup_lt_Some.
      * by apply accepts_complete_app.
      * by apply folding_start.
    + destruct Hph as (past & Hloops & Hfs & Hobj).
      destruct (finalizes_of_lookup _ _ _ _ _ Hfs Heqo) as [Hp Ht].
      rewrite Ht in Heqo. rewrite Ht. simpl. split; [|split].
      * by apply files_bound_snoc.
      * by apply accepts_complete_app.
      * by apply finalizing_start.
    + destruct Hph as (_ & Hfin & _).
      by pose proof (all_finished_lookup _ _ _ Hfin Heqo).
  - (* a [LoadBlock] stores its block *)
    destruct (Htk _ _ Heqo) as (tsv' & Htsv & [= <- <-]).
    split; [|split].
    + apply files_bound_snoc; [done|]. intros i' [= <-].
      by eapply lookup_lt_Some.
    + by apply accepts_complete_app.
    + destruct (line s); try done;
        (by apply folding_log; [intros []|..])
        || (by apply finalizing_log; [intros []|..]).
  - (* no [LoadBlock] in the pool of [ProcessBlock] or [Finalize] *)
    by destruct (Hcalls _ _ Heqo) as [[? [=]] _].
  - (* a [LoadBlock] ends *)
    destruct (Htk _ _ Heqo) as (tsv & Htsv & Ht). simpl in Ht. subst t.
    simpl in *. split; [|split].
    + apply files_bound_snoc; [done|]. intros i' [= <-].
      by eapply lookup_lt_Some.
    + by apply accepts_complete_app.
    + destruct (line s); try done;
        (by apply folding_log; [intros []|..])
        || (by apply finalizing_log; [intros []|..]).
  - (* a call on a column ends *)
    pose proof (calls_end _ _ _ Hcalls Heqo) as Hends. rewrite Hends in Heqo.
    destruct (line s) as [| | i b todo | todo | | | |] eqn:Hline;
      simpl in *; try done.
    + destruct Hph as (_ & Hlp & _). by rewrite Hlp in Heqo.
    + destruct Hph as (_ & Hfin & _).
      by pose proof (all_finished_lookup _ _ _ Hfin Heqo).
    + destruct Hph as (tsv & past & Htsv & -> & Hloops & Hadds & Hobj).
      destruct (adds_of_lookup _ _ _ _ _ _ _ Hadds Heqo)
        as ([k [p slot]] & v & Hit & -> & Hv).
      simpl in *. rewrite Hline. simpl. split; [|split].
      * apply files_bound_snoc; [done|]. intros i' [= <-].
        by eapply lookup_lt_Some.
      * by apply accepts_complete_app.
      * by apply folding_end.
    + destruct Hph as (past & Hloops & Hfs & Hobj).
      destruct (finalizes_of_lookup _ _ _ _ _ Hfs Heqo) as [Hp Ht].
      rewrite Ht in Heqo. rewrite Ht. simpl. rewrite Hline. simpl.
      split; [|split].
      * by apply files_bound_snoc.
      * by apply accepts_complete_app.
      * by apply finalizing_end.
    + destruct Hph as (_ & Hfin & _).
      by pose proof (all_finished_lookup _ _ _ Hfin Heqo).
Qed.

Lemma reachable_invariants (s : State float) :
  Start ~~>* s → Structure s ∧ Chronicle s.
Proof.
  intros H. revert s H. apply rtc_ind_r.
  - split; [apply structure_start|apply chronicle_start].
  - intros s1 s2 _ Hstep [Hs Hc].
    split; [by eapply structure_step|by eapply chronicle_step].
Qed.

(** *** What a load that goes well guarantees *)

(** The load neither aborts nor runs into undefined behaviour. *)
Lemma load_goes_well (s : State float) :
  Start ~~>* s → (∀ e, line s ≠ Aborted e) ∧ line s ≠ Undefined.
Proof.
  intros H. destruct (reachable_invariants s H) as [[_ _ _ _ _ Hph _] _].
  split; [intros e He|intros He]; by rewrite He in Hph.
Qed.

(** Whatever the schedule, the columns [LoadTSVs] returns are those of
    the load that makes one call after the other. *)
Lemma load_returns_sequential (s : State float) :
  Start ~~>* s → line s = Returned →
  objects (this s) = sequential_load new_TSVBlock tsvs st0.
Proof.
  intros H Hline. destruct (reachable_invariants s H) as [[_ _ _ _ _ Hph _] _].
  rewrite Hline in Hph. by destruct Hph as (_ & _ & ?).
Qed.



Lemma load_finalizes_once (s : State float) p :
  Start ~~>* s → line s = Returned → p ∈ accumulators st0 →
  occurrences (Started (Finish p)) (trace s) = 1 ∧
  occurrences (Ended (Finish p)) (trace s) = 1.
Proof.
  intros H Hline Hp.
  destruct (reachable_invariants s H)
    as [[_ _ _ _ _ Hph _] (_ & _ & Hphase)].
  rewrite Hline in Hph, Hphase. simpl in *.
  destruct Hph as (Hfs & Hfin & _). destruct Hphase as (_ & Hcount & _).
  destruct (Hcount p) as [-> ->].
  rewrite <- Finalize_loops_accumulators in Hp.
  apply list_elem_of_lookup in Hp as [n Hn].
  destruct (Forall2_lookup_l _ _ _ _ _ Hfs Hn) as ([t st] & Ht & Heq).
  simpl in Heq. subst t.
  pose proof (all_finished_lookup _ _ _ Hfin Ht) as Hst. simpl in Hst.
  subst st.
  assert (NoDup ((λ e : Task float * Status, target e.1) <$> local_pool s))
    as Hnd by (eapply (finalizes_of_NoDup _ []); [by rewrite app_nil_r|done]).
  split.
  - apply Nat.le_antisymm.
    + apply (count_at_most_one started_on); [by intros e [? _]|done].
    + by eapply (count_at_least_one (started_on p)).
  - apply Nat.le_antisymm.
    + apply (count_at_most_one ended_on); [by intros e [? _]|done].
    + by eapply (count_at_least_one (ended_on p)).
Qed.

(** Every event about a file is about one of the files of the load. *)
Lemma load_events_of_files (s : State float) e i :
  Start ~~>* s → e ∈ trace s → file_of e = Some i → i < length tsvs.
Proof.
  intros H. destruct (reachable_invariants s H) as [_ (HN & _)]. apply HN.
Qed.

End Going_well.

(** ** A load with a missing file *)

Section Missing_file.

Variable st0 : TSVDataStore float.
Variable k : nat.
Variable missing : string.
Hypothesis missing_at : tsvs !! k = Some missing.
Hypothesis missing_absent : FileExists missing = false.
Hypothesis earlier_exist :
  ∀ j tsv, j < k → tsvs !! j = Some tsv → FileExists tsv = true.

Local Abbreviation Start := (at_line_59 tsvs st0).
Local Abbreviation Enqueueing := (enqueueing new_TSVBlock tsvs st0 k missing).

Lemma enqueueing_start : Enqueueing Start.
Proof.
  split; [done|]. split; [done|]. split; [done|]. exists 0.
  split; [done|]. split; [lia|]. split; [|by left].
  intros j. simpl. split; [intros Hin; by apply elem_of_nil in Hin|lia].
Qed.

Lemma enqueued_parse_snoc tr e count :
  (∀ j, e ≠ Enqueued (Parse j)) →
  (∀ j, Enqueued (Parse j) ∈ tr ↔ j < count) →
  ∀ j, Enqueued (Parse j) ∈ tr ++ [e] ↔ j < count.
Proof.
  intros He Htr j. rewrite elem_of_app, Htr, list_elem_of_singleton.
  split; [intros [?|Heq]; [done|by destruct (He j)]|by left].
Qed.

Lemma enqueueing_step (s s' : State float) :
  Enqueueing s → s ~~> s' → Enqueueing s'.
Proof.
  intros (Hthis & Hlp & Htk & count & Hlen & Hle & Htr & Hline) H.
  destruct Hline as [Hline|[[Hline _]|(j0 & tsv0 & _ & _ & Hline & _)]];
    [|by destruct (stopped_no_step s s'); [rewrite Hline|]..].
  unfold enqueueing.
  step_cases H; simpl in *; try congruence; try (by rewrite Hlp in Heqo).
  - (* line 62 *)
    injection Hline as ->. remember (length (pool s)) as i eqn:Hi.
    assert (i ≠ k) as Hne by (intros Hk; rewrite Hk in Heqo; congruence).
    split; [done|]. split; [done|]. split.
    + intros j e Hj. apply lookup_app_Some in Hj as [Hj|[Hge Hj]]; [eauto|].
      rewrite <- Hi in Hge, Hj.
      destruct (j - i) eqn:E; [|done]. simpl in Hj.
      injection Hj as <-. exists s0. replace j with i by lia. done.
    + exists (S i). rewrite length_app. simpl.
      split; [lia|]. split; [lia|]. split; [|by left].
      intros j. rewrite elem_of_app, list_elem_of_singleton.
      rewrite (enqueued_parse_snoc _ _ i) by done.
      split; [intros [?|[= ->]]; lia|].
      intros Hj. destruct (decide (j = i)) as [->|]; [by right|left; lia].
  - (* line 61 fails *)
    injection Hline as ->. remember (length (pool s)) as i eqn:Hi.
    assert (i = k) as Hk.
    { destruct (decide (i = k)) as [|Hne]; [done|].
      rewrite (earlier_exist i s0) in Heqb; [done|lia|done]. }
    assert (s0 = missing) as -> by (rewrite Hk in Heqo; congruence).
    split; [done|]. split; [done|]. split; [done|]. exists i.
    split; [done|]. split; [done|].
    split; [by apply enqueued_parse_snoc|]. right; left. done.
  - (* the first loop does not end *)
    injection Hline as ->.
    apply lookup_ge_None in Heqo. apply lookup_lt_Some in missing_at. lia.
  - (* a [LoadBlock] starts *)
    split; [done|]. split; [done|]. split.
    + intros j e Hj.
      apply list_lookup_insert_Some in Hj as [(-> & <- & _)|[_ Hj]]; [|eauto].
      by apply (Htk _ _ Heqo).
    + exists (length (pool s)). rewrite length_insert.
      split; [done|]. split; [done|].
      split; [by apply enqueued_parse_snoc|by left].
  - (* a [LoadBlock] is always defined *)
    destruct (Htk _ _ Heqo) as (tsv & _ & Ht). simpl in Ht. by subst t.
  - (* a [LoadBlock] stores its block *)
    split; [done|]. split; [done|]. split.
    + intros j e Hj.
      apply list_lookup_insert_Some in Hj as [(-> & <- & _)|[_ Hj]]; [|eauto].
      by apply (Htk _ _ Heqo).
    + exists (length (pool s)). rewrite length_insert.
      split; [done|]. split; [done|].
      split; [by apply enqueued_parse_snoc|by left].
  - (* the parser dies *)
    destruct (Htk _ _ Heqo) as (tsv' & Htsv & [= <- <-]).
    split; [done|]. split; [done|]. split; [done|].
    exists (length (pool s)). split; [done|]. split; [done|].
    split; [done|]. right; right. exists i, tsv.
    split; [by eapply lookup_lt_Some|]. done.
  - (* a [LoadBlock] ends *)
    destruct (Htk _ _ Heqo) as (tsv & _ & Ht). simpl in Ht. subst t.
    simpl in *.
    split; [done|]. split; [done|]. split.
    + intros j e Hj.
      apply list_lookup_insert_Some in Hj as [(-> & <- & _)|[_ Hj]]; [|eauto].
      by apply (Htk _ _ Heqo).
    + exists (length (pool s)). rewrite length_insert.
      split; [done|]. split; [done|].
      split; [by apply enqueued_parse_snoc|by left].
Qed.

Lemma enqueueing_reachable (s : State float) :
  Start ~~>* s → Enqueueing s.
Proof.
  intros H. revert s H. apply rtc_ind_r.
  - apply enqueueing_start.
  - intros s1 s2 _ Hstep IH. by eapply enqueueing_step.
Qed.

(** As long as the process is alive, the controlling thread gets to
    the check of line 61 on file [k], whatever the workers have done. *)
Lemma enqueueing_aborts (s : State float) :
  Enqueueing s → (∀ e, line s ≠ Aborted e) →
  ∃ s', s ~~>* s' ∧ line s' = Aborted (DoesNotExist missing).
Proof.
  intros Henq Halive.
  pose proof Henq as (_ & _ & _ & count & _ & Hle & _ & Hline).
  destruct Hline as [Hline|[[Hline _]|(j0 & tsv0 & _ & _ & Hline & _)]];
    [|by destruct (Halive _ Hline)..].
  clear Halive.
  remember (k - count) as fuel eqn:Hfuel.
  revert s count Henq Hline Hle Hfuel.
  induction fuel as [|fuel IH]; intros s count Henq Hline Hle Hfuel.
  - assert (count = k) as -> by lia.
    eexists. split.
    + eapply rtc_once. exists Main. simpl. unfold main_step.
      by rewrite Hline, missing_at, missing_absent.
    + done.
  - assert (count < k) as Hlt by lia.
    assert (count < length tsvs) as Hlen
      by (apply lookup_lt_Some in missing_at; lia).
    destruct (lookup_lt_is_Some_2 tsvs count Hlen) as [tsv Htsv].
    assert (s ~~> with_line (EnqueueLoop (S count))
                    (Enqueue Outer (LoadBlock tsv count) (log (Probed tsv) s)))
      as Hstep.
    { exists Main. simpl. unfold main_step.
      by rewrite Hline, Htsv, (earlier_exist count tsv Hlt Htsv). }
    destruct (IH _ (S count) (enqueueing_step _ _ Henq Hstep))
      as (s' & Hsteps & Hline'); [done|lia|lia|].
    exists s'. split; [by eapply rtc_l|done].
Qed.

(** What the invariant says of the state the load is in. *)
Lemma enqueueing_line (s : State float) :
  Enqueueing s →
  line s ≠ Returned ∧ line s ≠ Undefined ∧
  (∀ j, Enqueued (Parse j) ∈ trace s → j < k) ∧
  (∀ e, line s = Aborted e →
     e = DoesNotExist missing ∧ (∀ j, j < k → Enqueued (Parse j) ∈ trace s) ∨
     ∃ j tsv, j < k ∧ tsvs !! j = Some tsv ∧ e = ParseError tsv ∧
       new_TSVBlock tsv (float_column_indices_ st0)
         (string_column_indices_ st0) = None).
Proof.
  intros (_ & _ & _ & count & _ & Hle & Htr & Hline).
  split; [|split; [|split]].
  - destruct Hline as [Hl|[[Hl _]|(j & tsv & _ & _ & Hl & _)]]; by rewrite Hl.
  - destruct Hline as [Hl|[[Hl _]|(j & tsv & _ & _ & Hl & _)]]; by rewrite Hl.
  - intros j Hin. apply Htr in Hin. lia.
  - intros e He.
    destruct Hline as [Hl|[[Hl ->]|(j & tsv & Hj & Htsv & Hl & Hnone)]].
    + congruence.
    + left. split; [congruence|]. intros j Hj. by apply Htr.
    + right. exists j, tsv. split; [lia|]. split; [done|].
      split; [congruence|done].
Qed.

End Missing_file.

End LoadTSVs_facts.
(** * The scenarios *)

Module Scenario_facts.

Import Scenario.

Lemma new_column_fresh {float : Type} : fresh_allocator (@new_column float).
Proof.
  intros h. unfold new_column. apply not_elem_of_dom. apply is_fresh.
Qed.

Lemma new_TSVBlock_honours_layout {float : Type} (atof : string → float) fs :
  honours_layout (new_TSVBlock atof fs).
Proof.
  intros tsv fi si. eexists. split; [done|]. simpl. by rewrite !length_fmap.
Qed.

End Scenario_facts.
(** * Schema resolution: the order of the checks and the registry *)

(** A list that is as long as the set of its elements has no
    repetition. *)
Lemma size_list_to_set_le `{Countable A} (l : list A) :
  size (list_to_set l : gset A) ≤ length l.
Proof.
  induction l as [|x l IH]; [done|]. simpl.
  destruct (decide (x ∈ l)) as [Hin|Hnot].
  - rewrite (subseteq_union_1_L (C:=gset A)); [lia|].
    by apply singleton_subseteq_l, elem_of_list_to_set.
  - rewrite size_union, size_singleton; [lia|].
    apply disjoint_singleton_l. by rewrite elem_of_list_to_set.
Qed.

Lemma NoDup_of_size `{Countable A} (l : list A) :
  length l ≤ size (list_to_set l : gset A) → NoDup l.
Proof.
  induction l as [|x l IH]; [constructor|]. simpl. intros Hle.
  destruct (decide (x ∈ l)) as [Hin|Hnot].
  - exfalso. rewrite (subseteq_union_1_L (C:=gset A)) in Hle.
    + pose proof (size_list_to_set_le l). lia.
    + by apply singleton_subseteq_l, elem_of_list_to_set.
  - constructor; [done|]. apply IH.
    rewrite size_union, size_singleton in Hle; [lia|].
    apply disjoint_singleton_l. by rewrite elem_of_list_to_set.
Qed.

(** A list with a repetition has the same element at two positions. *)
Lemma repeated_positions `{EqDecision A} (l : list A) :
  ¬ NoDup l → ∃ j k x, j < k ∧ l !! j = Some x ∧ l !! k = Some x.
Proof.
  induction l as [|x l IH]; intros Hnd; [by destruct Hnd; constructor|].
  destruct (decide (x ∈ l)) as [Hin|Hnot].
  - apply list_elem_of_lookup in Hin as [k Hk].
    exists 0, (S k), x. split; [lia|done].
  - destruct IH as (j & k & y & Hlt & Hj & Hk).
    + intros Hl. apply Hnd. by constructor.
    + exists (S j), (S k), y. split; [lia|done].
Qed.

(** Where a list in two parts has its element [x]. *)
Lemma app_eq_app_cons {A} (l1 l2 found rest : list A) x :
  l1 ++ l2 = found ++ x :: rest →
  (∃ rest1, l1 = found ++ x :: rest1 ∧ rest = rest1 ++ l2) ∨
  (∃ found2, found = l1 ++ found2 ∧ l2 = found2 ++ x :: rest).
Proof.
  revert found. induction l1 as [|y l1 IH]; intros found Heq.
  - right. by exists found.
  - destruct found as [|z found]; simpl in Heq.
    + injection Heq as -> <-. left. by exists l1.
    + injection Heq as -> Heq. destruct (IH _ Heq) as [(r & -> & ->)|(f & -> & ->)].
      * left. by exists r.
      * right. by exists f.
Qed.

Section SetupColumns_more.

Context {float : Type}.
Variable ReadFile : string → option string.
Variable split : string → list string.
Variable TrimWhiteSpace : string → string.
Variable new_column : gmap addr (Column float) → addr.

Local Abbreviation setup_loop := (setup_loop new_column).
Local Abbreviation Setup :=
  (SetupColumns ReadFile split TrimWhiteSpace new_column).
Local Abbreviation headers_of := (trimmed_headers split TrimWhiteSpace).

(** ** The order of the checks *)

Lemma setup_loop_app k (m : gmap string nat) names1 names2 st :
  setup_loop k m (names1 ++ names2) st =
    match setup_loop k m names1 st with
    | Ok st1 => setup_loop k m names2 st1
    | Died e => Died e
    end.
Proof.
  revert st. induction names1 as [|header names1 IH]; intros st; [done|].
  rewrite <- app_comm_cons, !setup_loop_cons.
  destruct (m !! header); [apply IH|done].
Qed.

(** A loop dies on the first name that is not in the map. *)
Lemma setup_loop_first_missing k (m : gmap string nat) found missing rest st :
  (∀ name, name ∈ found → is_Some (m !! name)) →
  m !! missing = None →
  setup_loop k m (found ++ missing :: rest) st = Died (FailedToFind missing).
Proof.
  intros Hfound Hmissing. rewrite setup_loop_app.
  destruct (setup_loop_succeeds new_column k m found st Hfound) as [st1 ->].
  by rewrite setup_loop_cons, Hmissing.
Qed.

Lemma header_map_is_Some contents name :
  is_Some (index_headers TrimWhiteSpace 0 (split contents) ∅ !! name) ↔
  name ∈ headers_of contents.
Proof.
  rewrite header_map_lookup.
  destruct (last_position name (headers_of contents)) as [j|] eqn:E.
  - split; [intros _|by eauto].
    apply last_position_Some in E as [E _]. by eapply list_elem_of_lookup_2.
  - apply last_position_None in E. split; [by intros [? ?]|done].
Qed.

Lemma SetupColumns_first_missing header_file contents config found missing
    rest st0 :
  ReadFile header_file = Some contents →
  configured_names config = found ++ missing :: rest →
  Forall (λ name, name ∈ headers_of contents) found →
  missing ∉ headers_of contents →
  Setup header_file config st0 = Died (FailedToFind missing).
Proof.
  intros Hread Hnames Hfound Hmissing.
  rewrite (SetupColumns_unfold _ _ _ _ _ _ _ _ Hread). cbv zeta.
  set (m := index_headers TrimWhiteSpace 0 (split contents) ∅).
  assert (∀ names : list string, (∀ name, name ∈ names → name ∈ found) →
                   ∀ name, name ∈ names → is_Some (m !! name)) as Hsome.
  { intros names Hsub name Hin. apply header_map_is_Some.
    apply (proj1 (Forall_forall _ _) Hfound). by apply Hsub. }
  assert (m !! missing = None) as Hnone.
  { apply eq_None_not_Some. intros Hs. by apply header_map_is_Some in Hs. }
  unfold configured_names in Hnames.
  apply app_eq_app_cons in Hnames as [(r1 & -> & _)|(f2 & -> & Hnames)].
  { rewrite setup_loop_first_missing; [done| |done].
    apply Hsome. auto. }
  destruct (setup_loop_succeeds new_column BinnedFloat m
              (binned_float_column config) st0) as [st1 ->].
  { apply Hsome. intros name Hin. apply elem_of_app. by left. }
  apply app_eq_app_cons in Hnames as [(r2 & -> & _)|(f3 & -> & ->)].
  { rewrite setup_loop_first_missing; [done| |done].
    apply Hsome. intros name Hin. apply elem_of_app. by right. }
  destruct (setup_loop_succeeds new_column RawFloat m
              (raw_float_column config) st1) as [st2 ->].
  { apply Hsome. intros name Hin. rewrite !elem_of_app. auto. }
  rewrite setup_loop_first_missing; [done| |done].
  apply Hsome. intros name Hin. rewrite !elem_of_app. auto.
Qed.

(** When [SetupColumns] succeeds every configured name is in the
    header. *)
Lemma SetupColumns_Ok_found header_file contents config st name :
  ReadFile header_file = Some contents →
  Setup header_file config empty_store = Ok st →
  name ∈ configured_names config →
  name ∈ headers_of contents.
Proof.
  intros Hread Hst Hin.
  destruct (SetupColumns_layout _ _ _ _ _ _ _ _ Hread Hst)
    as (_ & _ & _ & HF & HS & _).
  assert (∀ names idxs,
            Forall2 (λ name idx,
              last_position name (headers_of contents) = Some idx) names idxs →
            name ∈ names → name ∈ headers_of contents) as Hres.
  { intros names idxs H2 Hn.
    apply list_elem_of_lookup in Hn as [n Hn].
    destruct (Forall2_lookup_l _ _ _ _ _ H2 Hn) as (idx & _ & Hl).
    apply last_position_Some in Hl as [Hl _].
    by eapply list_elem_of_lookup_2. }
  unfold configured_names in Hin. rewrite app_assoc in Hin.
  apply elem_of_app in Hin as [Hin|Hin];
    [by apply (Hres _ _ HF)|by apply (Hres _ _ HS)].
Qed.

Lemma SetupColumns_Ok_read header_file config st0 st :
  Setup header_file config st0 = Ok st →
  ∃ contents, ReadFile header_file = Some contents.
Proof.
  unfold SetupColumns. destruct (ReadFile header_file); [by eauto|done].
Qed.

(** The vectors have one entry for each configured name. *)
Lemma SetupColumns_loops_length header_file config st :
  Setup header_file config empty_store = Ok st →
  length (ProcessBlock_loops st) = length (configured_names config).
Proof.
  intros Hst. destruct (SetupColumns_Ok_read _ _ _ _ Hst) as [contents Hread].
  destruct (SetupColumns_layout _ _ _ _ _ _ _ _ Hread Hst)
    as (psB & psR & psS & _ & _ & HlB & HlR & HlS & HB & HR & HS).
  unfold ProcessBlock_loops, configured_names.
  rewrite HB, HR, HS, !length_app, !length_fmap, !length_zip, !length_seq.
  lia.
Qed.

(** ** The registry of columns *)

(** One [reset]: the entry of [header] owns a new column, the column it
    owned is gone, and the other entries keep theirs. *)
Lemma reset_column_registry k header st :
  fresh_allocator new_column →
  registry_owns st →
  size (objects st) = size (column_map_ st) →
  let p := (reset_column new_column k header st).1 in
  let st1 := (reset_column new_column k header st).2 in
  registry_owns st1 ∧
  size (objects st1) = size (column_map_ st1) ∧
  column_map_ st1 = <[header := p]> (column_map_ st) ∧
  column_named st1 header = Some (new_Column k header) ∧
  (∀ name, name ≠ header → column_named st1 name = column_named st name).
Proof.
  intros Hfresh [Hown Hinj] Hsize. unfold reset_column. cbv zeta. simpl.
  set (p := new_column (objects st)).
  pose proof (Hfresh (objects st)) as Hp. fold p in Hp.
  assert (∀ name q, column_map_ st !! name = Some q → q ≠ p) as Hlive.
  { intros name q Hq ->.
    destruct (proj2 (Hown p) (ex_intro _ name Hq)) as [c Hc]. congruence. }
  set (h1 := match column_map_ st !! header with
             | Some old => delete old (<[p := new_Column k header]> (objects st))
             | None => <[p := new_Column k header]> (objects st)
             end).
  assert (h1 !! p = Some (new_Column k header)) as Hnew.
  { subst h1. destruct (column_map_ st !! header) as [old|] eqn:Hold.
    - rewrite lookup_delete_ne by (by eapply Hlive). apply lookup_insert_eq.
    - apply lookup_insert_eq. }
  assert (∀ name q, name ≠ header → column_map_ st !! name = Some q →
                    h1 !! q = objects st !! q) as Hkept.
  { intros name q Hne Hq. subst h1.
    pose proof (Hlive _ _ Hq) as Hqp.
    destruct (column_map_ st !! header) as [old|] eqn:Hold.
    - rewrite lookup_delete_ne, lookup_insert_ne; [done|done|].
      intros ->. apply Hne. by eapply Hinj.
    - by rewrite lookup_insert_ne. }
  assert (∀ q, is_Some (h1 !! q) →
               q = p ∨ ∃ name, name ≠ header ∧ column_map_ st !! name = Some q)
    as Hback.
  { intros q Hq. destruct (decide (q = p)) as [|Hne]; [by left|right].
    assert (is_Some (objects st !! q) ∧
            column_map_ st !! header ≠ Some q) as [Halive Hnot].
    { subst h1. destruct (column_map_ st !! header) as [old|] eqn:Hold.
      - destruct (decide (old = q)) as [->|Hoq].
        + rewrite lookup_delete_eq in Hq. by destruct Hq.
        + rewrite lookup_delete_ne, lookup_insert_ne in Hq by done.
          split; [done|congruence].
      - rewrite lookup_insert_ne in Hq by done. done. }
    apply Hown in Halive as [name Hname]. exists name. split; [|done].
    intros ->. congruence. }
  unfold registry_owns. simpl. fold h1.
  split; [split|split; [|split; [|split]]].
  - intros q. split.
    + intros Hq. destruct (Hback q Hq) as [->|(name & Hne & Hname)].
      * exists header. apply lookup_insert_eq.
      * exists name. by rewrite lookup_insert_ne.
    + intros [name Hname].
      apply lookup_insert_Some in Hname as [[_ <-]|[Hne Hname]]; [by eauto|].
      rewrite (Hkept name q) by done. apply Hown. by eauto.
  - intros name1 name2 q H1 H2.
    apply lookup_insert_Some in H1 as [[<- <-]|[Hne1 H1]];
      apply lookup_insert_Some in H2 as [[<- Heq]|[Hne2 H2]]; try done.
    + by destruct (Hlive _ _ H2).
    + subst q. by destruct (Hlive _ _ H1).
    + by eapply Hinj.
  - subst h1. destruct (column_map_ st !! header) as [old|] eqn:Hold.
    + assert (old ≠ p) as Hop by (by eapply Hlive).
      rewrite map_size_delete_Some.
      * rewrite map_size_insert_None by done.
        rewrite map_size_insert_Some by (by rewrite Hold). by simpl.
      * rewrite lookup_insert_ne by done. apply Hown. by eauto.
    + rewrite !map_size_insert_None by done. by rewrite Hsize.
  - done.
  - unfold column_named. simpl. by rewrite lookup_insert_eq.
  - intros name Hne. unfold column_named. simpl.
    rewrite lookup_insert_ne by done.
    destruct (column_map_ st !! name) as [q|] eqn:Hq; [|done]. simpl.
    by eapply Hkept.
Qed.

Lemma push_column_registry k p index (st : TSVDataStore float) :
  column_map_ (push_column k p index st) = column_map_ st ∧
  objects (push_column k p index st) = objects st.
Proof. by destruct k. Qed.

(** One loop. *)
Lemma setup_loop_registry k (m : gmap string nat) names st st' :
  fresh_allocator new_column →
  registry_owns st →
  size (objects st) = size (column_map_ st) →
  setup_loop k m names st = Ok st' →
  registry_owns st' ∧
  size (objects st') = size (column_map_ st') ∧
  dom (column_map_ st') = dom (column_map_ st) ∪ list_to_set names ∧
  ∀ name, column_named st' name =
            if decide (name ∈ names) then Some (new_Column k name)
            else column_named st name.
Proof.
  intros Hfresh. revert st.
  induction names as [|header names IH]; intros st Hown Hsize.
  - intros [= <-]. split; [done|]. split; [done|]. split.
    + simpl. by rewrite (right_id_L ∅ (∪)).
    + intros name. by rewrite decide_False by apply not_elem_of_nil.
  - rewrite setup_loop_cons. destruct (m !! header) as [index|]; [|done].
    destruct (reset_column_registry k header st Hfresh Hown Hsize)
      as (Hown1 & Hsize1 & Hmap1 & Hnew1 & Hkept1).
    set (st1 := push_column k (reset_column new_column k header st).1 index
                  (reset_column new_column k header st).2) in *.
    assert (column_map_ st1 = column_map_ (reset_column new_column k header st).2
            ∧ objects st1 = objects (reset_column new_column k header st).2)
      as [Hcm Hobj] by apply push_column_registry.
    assert (∀ name, column_named st1 name =
                      column_named (reset_column new_column k header st).2 name)
      as Hnamed by (intros name; unfold column_named; by rewrite Hcm, Hobj).
    intros Hloop. destruct (IH st1) as (Hown' & Hsize' & Hdom' & Hnamed');
      [unfold registry_owns; by rewrite Hcm, Hobj
      |by rewrite Hcm, Hobj|done|].
    split; [done|]. split; [done|]. split.
    + rewrite Hdom', Hcm, Hmap1, dom_insert_L. simpl.
      by rewrite (assoc_L (∪)), (comm_L (∪) (dom (column_map_ st))).
    + intros name. rewrite Hnamed', Hnamed.
      destruct (decide (name ∈ names)) as [Hin|Hnot].
      * rewrite decide_True by (by right). done.
      * destruct (decide (name = header)) as [->|Hne].
        -- rewrite decide_True by (by left). done.
        -- rewrite decide_False; [by apply Hkept1|].
           intros Hin. apply elem_of_cons in Hin as [?|?]; done.
Qed.

Lemma empty_store_registry :
  registry_owns (@empty_store float) ∧
  size (objects (@empty_store float)) = size (column_map_ (@empty_store float)).
Proof.
  split; [split|done].
  - intros p. simpl. rewrite lookup_empty.
    split; [by intros [? ?]|by intros [? ?]].
  - intros ? ? ? H. simpl in H. by rewrite lookup_empty in H.
Qed.

(** The three loops. *)
Lemma SetupColumns_registry header_file config st :
  fresh_allocator new_column →
  Setup header_file config empty_store = Ok st →
  registry_owns st ∧
  size (objects st) = size (list_to_set (configured_names config) : gset string) ∧
  ∀ name, column_named st name =
            (λ k, new_Column k name) <$> registered_kind config name.
Proof.
  intros Hfresh Hst.
  destruct (SetupColumns_Ok_read _ _ _ _ Hst) as [contents Hread].
  rewrite (SetupColumns_unfold _ _ _ _ _ _ _ _ Hread) in Hst. cbv zeta in Hst.
  destruct empty_store_registry as [Hown0 Hsize0].
  destruct (setup_loop BinnedFloat _ (binned_float_column config) empty_store)
    as [st1|] eqn:H1; [|done].
  destruct (setup_loop_registry _ _ _ _ _ Hfresh Hown0 Hsize0 H1)
    as (Hown1 & Hsize1 & Hdom1 & Hnamed1).
  destruct (setup_loop RawFloat _ (raw_float_column config) st1)
    as [st2|] eqn:H2; [|done].
  destruct (setup_loop_registry _ _ _ _ _ Hfresh Hown1 Hsize1 H2)
    as (Hown2 & Hsize2 & Hdom2 & Hnamed2).
  destruct (setup_loop_registry _ _ _ _ _ Hfresh Hown2 Hsize2 Hst)
    as (Hown3 & Hsize3 & Hdom3 & Hnamed3).
  split; [done|]. split.
  - rewrite Hsize3, <- (size_dom (D:=gset string)), Hdom3, Hdom2, Hdom1.
    simpl. rewrite dom_empty_L, (left_id_L ∅ (∪)).
    unfold configured_names. by rewrite !list_to_set_app_L, (assoc_L (∪)).
  - intros name. rewrite Hnamed3, Hnamed2, Hnamed1. unfold registered_kind.
    repeat case_decide; done.
Qed.

(** ** Slots and repeated names *)

Lemma well_formed_slots_sound (st : TSVDataStore float) :
  well_formed st → slots_sound st.
Proof.
  intros [Hnd Hobj]. split; [done|]. intros p Hin. unfold accumulators in Hin.
  apply list_elem_of_fmap in Hin as ([p' slot] & -> & Hin).
  apply list_elem_of_fmap in Hin as ([k [p'' slot']] & [= <- <-] & Hin).
  destruct (Hobj _ _ _ Hin) as [[name Hname] _]. by eexists.
Qed.

(** The vectors point to distinct columns that are alive only when no
    name is configured twice: there are as many columns alive as there
    are distinct names. *)
Lemma slots_sound_names_distinct header_file config st :
  fresh_allocator new_column →
  Setup header_file config empty_store = Ok st →
  slots_sound st →
  NoDup (configured_names config).
Proof.
  intros Hfresh Hst [Hnd Halive].
  destruct (SetupColumns_registry _ _ _ Hfresh Hst) as (_ & Hsize & _).
  apply NoDup_of_size. rewrite <- Hsize.
  rewrite <- (SetupColumns_loops_length _ _ _ Hst).
  replace (length (ProcessBlock_loops st)) with (length (accumulators st))
    by (unfold accumulators; by rewrite !length_fmap).
  rewrite <- (size_list_to_set (C:=gset addr)) by done.
  rewrite <- (size_dom (D:=gset addr)). apply subseteq_size.
  intros p Hp. apply elem_of_list_to_set in Hp. apply elem_of_dom. by apply Halive.
Qed.

(** ** The slot of a configured name *)

(** One loop on names that are all different: the vector of the kind
    gets one entry for each name, pointing to the column the map holds
    under that name when the loop is over. *)
Lemma setup_loop_named k (m : gmap string nat) names st st' :
  NoDup names →
  setup_loop k m names st = Ok st' →
  ∃ ps,
    length ps = length names ∧
    columns_of k st' =
      columns_of k st ++ zip ps (seq (length (indices_of k st)) (length names)) ∧
    Forall2 (λ name p, column_map_ st' !! name = Some p) names ps ∧
    (∀ name, name ∉ names → column_map_ st' !! name = column_map_ st !! name) ∧
    (∀ k', k' ≠ k → columns_of k' st' = columns_of k' st) ∧
    (k ≠ StringKind → string_column_indices_ st' = string_column_indices_ st) ∧
    length (indices_of k st') = length (indices_of k st) + length names.
Proof.
  intros Hnd. revert st.
  induction Hnd as [|header names Hnot Hnd IH]; intros st.
  - intros [= <-]. exists []. simpl. rewrite app_nil_r.
    repeat split; try done; lia.
  - rewrite setup_loop_cons. destruct (m !! header) as [index|]; [|done].
    destruct (iteration_layout new_column k header index st)
      as (Hidx & Hcols & Hother & Hstr & _).
    set (p := (reset_column new_column k header st).1) in *.
    set (st1 := push_column k p index (reset_column new_column k header st).2)
      in *.
    assert (column_map_ st1 = <[header := p]> (column_map_ st)) as Hcm.
    { subst st1. by destruct k. }
    intros Hloop.
    destruct (IH st1 Hloop)
      as (ps & Hlen & Hcols' & Hnamed & Hkept & Hother' & Hstr' & Hidx').
    exists (p :: ps). split; [simpl; lia|]. split; [|split; [|split; [|split; [|split]]]].
    + rewrite Hcols', Hcols, Hidx, length_app, <- app_assoc. simpl.
      by rewrite Nat.add_1_r.
    + constructor; [|done].
      rewrite Hkept by done. rewrite Hcm. apply lookup_insert_eq.
    + intros name Hname. apply not_elem_of_cons in Hname as [Hne Hname].
      rewrite Hkept by done. rewrite Hcm. by apply lookup_insert_ne.
    + intros k' Hk'. by rewrite Hother', Hother.
    + intros Hk. by rewrite Hstr', Hstr.
    + rewrite Hidx', Hidx, length_app. simpl. lia.
Qed.

(** The three loops, for a configuration without a repeated name: each
    configured name has an entry in the vector of its kind, with the
    slot of its position, and the entry points to the column the map
    holds under the name. *)
Lemma SetupColumns_slots_by_name header_file config st k name slot :
  NoDup (configured_names config) →
  Setup header_file config empty_store = Ok st →
  (k, (name, slot)) ∈ configured_columns config →
  ∃ p, (k, (p, slot)) ∈ ProcessBlock_loops st ∧
       column_map_ st !! name = Some p.
Proof.
  intros Hnd Hst Hin.
  destruct (SetupColumns_Ok_read _ _ _ _ Hst) as [contents Hread].
  rewrite (SetupColumns_unfold _ _ _ _ _ _ _ _ Hread) in Hst. cbv zeta in Hst.
  unfold configured_names in Hnd.
  apply NoDup_app in Hnd as (HndB & HBother & Hnd).
  apply NoDup_app in Hnd as (HndR & HRS & HndS).
  destruct (setup_loop BinnedFloat _ (binned_float_column config) empty_store)
    as [st1|] eqn:H1; [|done].
  destruct (setup_loop_named _ _ _ _ _ HndB H1)
    as (psB & HlB & HcB & HnB & _ & HoB & HsB & HiB).
  destruct (setup_loop RawFloat _ (raw_float_column config) st1)
    as [st2|] eqn:H2; [|done].
  destruct (setup_loop_named _ _ _ _ _ HndR H2)
    as (psR & HlR & HcR & HnR & HkR & HoR & HsR & HiR).
  destruct (setup_loop_named _ _ _ _ _ HndS Hst)
    as (psS & HlS & HcS & HnS & HkS & HoS & _ & HiS).
  pose proof (HoS BinnedFloat) as EB3. pose proof (HoR BinnedFloat) as EB2.
  pose proof (HoS RawFloat) as ER3. pose proof (HoB RawFloat) as ER1.
  pose proof (HoR StringKind) as ES2. pose proof (HoB StringKind) as ES1.
  simpl in *.
  assert (binned_float_columns_ st =
            zip psB (seq 0 (length (binned_float_column config)))) as HB.
  { rewrite EB3, EB2 by done. done. }
  assert (raw_float_columns_ st =
            zip psR (seq (length (binned_float_column config))
                       (length (raw_float_column config)))) as HR.
  { rewrite ER3 by done. rewrite HcR, ER1 by done. simpl. by rewrite HiB. }
  assert (string_columns_ st =
            zip psS (seq 0 (length (string_column config)))) as HS.
  { rewrite HcS, ES2, ES1 by done. simpl. by rewrite HsR, HsB. }
  assert (∀ (names : list string) ps start j name' (cols : list (addr * nat)),
            cols = zip ps (seq start (length names)) →
            names !! j = Some name' →
            (∃ p, ps !! j = Some p ∧ column_map_ st !! name' = Some p) →
            ∃ p, (p, start + j) ∈ cols ∧ column_map_ st !! name' = Some p)
    as Hslot.
  { intros names ps start j name' cols -> Hj (p & Hp & Hcm).
    exists p. split; [|done]. apply (list_elem_of_lookup_2 _ j).
    rewrite lookup_zip_with, Hp. simpl.
    rewrite lookup_seq_lt by (by eapply lookup_lt_Some). done. }
  unfold configured_columns in Hin. unfold ProcessBlock_loops.
  rewrite !elem_of_app in Hin.
  destruct Hin as [Hin|[Hin|Hin]];
    apply elem_of_lookup_imap in Hin as (j & name' & [= -> -> ->] & Hj);
    pose proof (list_elem_of_lookup_2 _ _ _ Hj) as Hmem.
  - destruct (Hslot _ psB 0 j name' _ HB Hj) as (p & Hp & Hcm).
    + destruct (Forall2_lookup_l _ _ _ _ _ HnB Hj) as (p & Hp & Hcm).
      exists p. split; [done|]. simpl in Hcm.
      pose proof (HBother _ Hmem) as Hnot. rewrite elem_of_app in Hnot.
      rewrite HkS, HkR by tauto. done.
    + exists p. split; [|done]. apply elem_of_app. left.
      by apply list_elem_of_fmap_2.
  - destruct (Hslot _ psR (length (binned_float_column config)) j name' _ HR Hj)
      as (p & Hp & Hcm).
    + destruct (Forall2_lookup_l _ _ _ _ _ HnR Hj) as (p & Hp & Hcm).
      exists p. split; [done|]. simpl in Hcm.
      rewrite HkS by (by apply HRS). done.
    + exists p. split; [|done]. apply elem_of_app. right.
      apply elem_of_app. left. by apply list_elem_of_fmap_2.
  - destruct (Hslot _ psS 0 j name' _ HS Hj) as (p & Hp & Hcm).
    + destruct (Forall2_lookup_l _ _ _ _ _ HnS Hj) as (p & Hp & Hcm).
      by exists p.
    + exists p. split; [|done]. apply elem_of_app. right.
      apply elem_of_app. right. by apply list_elem_of_fmap_2.
Qed.

(** Every slot of the index vectors is the slot of an entry of the
    per-kind vectors. *)
Lemma SetupColumns_slot_used header_file config st :
  Setup header_file config empty_store = Ok st →
  (∀ slot, slot < length (binned_float_column config ++ raw_float_column config) →
     ∃ k p, k ≠ StringKind ∧ (k, (p, slot)) ∈ ProcessBlock_loops st) ∧
  (∀ slot, slot < length (string_column config) →
     ∃ p, (StringKind, (p, slot)) ∈ ProcessBlock_loops st).
Proof.
  intros Hst. destruct (SetupColumns_Ok_read _ _ _ _ Hst) as [contents Hread].
  destruct (SetupColumns_layout _ _ _ _ _ _ _ _ Hread Hst)
    as (psB & psR & psS & _ & _ & HlB & HlR & HlS & HB & HR & HS).
  assert (∀ (ps : list addr) start len j,
            length ps = len → j < len →
            ∃ p, (p, start + j) ∈ zip ps (seq start len)) as Hzip.
  { intros ps start len j Hlen Hj.
    destruct (lookup_lt_is_Some_2 ps j) as [p Hp]; [lia|].
    exists p. apply (list_elem_of_lookup_2 _ j).
    rewrite lookup_zip_with, Hp. simpl. by rewrite lookup_seq_lt. }
  unfold ProcessBlock_loops. rewrite HB, HR, HS. split.
  - intros slot Hslot. rewrite length_app in Hslot.
    destruct (decide (slot < length (binned_float_column config))) as [Hlt|Hge].
    + destruct (Hzip psB 0 _ slot HlB Hlt) as [p Hp].
      exists BinnedFloat, p. split; [done|].
      apply elem_of_app. left. by apply list_elem_of_fmap_2.
    + destruct (Hzip psR (length (binned_float_column config)) _
                  (slot - length (binned_float_column config)) HlR) as [p Hp];
        [lia|].
      replace (length (binned_float_column config) +
               (slot - length (binned_float_column config))) with slot
        in Hp by lia.
      exists RawFloat, p. split; [done|].
      apply elem_of_app. right. apply elem_of_app. left.
      by apply list_elem_of_fmap_2.
  - intros slot Hslot. destruct (Hzip psS 0 _ slot HlS Hslot) as [p Hp].
    exists p. apply elem_of_app. right. apply elem_of_app. right.
    by apply list_elem_of_fmap_2.
Qed.

End SetupColumns_more.
(** * The load pipeline: what every load keeps *)

Section LoadTSVs_more.

Context {float : Type}.
Variable FileExists : string → bool.
Variable new_TSVBlock : string → list nat → list nat → option (TSVBlock float).
Variable tsvs : list string.

Local Notation "s ~~> s'" := (step FileExists new_TSVBlock tsvs s s')
  (at level 70, no associativity).
Local Notation "s ~~>* s'" := (rtc (step FileExists new_TSVBlock tsvs) s s')
  (at level 70, no associativity).

(** Case analysis on [H : s ~~> s'], as for the invariants of the
    pipeline. *)
Ltac step_cases H :=
  let m := fresh "m" in
  destruct H as [m H];
  destruct m as [|[] ?n|[] ?n|[] ?n]; simpl in H;
  [ unfold main_step in H
  | unfold worker_start in H | unfold worker_start in H
  | unfold worker_store in H | unfold worker_store in H
  | unfold worker_end in H | unfold worker_end in H ];
  repeat match type of H with
         | context [decide ?P] => destruct (decide P)
         | context [match ?x with _ => _ end] => destruct x eqn:?
         end;
  try discriminate H;
  apply (inj Some) in H; subst; cbn [get_pool] in *.

(** ** Columns only grow *)

Lemma grows_refl (c : Column float) : grows c c.
Proof. by repeat split. Qed.

Lemma grows_trans (c1 c2 c3 : Column float) :
  grows c1 c2 → grows c2 c3 → grows c1 c3.
Proof.
  intros (Hk1 & Hn1 & Hf1 & Hs1 & Hz1) (Hk2 & Hn2 & Hf2 & Hs2 & Hz2).
  split; [congruence|]. split; [congruence|].
  split; [by etrans|]. split; [by etrans|lia].
Qed.

Lemma grows_Add v (c : Column float) : grows c (Column_Add v c).
Proof.
  destruct v as [l|l]; repeat split; simpl; try done; by exists l.
Qed.

Lemma grows_Finalize (c : Column float) : grows c (Column_Finalize c).
Proof. repeat split; simpl; try done. lia. Qed.

Lemma columns_grow_refl (h : gmap addr (Column float)) : columns_grow h h.
Proof. split; [done|]. intros p c Hc. exists c. split; [done|apply grows_refl]. Qed.

Lemma columns_grow_trans (h1 h2 h3 : gmap addr (Column float)) :
  columns_grow h1 h2 → columns_grow h2 h3 → columns_grow h1 h3.
Proof.
  intros [Hd1 H1] [Hd2 H2]. split; [congruence|]. intros p c Hc.
  destruct (H1 p c Hc) as (c2 & Hc2 & Hg1).
  destruct (H2 p c2 Hc2) as (c3 & Hc3 & Hg2).
  exists c3. split; [done|by eapply grows_trans].
Qed.

Lemma columns_grow_alter (f : Column float → Column float) p
    (h : gmap addr (Column float)) :
  (∀ c, grows c (f c)) → columns_grow h (alter f p h).
Proof.
  intros Hf. split; [apply dom_alter_L|]. intros q c Hc.
  destruct (decide (p = q)) as [->|Hne].
  - exists (f c). split; [|done]. by rewrite lookup_alter_eq, Hc.
  - exists c. split; [|apply grows_refl]. by rewrite lookup_alter_ne.
Qed.

Lemma task_effect_grows t (s : State float) :
  columns_grow (objects (this s))
    (objects (this (task_effect t s))).
Proof.
  destruct t; simpl;
    [apply columns_grow_refl|apply columns_grow_alter, grows_Add
    |apply columns_grow_alter, grows_Finalize].
Qed.

Lemma step_grows (s s' : State float) :
  s ~~> s' → columns_grow (objects (this s)) (objects (this s')).
Proof.
  intros H. step_cases H; simpl; try apply columns_grow_refl.
  all: apply task_effect_grows.
Qed.

Lemma steps_grow (s s' : State float) :
  s ~~>* s' → columns_grow (objects (this s)) (objects (this s')).
Proof.
  induction 1 as [|s1 s2 s3 H12 _ IH]; [apply columns_grow_refl|].
  eapply columns_grow_trans; [by apply step_grows|done].
Qed.

(** ** The length of a run *)

Lemma run_remaining ms (s s' : State float) :
  run FileExists new_TSVBlock tsvs ms s = Some s' →
  length ms + remaining tsvs s' ≤ remaining tsvs s.
Proof.
  revert s. induction ms as [|m ms IH]; intros s; simpl.
  - intros [= <-]. lia.
  - destruct (exec FileExists new_TSVBlock tsvs m s) as [s1|] eqn:E; [|done].
    intros Hrun. apply IH in Hrun.
    assert (s ~~> s1) as Hstep by (by exists m).
    apply step_remaining in Hstep. lia.
Qed.

(** ** The life of a parse task *)

Lemma precedes_nil e1 e2 : precedes e1 e2 [].
Proof. intros pre post H. by destruct pre. Qed.

Lemma precedes_snoc e1 e2 tr e :
  precedes e1 e2 tr → (e = e2 → e1 ∈ tr) → precedes e1 e2 (tr ++ [e]).
Proof.
  intros Htr He pre post Heq.
  destruct post as [|x post _] using rev_ind.
  - apply app_inj_tail in Heq as [-> ->]. by apply He.
  - rewrite app_comm_cons, app_assoc in Heq.
    apply app_inj_tail in Heq as [-> _]. by eapply Htr.
Qed.

Lemma precedes_occurs e1 e2 tr :
  precedes e1 e2 tr → e2 ∈ tr → occurs_before e1 e2 tr.
Proof.
  intros Hp Hin. apply list_elem_of_split in Hin as (pre & post & ->).
  pose proof (Hp pre post eq_refl) as Hin.
  apply list_elem_of_split in Hin as (t1 & t2 & ->).
  exists t1, t2, post. by rewrite <- app_assoc.
Qed.

Implicit Types (pl : ThreadPool float) (tr : list Event).

Lemma stage_enqueue pl t i :
  stage (pl ++ [(t, Queued)]) i =
    if decide (i = length pl) then 1 else stage pl i.
Proof.
  unfold stage. destruct (decide (i = length pl)) as [->|Hne].
  - by rewrite list_lookup_middle.
  - destruct (decide (i < length pl)).
    + by rewrite lookup_app_l.
    + rewrite !(proj2 (lookup_ge_None _ _)); [done|lia|].
      rewrite length_app. simpl. lia.
Qed.

Lemma stage_insert pl n t st st' i :
  pl !! n = Some (t, st) →
  stage (<[n := (t, st')]> pl) i =
    if decide (i = n) then stage_of st' else stage pl i.
Proof.
  intros Hn. unfold stage. destruct (decide (i = n)) as [->|Hne].
  - rewrite list_lookup_insert_eq by (by eapply lookup_lt_Some). done.
  - by rewrite list_lookup_insert_ne.
Qed.

Lemma stage_lookup pl n t st :
  pl !! n = Some (t, st) → stage pl n = stage_of st.
Proof. intros Hn. unfold stage. by rewrite Hn. Qed.

Lemma stage_beyond pl n : length pl ≤ n → stage pl n = 0.
Proof. intros Hn. unfold stage. by rewrite (proj2 (lookup_ge_None _ _)). Qed.

Local Abbreviation Counts pl tr :=
  (∀ i, logged_from 1 (Enqueued (Parse i)) pl i tr ∧
        logged_from 2 (Started (Parse i)) pl i tr ∧
        logged_from 3 (Stored i) pl i tr ∧
        logged_from 4 (Ended (Parse i)) pl i tr).

Local Abbreviation Orders tr :=
  (∀ i, precedes (Enqueued (Parse i)) (Started (Parse i)) tr ∧
        precedes (Started (Parse i)) (Ended (Parse i)) tr ∧
        precedes (Started (Parse i)) (Stored i) tr ∧
        precedes (Stored i) (Ended (Parse i)) tr ∧
        precedes (Stored i) (Took i) tr).

Local Abbreviation Probes tr :=
  (∀ i tsv, tsvs !! i = Some tsv →
            precedes (Probed tsv) (Enqueued (Parse i)) tr).

Lemma counts_log pl tr e :
  (∀ i, e ≠ Enqueued (Parse i) ∧ e ≠ Started (Parse i) ∧ e ≠ Stored i ∧
        e ≠ Ended (Parse i)) →
  Counts pl tr → Counts pl (tr ++ [e]).
Proof.
  intros He H i. destruct (H i) as (H1 & H2 & H3 & H4).
  destruct (He i) as (E1 & E2 & E3 & E4). unfold logged_from in *.
  rewrite !occurrences_snoc, H1, H2, H3, H4.
  repeat split; repeat case_decide; try done; lia.
Qed.

Lemma counts_enqueue pl tr t :
  Counts pl tr →
  Counts (pl ++ [(t, Queued)]) (tr ++ [Enqueued (Parse (length pl))]).
Proof.
  intros H i. destruct (H i) as (H1 & H2 & H3 & H4). unfold logged_from in *.
  rewrite !occurrences_snoc, stage_enqueue, H1, H2, H3, H4.
  pose proof (stage_beyond pl (length pl)). clear H1 H2 H3 H4.
  repeat split; repeat case_decide; simplify_eq; try done; lia.
Qed.

Lemma counts_start pl tr n t :
  pl !! n = Some (t, Queued) →
  Counts pl tr →
  Counts (<[n := (t, Running)]> pl) (tr ++ [Started (Parse n)]).
Proof.
  intros Hn H i. destruct (H i) as (H1 & H2 & H3 & H4). unfold logged_from in *.
  rewrite !occurrences_snoc, (stage_insert _ _ _ _ _ _ Hn), H1, H2, H3, H4.
  pose proof (stage_lookup _ _ _ _ Hn) as Hs. simpl in Hs. clear H1 H2 H3 H4.
  repeat split; repeat case_decide; simplify_eq/=; try done; lia.
Qed.

Lemma counts_store pl tr n t :
  pl !! n = Some (t, Running) →
  Counts pl tr →
  Counts (<[n := (t, Notifying)]> pl) (tr ++ [Stored n]).
Proof.
  intros Hn H i. destruct (H i) as (H1 & H2 & H3 & H4). unfold logged_from in *.
  rewrite !occurrences_snoc, (stage_insert _ _ _ _ _ _ Hn), H1, H2, H3, H4.
  pose proof (stage_lookup _ _ _ _ Hn) as Hs. simpl in Hs. clear H1 H2 H3 H4.
  repeat split; repeat case_decide; simplify_eq/=; try done; lia.
Qed.

Lemma counts_end pl tr n t :
  pl !! n = Some (t, Notifying) →
  Counts pl tr →
  Counts (<[n := (t, Finished)]> pl) (tr ++ [Ended (Parse n)]).
Proof.
  intros Hn H i. destruct (H i) as (H1 & H2 & H3 & H4). unfold logged_from in *.
  rewrite !occurrences_snoc, (stage_insert _ _ _ _ _ _ Hn), H1, H2, H3, H4.
  pose proof (stage_lookup _ _ _ _ Hn) as Hs. simpl in Hs. clear H1 H2 H3 H4.
  repeat split; repeat case_decide; simplify_eq/=; try done; lia.
Qed.

Lemma counts_reached pl tr i :
  Counts pl tr →
  (1 ≤ stage pl i → Enqueued (Parse i) ∈ tr) ∧
  (2 ≤ stage pl i → Started (Parse i) ∈ tr) ∧
  (3 ≤ stage pl i → Stored i ∈ tr) ∧
  (4 ≤ stage pl i → Ended (Parse i) ∈ tr) ∧
  (stage pl i < 4 → Ended (Parse i) ∉ tr).
Proof.
  intros H. destruct (H i) as (H1 & H2 & H3 & H4). unfold logged_from in *.
  repeat split; intros Hs.
  - apply occurrences_elem_of. rewrite H1, decide_True by done. lia.
  - apply occurrences_elem_of. rewrite H2, decide_True by done. lia.
  - apply occurrences_elem_of. rewrite H3, decide_True by done. lia.
  - apply occurrences_elem_of. rewrite H4, decide_True by done. lia.
  - intros Hin. rewrite decide_False in H4 by lia.
    apply list_elem_of_split in Hin as (pre & post & ->).
    unfold occurrences in H4.
    rewrite filter_app, filter_cons_True, length_app in H4 by done.
    simpl in H4. lia.
Qed.

Lemma counts_elem_of pl tr n t st :
  Counts pl tr → pl !! n = Some (t, st) →
  Enqueued (Parse n) ∈ tr ∧
  (st ≠ Queued → Started (Parse n) ∈ tr) ∧
  (has_stored st → Stored n ∈ tr) ∧
  (st = Finished → Ended (Parse n) ∈ tr).
Proof.
  intros H Hn. destruct (counts_reached _ _ n H) as (H1 & H2 & H3 & H4 & _).
  rewrite (stage_lookup _ _ _ _ Hn) in *.
  split; [|split; [|split]].
  - apply H1. destruct st; simpl; lia.
  - intros Hst. apply H2. destruct st; simpl; try done; lia.
  - intros Hst. apply H3. destruct Hst as [-> | ->]; simpl; lia.
  - intros ->. by apply H4.
Qed.

Lemma orders_log tr e :
  (∀ i, e ≠ Started (Parse i) ∧ e ≠ Ended (Parse i) ∧ e ≠ Stored i ∧
        e ≠ Took i) →
  Orders tr → Orders (tr ++ [e]).
Proof.
  intros He H i. destruct (H i) as (H1 & H2 & H3 & H4 & H5).
  destruct (He i) as (E1 & E2 & E3 & E4).
  repeat split; by apply precedes_snoc.
Qed.

(** An event that comes with what has to come before it. *)
Lemma orders_event tr e :
  (∀ i, (e = Started (Parse i) → Enqueued (Parse i) ∈ tr) ∧
        (e = Ended (Parse i) → Started (Parse i) ∈ tr ∧ Stored i ∈ tr) ∧
        (e = Stored i → Started (Parse i) ∈ tr) ∧
        (e = Took i → Stored i ∈ tr)) →
  Orders tr → Orders (tr ++ [e]).
Proof.
  intros He H i. destruct (H i) as (H1 & H2 & H3 & H4 & H5).
  destruct (He i) as (E1 & E2 & E3 & E4).
  repeat split; apply precedes_snoc; try done; intros Heq.
  - by apply E2.
  - by apply E2.
Qed.

Lemma probes_log tr e :
  (∀ i, e ≠ Enqueued (Parse i)) → Probes tr → Probes (tr ++ [e]).
Proof.
  intros He H i tsv Hi. apply precedes_snoc; [by apply H|].
  intros Heq. by destruct (He i).
Qed.

Lemma probes_enqueue tr i tsv :
  tsvs !! i = Some tsv → Probed tsv ∈ tr →
  Probes tr → Probes (tr ++ [Enqueued (Parse i)]).
Proof.
  intros Hi Hin H i' tsv' Hi'. apply precedes_snoc; [by apply H|].
  intros [= ->]. congruence.
Qed.

Lemma label_of_target (t : Task float) :
  is_Some (target t) → ∀ i, label t ≠ Parse i.
Proof. destruct t; simpl; [by intros [? ?]|done..]. Qed.

Local Abbreviation Parse_log := (parse_log FileExists new_TSVBlock tsvs).

(** An event that is not about a parse task nor the taking of a block
    leaves the three records as they are. *)
Ltac other_event :=
  first [ apply counts_log; [by intros; repeat split|]
        | apply orders_log; [by intros; repeat split|]
        | apply probes_log; [by intros|] ].

Lemma parse_log_step (s s' : State float) :
  Parse_log s → s ~~> s' → Parse_log s'.
Proof.
  intros [Htk Hlp Hct Hord Hpr Hbl Hln] H. unfold progress_ok in Hln.
  step_cases H; simpl in *.
  - (* line 62: the parse task of file [i] is enqueued *)
    destruct Hln as (Hb & Hp & Hle & Htaken).
    split; simpl; unfold progress_ok; simpl.
    + intros j e Hj. apply lookup_app_Some in Hj as [Hj|[Hge Hj]]; [eauto|].
      destruct (j - length (pool s)) eqn:E; [|done]. simpl in Hj.
      injection Hj as <-. exists s0. replace j with i by lia. done.
    + done.
    + rewrite <- Hp. apply counts_enqueue. by other_event.
    + by do 2 other_event.
    + apply (probes_enqueue _ _ s0); [done| |by other_event].
      apply elem_of_app. right. by left.
    + intros i' b Hb'. rewrite stage_enqueue. case_decide; [|eauto].
      subst. apply Hbl in Hb' as [Hb' _].
      rewrite stage_beyond in Hb'; [lia|lia].
    + split; [done|]. split; [rewrite length_app; simpl; lia|].
      split; [apply lookup_lt_Some in Heqo; lia|].
      by rewrite !taken_app, Htaken.
  - (* line 61 fails *)
    split; simpl; unfold progress_ok; simpl; try done; by other_event.
  - (* the first loop is over *)
    destruct Hln as (Hb & Hp & Hle & Htaken). apply lookup_ge_None in Heqo.
    split; simpl; unfold progress_ok; simpl; try done.
    assert (i = length tsvs) as -> by lia. repeat split; try done; lia.
  - (* line 71: the block of file [i] is taken *)
    destruct Hln as (Hb & Hp & Hle & Htaken).
    pose proof (lookup_lt_Some _ _ _ Heqo) as Hlt.
    destruct (Hbl _ _ Heqo) as [Hst Hparsed].
    split; simpl; unfold progress_ok; simpl; try done.
    + by other_event.
    + apply orders_event; [|done].
      intros i'. repeat split; try done. intros [= <-].
      by apply (counts_reached _ _ i Hct).
    + by other_event.
    + intros i' b Hb'. apply (Hbl i' b).
      destruct (decide (i' = i)) as [->|Hne].
      * by rewrite list_lookup_insert_eq in Hb'.
      * by rewrite list_lookup_insert_ne in Hb'.
    + rewrite length_insert. split; [done|]. split; [done|].
      split; [lia|]. split; [|done].
      rewrite taken_app, Htaken. exact (eq_sym (seq_S i 0)).
  - (* the second loop is over *)
    destruct Hln as (Hb & Hp & Hle & Htaken). apply lookup_ge_None in Heqo.
    split; simpl; unfold progress_ok; simpl; try done.
    assert (i = length tsvs) as -> by lia. done.
  - (* the pool of [ProcessBlock] is joined *)
    destruct Hln as (Hb & Hp & Hle & Htaken & _).
    split; simpl; unfold progress_ok; simpl; try done.
  - (* an [Add] is enqueued *)
    destruct Hln as (Hb & Hp & Hle & Htaken & Hparsed).
    split; simpl; unfold progress_ok; simpl; try done; try (by other_event).
    + intros q e Hq. apply lookup_app_Some in Hq as [Hq|[Hge Hq]]; [eauto|].
      destruct (q - length (local_pool s)) eqn:E; [|done]. simpl in Hq.
      injection Hq as <-. by eexists.
    + by rewrite taken_app, app_nil_r.
  - (* the block has no such slot *)
    split; simpl; unfold progress_ok; simpl; done.
  - (* the pool of [Finalize] is joined *)
    split; simpl; unfold progress_ok; simpl; done.
  - (* a [Finalize] is enqueued *)
    destruct Hln as (Hb & Hp & Htaken).
    split; simpl; unfold progress_ok; simpl; try done; try (by other_event).
    + intros q e Hq. apply lookup_app_Some in Hq as [Hq|[Hge Hq]]; [eauto|].
      destruct (q - length (local_pool s)) eqn:E; [|done]. simpl in Hq.
      injection Hq as <-. by eexists.
    + by rewrite taken_app, app_nil_r.
  - (* the pool of [LoadTSVs] is joined *)
    destruct Hln as (Hb & Hp & Htaken).
    split; simpl; unfold progress_ok; simpl; done.
  - (* a parse task starts *)
    destruct (Htk _ _ Heqo) as (tsv & Htsv & Hex & Ht). simpl in Ht. subst t.
    destruct (counts_elem_of _ _ _ _ _ Hct Heqo) as (Henq & _ & _).
    split; simpl; unfold progress_ok; simpl.
    + intros j e Hj.
      apply list_lookup_insert_Some in Hj as [(-> & <- & _)|[_ Hj]]; [|eauto].
      by exists tsv.
    + done.
    + by apply counts_start.
    + apply orders_event; [|done].
      intros i'. repeat split; try done. by intros [= <-].
    + by other_event.
    + intros i' b Hb'. rewrite (stage_insert _ _ _ _ _ _ Heqo).
      case_decide; [|eauto]. subst.
      apply Hbl in Hb' as [Hb' _].
      rewrite (stage_lookup _ _ _ _ Heqo) in Hb'. simpl in Hb'. lia.
    + rewrite length_insert, taken_app, app_nil_r.
      destruct (line s); simpl in *; done.
  - (* a parse task is always defined *)
    split; simpl; unfold progress_ok; simpl; done.
  - (* a call on a column starts *)
    pose proof (Hlp _ _ Heqo) as Ht. simpl in Ht.
    pose proof (label_of_target t Ht) as Hlabel.
    split; simpl; unfold progress_ok; simpl; try done.
    + intros q e Hq.
      apply list_lookup_insert_Some in Hq as [(-> & <- & _)|[_ Hq]]; [done|eauto].
    + apply counts_log; [|done]. intros i. repeat split; congruence.
    + apply orders_log; [|done]. intros i. repeat split; congruence.
    + by other_event.
    + rewrite taken_app, app_nil_r. destruct (line s); simpl in *; done.
  - (* a call on a column is not defined *)
    split; simpl; unfold progress_ok; simpl; done.
  - (* a parse task stores its block *)
    destruct (Htk _ _ Heqo) as (tsv' & Htsv & Hex & [= <- <-]).
    destruct (counts_elem_of _ _ _ _ _ Hct Heqo) as (_ & Hstarted & _).
    split; simpl; unfold progress_ok; simpl.
    + intros j e Hj.
      apply list_lookup_insert_Some in Hj as [(-> & <- & _)|[_ Hj]]; [|eauto].
      by exists tsv.
    + done.
    + by apply counts_store.
    + apply orders_event; [|done].
      intros i'. repeat split; try done. intros [= <-]. by apply Hstarted.
    + by other_event.
    + intros i' b Hb'. rewrite (stage_insert _ _ _ _ _ _ Heqo).
      apply list_lookup_insert_Some in Hb' as [(-> & [= <-] & _)|[Hne Hb']].
      * rewrite decide_True by done. split; [simpl; lia|]. by exists tsv.
      * rewrite decide_False by done. eauto.
    + rewrite !length_insert, taken_app, app_nil_r.
      destruct (line s); simpl in *; done.
  - (* the parser dies *)
    split; simpl; unfold progress_ok; simpl; done.
  - (* no parse task in the pool of [ProcessBlock] or [Finalize] *)
    by destruct (Hlp _ _ Heqo) as [? [=]].
  - by destruct (Hlp _ _ Heqo) as [? [=]].
  - (* a parse task ends *)
    destruct (Htk _ _ Heqo) as (tsv & Htsv & Hex & Ht). simpl in Ht. subst t.
    destruct (counts_elem_of _ _ _ _ _ Hct Heqo) as (_ & Hstarted & Hstored & _).
    simpl in *.
    split; simpl; unfold progress_ok; simpl.
    + intros j e Hj.
      apply list_lookup_insert_Some in Hj as [(-> & <- & _)|[_ Hj]]; [|eauto].
      by exists tsv.
    + done.
    + by apply counts_end.
    + apply orders_event; [|done].
      intros i'. repeat split; try done; simplify_eq;
        [by apply Hstarted|apply Hstored; by left].
    + by other_event.
    + intros i' b Hb'. rewrite (stage_insert _ _ _ _ _ _ Heqo).
      case_decide; [|eauto]. split; [simpl; lia|].
      by destruct (Hbl _ _ Hb').
    + rewrite !length_insert, taken_app, app_nil_r.
      destruct (line s); simpl in *; done.
  - (* a call on a column ends *)
    pose proof (Hlp _ _ Heqo) as Ht. simpl in Ht.
    pose proof (label_of_target t Ht) as Hlabel.
    destruct (task_effect_frame t s) as (El & Ep & Elp & Etr).
    pose proof (task_effect_blocks t s) as Ebl.
    assert (float_column_indices_ (this (task_effect t s))
              = float_column_indices_ (this s) ∧
            string_column_indices_ (this (task_effect t s))
              = string_column_indices_ (this s)) as [Efi Esi]
      by (by destruct t).
    split; simpl; unfold progress_ok, parsed_from in *; simpl;
      rewrite ?El, ?Ep, ?Elp, ?Etr, ?Ebl, ?Efi, ?Esi;
      try done.
    + intros q e Hq.
      apply list_lookup_insert_Some in Hq as [(-> & <- & _)|[_ Hq]]; [done|eauto].
    + apply counts_log; [|done]. intros i. repeat split; congruence.
    + apply orders_log; [|done]. intros i. repeat split; congruence.
    + by other_event.
    + rewrite taken_app, app_nil_r. destruct (line s); simpl in *; done.
Qed.

Lemma parse_log_start (st0 : TSVDataStore float) :
  Parse_log (at_line_59 tsvs st0).
Proof.
  split; simpl; unfold progress_ok; simpl; try done.
  - intros i. repeat split; apply precedes_nil.
  - intros i tsv _. apply precedes_nil.
  - intros i b Hb. apply lookup_replicate in Hb as [? _]. done.
  - rewrite length_replicate. repeat split; lia.
Qed.

(** A load that is aborted at its entry. *)
Lemma parse_log_stopped (s : State float) :
  alive (line s) = false → line s ≠ Returned →
  pool s = [] → local_pool s = [] → blocks s = [] → trace s = [] →
  Parse_log s.
Proof.
  intros Hstop Hret Hp Hlp Hb Htr.
  split; unfold progress_ok; rewrite ?Hp, ?Hlp, ?Hb, ?Htr; try done.
  - intros i. repeat split; apply precedes_nil.
  - intros i tsv _. apply precedes_nil.
  - by destruct (line s).
Qed.

Lemma parse_log_steps (s s' : State float) :
  Parse_log s → s ~~>* s' → Parse_log s'.
Proof.
  intros Hs H. revert Hs. induction H as [|s1 s2 s3 Hstep _ IH]; [done|].
  intros Hs. by eapply IH, parse_log_step.
Qed.

(** What the record of the parse tasks says of a trace. *)
Lemma parse_log_once (s : State float) i :
  Parse_log s →
  occurrences (Enqueued (Parse i)) (trace s) ≤ 1 ∧
  occurrences (Started (Parse i)) (trace s) ≤ 1 ∧
  occurrences (Stored i) (trace s) ≤ 1 ∧
  occurrences (Ended (Parse i)) (trace s) ≤ 1.
Proof.
  intros [_ _ Hct _ _ _ _]. destruct (Hct i) as (H1 & H2 & H3 & H4).
  unfold logged_from in *. rewrite H1, H2, H3, H4. clear H1 H2 H3 H4.
  repeat split; case_decide; lia.
Qed.

Lemma parse_log_enqueued (s : State float) i :
  Parse_log s → Enqueued (Parse i) ∈ trace s →
  ∃ tsv, tsvs !! i = Some tsv ∧ FileExists tsv = true ∧
         occurs_before (Probed tsv) (Enqueued (Parse i)) (trace s).
Proof.
  intros [Htk _ Hct _ Hpr _ _] Hin. destruct (Hct i) as (H1 & _).
  unfold logged_from in H1.
  destruct (pool s !! i) as [e|] eqn:He.
  - destruct (Htk _ _ He) as (tsv & Htsv & Hex & _). exists tsv.
    split; [done|]. split; [done|]. by apply precedes_occurs; [apply Hpr|].
  - exfalso. unfold stage in H1. rewrite He in H1.
    rewrite decide_False in H1 by lia.
    apply list_elem_of_split in Hin as (pre & post & Htr).
    rewrite Htr in H1. unfold occurrences in H1.
    rewrite filter_app, filter_cons_True, length_app in H1 by done.
    simpl in H1. lia.
Qed.

Lemma parse_log_returned (s : State float) i :
  Parse_log s → line s = Returned → i < length tsvs →
  occurrences (Enqueued (Parse i)) (trace s) = 1 ∧
  occurrences (Started (Parse i)) (trace s) = 1 ∧
  occurrences (Stored i) (trace s) = 1 ∧
  occurrences (Ended (Parse i)) (trace s) = 1.
Proof.
  intros [_ _ Hct _ _ _ Hln] Hret Hi. unfold progress_ok in Hln.
  rewrite Hret in Hln. destruct Hln as (Hlen & _ & Hfin).
  destruct (lookup_lt_is_Some_2 (pool s) i) as [[t st] Ht]; [lia|].
  pose proof (all_finished_lookup _ _ _ Hfin Ht) as Hst. simpl in Hst.
  subst st. destruct (Hct i) as (H1 & H2 & H3 & H4). unfold logged_from in *.
  rewrite (stage_lookup _ _ _ _ Ht) in *. rewrite H1, H2, H3, H4.
  clear H1 H2 H3 H4. simpl.
  repeat split; by rewrite decide_True by lia.
Qed.

Lemma parse_log_taken (s : State float) :
  Parse_log s → line s = Returned → taken (trace s) = seq 0 (length tsvs).
Proof.
  intros [_ _ _ _ _ _ Hln] Hret. unfold progress_ok in Hln.
  rewrite Hret in Hln. by destruct Hln as (_ & ? & _).
Qed.


(** ** A load that goes well, further *)

Section Going_well_more.

Variable st0 : TSVDataStore float.
Hypothesis st0_well_formed : well_formed st0.
Hypothesis parser_honours_layout :
  ∀ tsv, tsv ∈ tsvs → ∃ block,
    new_TSVBlock tsv (float_column_indices_ st0) (string_column_indices_ st0)
      = Some block ∧
    length (float_columns block) = length (float_column_indices_ st0) ∧
    length (string_columns block) = length (string_column_indices_ st0).
Hypothesis files_exist : ∀ tsv, tsv ∈ tsvs → FileExists tsv = true.

Local Abbreviation Start := (at_line_59 tsvs st0).

Lemma reachable_structure (s : State float) :
  Start ~~>* s → structure new_TSVBlock tsvs st0 s.
Proof. by apply structure_reachable. Qed.

(** *** Calls on a column exclude one another *)

Lemma running_once (pl : ThreadPool float) n n' t t' st st' p :
  NoDup ((λ e, target e.1) <$> pl) →
  pl !! n = Some (t, st) → pl !! n' = Some (t', st') →
  target t = Some p → target t' = Some p → n' = n.
Proof.
  intros Hnd Hn Hn' Ht Ht'.
  eapply (NoDup_lookup _ n' n (Some p)); [done| |];
    rewrite list_lookup_fmap; [rewrite Hn'|rewrite Hn]; simpl; congruence.
Qed.

Lemma exclusive_reachable (s : State float) : Start ~~>* s → exclusive s.
Proof.
  intros H. destruct (reachable_structure s H) as [Hlay Hbl Hpl Htk Hsl Hph Hcalls].
  assert (∀ n t st p, pool s !! n = Some (t, st) → target t ≠ Some p) as Houter.
  { intros n t st p Hn. destruct (Htk _ _ Hn) as (tsv & _ & Ht).
    simpl in Ht. by subst t. }
  assert (∀ n t p, local_pool s !! n = Some (t, Running) → target t = Some p →
            is_Some (objects (this s) !! p) ∧
            NoDup ((λ e : Task float * Status, target e.1) <$> local_pool s))
    as Hinner.
  { intros n t p Hn Ht.
    destruct (line s) as [| | i b todo | todo | | | |]; simpl in *; try done.
    - destruct Hph as (_ & Hlp & _). by rewrite Hlp in Hn.
    - destruct Hph as (_ & Hfin & _).
      by pose proof (all_finished_lookup _ _ _ Hfin Hn).
    - destruct Hph as (tsv & past & Htsv & -> & Hloops & Hadds & Hobj).
      destruct (adds_of_lookup _ _ _ _ _ _ _ Hadds Hn)
        as ([k [q slot]] & v & Hit & -> & Hv).
      simpl in *. injection Ht as ->. split.
      + apply (accumulator_alive st0 st0_well_formed).
        * by rewrite Hobj, done_effects_dom, fold_blocks_dom.
        * unfold accumulators. rewrite Hloops, !fmap_app.
          apply elem_of_app. left.
          apply list_elem_of_fmap. exists (p, slot). split; [done|].
          apply list_elem_of_fmap. exists (k, (p, slot)). split; [done|].
          by eapply list_elem_of_lookup_2.
      + by eapply (adds_of_NoDup st0 st0_well_formed).
    - destruct Hph as (past & Hloops & Hfs & Hobj).
      destruct (finalizes_of_lookup _ _ _ _ _ Hfs Hn) as [Hp Hq].
      rewrite Ht in Hp. simpl in Hp. split.
      + apply (accumulator_alive st0 st0_well_formed).
        * by rewrite Hobj, done_effects_dom, fold_blocks_dom.
        * rewrite <- Finalize_loops_accumulators, Hloops.
          apply elem_of_app. left. by eapply list_elem_of_lookup_2.
      + by eapply (finalizes_of_NoDup st0 st0_well_formed).
    - destruct Hph as (_ & Hfin & _).
      by pose proof (all_finished_lookup _ _ _ Hfin Hn).
    - destruct Hph as (_ & Hfin & _).
      by pose proof (all_finished_lookup _ _ _ Hfin Hn). }
  intros w n t p Hn Ht. destruct w; simpl in Hn; [by destruct (Houter _ _ _ p Hn)|].
  destruct (Hinner _ _ _ Hn Ht) as [Halive Hnd]. split; [done|].
  intros w' n' t' Hn' Ht'.
  destruct w'; simpl in Hn'; [by destruct (Houter _ _ _ p Hn')|].
  split; [done|]. by eapply running_once.
Qed.

(** *** The state at the return *)

Lemma returned_blocks (s : State float) :
  Start ~~>* s → line s = Returned →
  blocks s = replicate (length tsvs) None.
Proof.
  intros H Hret. destruct (reachable_structure s H) as [_ Hbl _ _ Hsl _].
  rewrite Hret in Hsl. simpl in Hsl.
  apply list_eq. intros j. destruct (decide (j < length tsvs)) as [Hlt|Hge].
  - rewrite lookup_replicate_2 by done.
    destruct (lookup_lt_is_Some_2 tsvs j Hlt) as [tsv Htsv].
    destruct (Hsl j tsv Htsv) as [(? & ? & _)|[(? & ? & _)|(? & _)]];
      [lia|lia|done].
  - rewrite !(proj2 (lookup_ge_None _ _)); [done| |];
      rewrite ?length_replicate; lia.
Qed.

Lemma returned_store (s : State float) :
  Start ~~>* s → line s = Returned →
  same_layout st0 (this s) ∧
  objects (this s) = sequential_load new_TSVBlock tsvs st0.
Proof.
  intros H Hret. split.
  - by destruct (reachable_structure s H).
  - by eapply load_returns_sequential.
Qed.

(** *** Blocks are folded one at a time *)

Lemma snoc_eq_split (tr pre post : list Event) e e' :
  tr ++ [e] = pre ++ e' :: post →
  (post = [] ∧ e = e' ∧ pre = tr) ∨
  (∃ post', post = post' ++ [e] ∧ tr = pre ++ e' :: post').
Proof.
  intros Heq. destruct post as [|x post _] using rev_ind.
  - left. apply app_inj_tail in Heq as [-> ->]. done.
  - right. rewrite app_comm_cons, app_assoc in Heq.
    apply app_inj_tail in Heq as [-> ->]. by exists post.
Qed.

Lemma elem_of_taken tr j : j ∈ taken tr ↔ Took j ∈ tr.
Proof.
  unfold taken. rewrite list_elem_of_omap. split.
  - intros (e & Hin & He). destruct e; simplify_eq. done.
  - intros Hin. by exists (Took j).
Qed.

Lemma accepts_below_snoc count count' tr e :
  accepts_below count tr → count ≤ count' →
  (is_accept e → ∀ i, file_of e = Some i → i < count') →
  accepts_below count' (tr ++ [e]).
Proof.
  intros Htr Hle He e' i Hin Hacc Hfile.
  apply elem_of_app in Hin as [Hin|Hin].
  - pose proof (Htr e' i Hin Hacc Hfile). lia.
  - apply list_elem_of_singleton in Hin as ->. by apply He.
Qed.

Lemma accepts_below_mono count count' tr :
  accepts_below count tr → count ≤ count' → accepts_below count' tr.
Proof. intros Htr Hle e i Hin Hacc Hfile. pose proof (Htr e i Hin Hacc Hfile). lia. Qed.

Lemma one_at_a_time_snoc accs tr e :
  one_at_a_time accs tr →
  (∀ j, e ≠ Took j) →
  (is_accept e → ∀ i j, file_of e = Some i → j ∈ taken tr → j ≤ i) →
  one_at_a_time accs (tr ++ [e]).
Proof.
  intros Htr Hne Hacc pre j post Heq.
  apply snoc_eq_split in Heq as [(_ & -> & _)|(post' & -> & ->)];
    [by destruct (Hne j)|].
  destruct (Htr pre j post' eq_refl) as (H1 & H2 & H3).
  split; [done|]. split; [done|]. intros e' i Hin Ha Hfile.
  apply elem_of_app in Hin as [Hin|Hin]; [by eapply H3|].
  apply list_elem_of_singleton in Hin as ->.
  apply (Hacc Ha i j Hfile). apply elem_of_taken.
  apply elem_of_app. right. by left.
Qed.

Lemma one_at_a_time_took accs tr j :
  one_at_a_time accs tr →
  accepts_complete j accs tr → accepts_below j tr →
  one_at_a_time accs (tr ++ [Took j]).
Proof.
  intros Htr Hcomp Hbelow pre j' post Heq.
  apply snoc_eq_split in Heq as [(-> & [= <-] & ->)|(post' & -> & ->)].
  - split; [done|]. split; [done|]. intros e i Hin. by apply elem_of_nil in Hin.
  - destruct (Htr pre j' post' eq_refl) as (H1 & H2 & H3).
    split; [done|]. split; [done|]. intros e' i Hin Ha Hfile.
    apply elem_of_app in Hin as [Hin|Hin]; [by eapply H3|].
    apply list_elem_of_singleton in Hin as ->. done.
Qed.

Local Abbreviation Folds s :=
  (accepts_below (consumed tsvs (line s)) (trace s) ∧
   one_at_a_time (accumulators st0) (trace s)).

(** An event that is neither an [Add] nor the taking of a block. *)
Ltac quiet_event :=
  split;
  [ eapply accepts_below_snoc; [eassumption|simpl; lia|by intros []]
  | apply one_at_a_time_snoc; [done|by intros|by intros []] ].

Lemma folds_step (s s' : State float) :
  structure new_TSVBlock tsvs st0 s → chronicle tsvs st0 s → Parse_log s →
  Folds s → s ~~> s' → Folds s'.
Proof.
  intros Hs (_ & Hcomp & _) [_ _ _ _ _ _ Hln] [Hbelow Hone] H.
  unfold progress_ok in Hln.
  pose proof (structure_step _ _ _ _ st0_well_formed parser_honours_layout
                files_exist _ _ Hs H) as Hs'.
  destruct Hs as [Hlay Hbl Hpl Htk Hsl Hph Hcalls].
  step_cases H; simpl in *; try (by destruct Hs' as [_ _ _ _ _ [] _]).
  - (* line 62 *)
    split.
    + apply (accepts_below_snoc 0); [|lia|by intros []].
      apply (accepts_below_snoc 0); [done|lia|by intros []].
    + do 2 (apply one_at_a_time_snoc; [|by intros|by intros []]). done.
  - (* line 71: the block of file [i] is taken *)
    split.
    + eapply accepts_below_snoc; [eassumption|lia|by intros []].
    + by apply one_at_a_time_took.
  - (* the second loop is over *)
    destruct Hln as (Hb & _ & Hle & _). apply lookup_ge_None in Heqo.
    split; [|done]. eapply accepts_below_mono; [done|lia].
  - (* an [Add] is enqueued *)
    destruct Hln as (_ & _ & _ & Htaken & _). split.
    + eapply accepts_below_snoc; [eassumption|lia|]. intros _ i' [= <-]. lia.
    + apply one_at_a_time_snoc; [done|by intros|].
      intros _ i' j [= <-] Hj. rewrite Htaken in Hj.
      apply (proj1 (elem_of_seq 0 (S i) j)) in Hj. lia.
  - (* a [Finalize] is enqueued *)
    quiet_event.
  - (* a parse task starts *)
    destruct (Htk _ _ Heqo) as (tsv & _ & Ht). simpl in Ht. subst t.
    quiet_event.
  - (* a call on a column starts *)
    destruct (line s) as [| | i b todo | todo | | | |]; simpl in *; try done.
    + destruct Hph as (_ & Hlp & _). by rewrite Hlp in Heqo.
    + destruct Hph as (_ & Hfin & _).
      by pose proof (all_finished_lookup _ _ _ Hfin Heqo).
    + destruct Hph as (tsv & past & Htsv & -> & Hloops & Hadds & Hobj).
      destruct (adds_of_lookup _ _ _ _ _ _ _ Hadds Heqo)
        as ([k [p slot]] & v & Hit & -> & Hv).
      destruct Hln as (_ & _ & _ & Htaken & _). simpl. split.
      * eapply accepts_below_snoc; [eassumption|lia|]. intros _ i' [= <-]. lia.
      * apply one_at_a_time_snoc; [done|by intros|].
        intros _ i' j [= <-] Hj. rewrite Htaken in Hj.
        apply (proj1 (elem_of_seq 0 (S i) j)) in Hj. lia.
    + destruct Hph as (past & Hloops & Hfs & Hobj).
      destruct (finalizes_of_lookup _ _ _ _ _ Hfs Heqo) as [Hp Ht].
      rewrite Ht. simpl. quiet_event.
    + destruct Hph as (_ & Hfin & _).
      by pose proof (all_finished_lookup _ _ _ Hfin Heqo).
  - (* a parse task stores its block *)
    quiet_event.
  - (* no parse task in the pool of [ProcessBlock] or [Finalize] *)
    by destruct (Hcalls _ _ Heqo) as [[? [=]] _].
  - (* a parse task ends *)
    destruct (Htk _ _ Heqo) as (tsv & _ & Ht). simpl in Ht. subst t.
    simpl. quiet_event.
  - (* a call on a column ends *)
    pose proof (calls_end _ _ _ Hcalls Heqo) as Hends. rewrite Hends in Heqo.
    destruct (task_effect_frame t s) as (El & _ & _ & Etr).
    rewrite El, Etr.
    destruct (line s) as [| | i b todo | todo | | | |]; simpl in *; try done.
    + destruct Hph as (_ & Hlp & _). by rewrite Hlp in Heqo.
    + destruct Hph as (_ & Hfin & _).
      by pose proof (all_finished_lookup _ _ _ Hfin Heqo).
    + destruct Hph as (tsv & past & Htsv & -> & Hloops & Hadds & Hobj).
      destruct (adds_of_lookup _ _ _ _ _ _ _ Hadds Heqo)
        as ([k [p slot]] & v & Hit & -> & Hv).
      destruct Hln as (_ & _ & _ & Htaken & _). simpl. split.
      * eapply accepts_below_snoc; [eassumption|lia|]. intros _ i' [= <-]. lia.
      * apply one_at_a_time_snoc; [done|by intros|].
        intros _ i' j [= <-] Hj. rewrite Htaken in Hj.
        apply (proj1 (elem_of_seq 0 (S i) j)) in Hj. lia.
    + destruct Hph as (past & Hloops & Hfs & Hobj).
      destruct (finalizes_of_lookup _ _ _ _ _ Hfs Heqo) as [Hp Ht].
      rewrite Ht. simpl. quiet_event.
    + destruct Hph as (_ & Hfin & _).
      by pose proof (all_finished_lookup _ _ _ Hfin Heqo).
Qed.

Lemma folds_reachable (s : State float) : Start ~~>* s → Folds s.
Proof.
  intros H. revert s H. apply rtc_ind_r.
  - split.
    + intros e i Hin. by apply elem_of_nil in Hin.
    + intros pre j post Heq. by destruct pre.
  - intros s1 s2 H1 Hstep IH.
    destruct (reachable_invariants _ _ _ _ st0_well_formed
                parser_honours_layout files_exist s1 H1) as [Hs Hc].
    eapply folds_step; [done|done| |done|done].
    eapply parse_log_steps; [apply parse_log_start|done].
Qed.

End Going_well_more.

(** ** A load with a missing file, further *)

Section Missing_file_more.

Variable st0 : TSVDataStore float.
Variable k : nat.
Variable missing : string.
Hypothesis missing_at : tsvs !! k = Some missing.
Hypothesis missing_absent : FileExists missing = false.
Hypothesis earlier_exist :
  ∀ j tsv, j < k → tsvs !! j = Some tsv → FileExists tsv = true.

Local Abbreviation Start := (at_line_59 tsvs st0).
Local Abbreviation Enqueueing := (enqueueing new_TSVBlock tsvs st0 k missing).

(** The second loop is never reached: no block is taken and no column
    is called. *)
Lemma untouched_step (s s' : State float) :
  Enqueueing s → untouched st0 s → s ~~> s' → untouched st0 s'.
Proof.
  intros Henq (_ & Htaken & Hquiet) H.
  pose proof (enqueueing_step _ _ _ _ _ _ missing_at missing_absent
                earlier_exist _ _ Henq H) as (Hthis' & _).
  destruct Henq as (_ & Hlp & Htk & count & Hlen & Hle & Htr & Hline).
  destruct Hline as [Hline|[[Hline _]|(j0 & tsv0 & _ & _ & Hline & _)]];
    [|by destruct (stopped_no_step FileExists new_TSVBlock tsvs s s');
         [rewrite Hline|]..].
  unfold untouched. split; [done|]. clear Hthis'.
  step_cases H; simpl in *; try congruence; try (by rewrite Hlp in Heqo);
    try done.
  - (* line 62 *)
    split; [by rewrite !taken_app, Htaken|].
    apply Forall_app. split; [|by repeat constructor; intros []].
    apply Forall_app. split; [done|]. by repeat constructor; intros [].
  - (* line 61 fails *)
    split; [by rewrite !taken_app, Htaken|].
    apply Forall_app. split; [done|]. by repeat constructor; intros [].
  - (* a parse task starts *)
    destruct (Htk _ _ Heqo) as (tsv & _ & Ht). simpl in Ht. subst t. simpl.
    split; [by rewrite !taken_app, Htaken|].
    apply Forall_app. split; [done|]. by repeat constructor; intros [].
  - (* a parse task stores its block *)
    split; [by rewrite !taken_app, Htaken|].
    apply Forall_app. split; [done|]. by repeat constructor; intros [].
  - (* a parse task ends *)
    destruct (Htk _ _ Heqo) as (tsv & _ & Ht). simpl in Ht. subst t. simpl.
    split; [by rewrite !taken_app, Htaken|].
    apply Forall_app. split; [done|]. by repeat constructor; intros [].
Qed.

Lemma untouched_reachable (s : State float) :
  Start ~~>* s → untouched st0 s.
Proof.
  intros H. revert s H. apply rtc_ind_r.
  - by repeat split.
  - intros s1 s2 H1 Hstep IH. eapply untouched_step; [|done|done].
    by eapply enqueueing_reachable.
Qed.

End Missing_file_more.

End LoadTSVs_more.

(** The first file of a list that does not exist. *)
Lemma first_missing (FileExists : string → bool) (tsvs : list string) tsv :
  tsv ∈ tsvs → FileExists tsv = false →
  ∃ k missing, tsvs !! k = Some missing ∧ FileExists missing = false ∧
    ∀ j tsv', j < k → tsvs !! j = Some tsv' → FileExists tsv' = true.
Proof.
  induction tsvs as [|first tsvs IH]; intros Hin Hno;
    [by apply elem_of_nil in Hin|].
  destruct (FileExists first) eqn:Hfirst.
  - apply elem_of_cons in Hin as [->|Hin]; [congruence|].
    destruct (IH Hin Hno) as (k & missing & Hk & Hm & Hbefore).
    exists (S k), missing. split; [done|]. split; [done|].
    intros [|j] tsv' Hj Htsv'; simpl in Htsv'; [congruence|].
    apply (Hbefore j); [lia|done].
  - exists 0, first. split; [done|]. split; [done|]. intros j ? Hj. lia.
Qed.

(** * A load with slots that are not sound *)

Section Unsound_slots.

Context {float : Type}.
Variable FileExists : string → bool.
Variable new_TSVBlock : string → list nat → list nat → option (TSVBlock float).

Local Notation "s ~~>* s'" := (rtc (step FileExists new_TSVBlock []) s s')
  (at level 70, no associativity).

Lemma busy_true (pl : ThreadPool float) n t p :
  pl !! n = Some (t, Running) → target t = Some p → busy pl p = true.
Proof.
  intros Hn Ht. unfold busy. apply existsb_exists. exists (t, Running).
  split.
  - apply list_elem_of_In. by eapply list_elem_of_lookup_2.
  - simpl. by apply bool_decide_eq_true.
Qed.

(** The loops of [Finalize]: every entry of the vectors gets its task. *)
Lemma finalize_enqueues (s : State float) todo :
  line s = InFinalize todo →
  ∃ s', s ~~>* s' ∧ line s' = InFinalize [] ∧ this s' = this s ∧
        pool s' = pool s ∧
        local_pool s' =
          local_pool s ++ ((λ p, (FinalizeColumn p, Queued)) <$> todo).
Proof.
  revert s. induction todo as [|p todo IH]; intros s Hline.
  - exists s. split; [apply rtc_refl|]. by rewrite app_nil_r.
  - set (s1 := with_line (InFinalize todo) (Enqueue Inner (FinalizeColumn p) s)).
    destruct (IH s1 eq_refl) as (s' & Hsteps & Hl & Ht & Hp & Hlp).
    exists s'. split.
    + eapply rtc_l; [|done]. exists Main. simpl. unfold main_step.
      by rewrite Hline.
    + split; [done|]. split; [done|]. split; [done|].
      rewrite Hlp. simpl. by rewrite <- app_assoc.
Qed.

(** With no file, [LoadTSVs] goes straight to [Finalize]; there, a
    vector entry that points to a column that is gone, or two entries
    that point to the same column, lead to a call that is not
    defined. *)
Lemma unsound_slots_undefined (st : TSVDataStore float) :
  ¬ slots_sound st →
  ∃ s, at_line_59 [] st ~~>* s ∧ line s = Undefined.
Proof.
  intros Hunsound.
  set (s1 := with_line (InFinalize (Finalize_loops st))
               (with_pool Inner [] (with_line (ConsumeLoop 0)
                                      (at_line_59 [] st)))).
  assert (at_line_59 [] st ~~>* s1) as Hs1.
  { eapply rtc_l; [by exists Main|]. eapply rtc_l; [by exists Main|].
    apply rtc_refl. }
  destruct (finalize_enqueues s1 _ eq_refl) as (s2 & Hs2 & Hl2 & Ht2 & Hp2 & Hlp2).
  simpl in Ht2, Hp2, Hlp2.
  assert (∀ n p, Finalize_loops st !! n = Some p →
                 local_pool s2 !! n = Some (FinalizeColumn p, Queued)) as Htask.
  { intros n p Hn. by rewrite Hlp2, list_lookup_fmap, Hn. }
  assert (∀ p, busy (local_pool s2) p = false) as Hidle.
  { intros p. apply busy_false. intros q e Hq Hrun. rewrite Hlp2 in Hq.
    rewrite list_lookup_fmap in Hq.
    destruct (Finalize_loops st !! q); simpl in Hq; [|done].
    injection Hq as <-. done. }
  destruct (decide (Forall (λ p, is_Some (objects st !! p)) (accumulators st)))
    as [Halive|Hdead].
  - (* two entries point to the same column *)
    assert (¬ NoDup (Finalize_loops st)) as Hdup.
    { rewrite Finalize_loops_accumulators. intros Hnd. apply Hunsound.
      split; [done|]. by apply Forall_forall. }
    destruct (repeated_positions _ Hdup) as (j & n & p & Hlt & Hj & Hn).
    assert (is_Some (objects st !! p)) as [c Hc].
    { apply (proj1 (Forall_forall _ _) Halive).
      rewrite <- Finalize_loops_accumulators. by eapply list_elem_of_lookup_2. }
    set (s3 := log (Started (Finish p))
                 (with_pool Inner
                    (<[j := (FinalizeColumn p, Running)]> (local_pool s2)) s2)).
    assert (s2 ~~>* s3) as Hs3.
    { apply rtc_once. exists (WorkerStart Inner j). simpl. unfold worker_start.
      rewrite Hl2. simpl. rewrite (Htask _ _ Hj). unfold defined_start. simpl.
      replace (objects (this s2) !! p) with (Some c) by (by rewrite Ht2).
      replace (busy (pool s2) p) with false by (by rewrite Hp2).
      by rewrite Hidle. }
    exists (with_line Undefined s3). split; [|done].
    etrans; [exact Hs1|]. etrans; [exact Hs2|]. etrans; [exact Hs3|].
    apply rtc_once. exists (WorkerStart Inner n). simpl. unfold worker_start.
    simpl. rewrite Hl2. simpl.
    rewrite list_lookup_insert_ne by lia. rewrite (Htask _ _ Hn).
    unfold defined_start. simpl.
    replace (objects (this s2) !! p) with (Some c) by (by rewrite Ht2).
    replace (busy (pool s2) p) with false by (by rewrite Hp2). simpl.
    rewrite (busy_true _ j (FinalizeColumn p) p); [done| |done].
    apply list_lookup_insert_eq. by eapply lookup_lt_Some, Htask.
  - (* an entry points to a column that is gone *)
    apply not_Forall_Exists in Hdead; [|apply _].
    apply Exists_exists in Hdead as (p & Hin & Hp). simpl in Hp.
    apply eq_None_not_Some in Hp.
    rewrite <- Finalize_loops_accumulators in Hin.
    apply list_elem_of_lookup in Hin as [n Hn].
    exists (with_line Undefined s2). split; [|done].
    etrans; [exact Hs1|]. etrans; [exact Hs2|].
    apply rtc_once. exists (WorkerStart Inner n). simpl. unfold worker_start.
    rewrite Hl2. simpl. rewrite (Htask _ _ Hn). unfold defined_start. simpl.
    replace (objects (this s2) !! p) with (@None (Column float))
      by (by rewrite Ht2).
    done.
Qed.

End Unsound_slots.


(** * A block without the slot a loop of [ProcessBlock] reads *)

Section Short_block.

Context {float : Type}.
Variable FileExists : string → bool.
Variable new_TSVBlock : string → list nat → list nat → option (TSVBlock float).
Variable tsvs : list string.
Hypothesis files_exist : ∀ tsv, tsv ∈ tsvs → FileExists tsv = true.

Local Notation "s ~~>* s'" := (rtc (step FileExists new_TSVBlock tsvs) s s')
  (at level 70, no associativity).

(** The first loop of [LoadTSVs] runs to its end. *)
Lemma enqueue_rest (s : State float) i :
  line s = EnqueueLoop i →
  ∃ s' rest, s ~~>* s' ∧ line s' = ConsumeLoop 0 ∧ this s' = this s ∧
    blocks s' = blocks s ∧ local_pool s' = local_pool s ∧
    pool s' = pool s ++ rest.
Proof.
  remember (length tsvs - i) as fuel eqn:Hfuel.
  revert s i Hfuel. induction fuel as [|fuel IH]; intros s i Hfuel Hline.
  - exists (with_line (ConsumeLoop 0) s), []. split.
    + apply rtc_once. exists Main. simpl. unfold main_step. rewrite Hline.
      by rewrite (proj2 (lookup_ge_None _ _)) by lia.
    + by rewrite app_nil_r.
  - destruct (lookup_lt_is_Some_2 tsvs i) as [tsv Htsv]; [lia|].
    set (s1 := with_line (EnqueueLoop (S i))
                 (Enqueue Outer (LoadBlock tsv i) (log (Probed tsv) s))).
    destruct (IH s1 (S i)) as (s' & rest & Hsteps & Hl & Ht & Hb & Hlp & Hp);
      [lia|done|].
    exists s', ((LoadBlock tsv i, Queued) :: rest). split.
    + eapply rtc_l; [|done]. exists Main. simpl. unfold main_step.
      rewrite Hline, Htsv, files_exist; [done|].
      by eapply list_elem_of_lookup_2.
    + split; [done|]. split; [done|]. split; [done|]. split; [done|].
      rewrite Hp. simpl. by rewrite <- app_assoc.
Qed.

(** The loops of [ProcessBlock] on a block that lacks a slot. *)
Lemma process_short (s : State float) i b todo k p slot :
  line s = InProcessBlock i b todo →
  (k, (p, slot)) ∈ todo →
  bound_column k slot b = None →
  ∃ s', s ~~>* s' ∧ line s' = Undefined.
Proof.
  revert s. induction todo as [|[k' [p' slot']] todo IH]; intros s Hline Hin Hnone;
    [by apply elem_of_nil in Hin|].
  destruct (bound_column k' slot' b) as [v|] eqn:Hv.
  - apply elem_of_cons in Hin as [[= -> -> ->]|Hin]; [congruence|].
    set (s1 := with_line (InProcessBlock i b todo)
                 (Enqueue Inner (Add i p' v) s)).
    destruct (IH s1 eq_refl Hin Hnone) as (s' & Hsteps & Hl).
    exists s'. split; [|done]. eapply rtc_l; [|done].
    exists Main. simpl. unfold main_step. by rewrite Hline, Hv.
  - exists (with_line Undefined s). split; [|done].
    apply rtc_once. exists Main. simpl. unfold main_step. by rewrite Hline, Hv.
Qed.

(** The steps of a worker and of the controlling thread, when they can
    be taken. *)
Lemma worker_start_eq w n (s : State float) t :
  alive (line s) = true →
  get_pool w s !! n = Some (t, Queued) →
  defined_start t s = true →
  worker_start w n s =
    Some (log (Started (label t))
            (with_pool w (<[n := (t, Running)]> (get_pool w s)) s)).
Proof. intros Ha Hn Hd. unfold worker_start. by rewrite Ha, Hn, Hd. Qed.

Lemma worker_store_eq w n (s : State float) tsv i block :
  alive (line s) = true →
  get_pool w s !! n = Some (LoadBlock tsv i, Running) →
  new_TSVBlock tsv (float_column_indices_ (this s))
    (string_column_indices_ (this s)) = Some block →
  worker_store new_TSVBlock w n s =
    Some (log (Stored i)
            (with_pool w (<[n := (LoadBlock tsv i, Notifying)]> (get_pool w s))
               (with_blocks (<[i := Some block]> (blocks s)) s))).
Proof. intros Ha Hn Hb. unfold worker_store. by rewrite Ha, Hn, Hb. Qed.

Lemma worker_end_eq w n (s : State float) t :
  alive (line s) = true →
  get_pool w s !! n = Some (t, ends_from t) →
  worker_end w n s =
    Some (log (Ended (label t))
            (with_pool w
               (<[n := (t, Finished)]> (get_pool w (task_effect t s)))
               (task_effect t s))).
Proof.
  intros Ha Hn. unfold worker_end. rewrite Ha, Hn. by rewrite decide_True.
Qed.

Lemma main_take_eq (s : State float) i b :
  line s = ConsumeLoop i →
  blocks s !! i = Some (Some b) →
  main_step FileExists tsvs s =
    Some (with_line (InProcessBlock i b (ProcessBlock_loops (this s)))
            (with_pool Inner []
               (log (Took i) (with_blocks (<[i := None]> (blocks s)) s)))).
Proof. intros Hl Hb. unfold main_step. by rewrite Hl, Hb. Qed.

(** The block of the first file is parsed, stored and taken, while the
    task that has parsed it has still to end. *)
Lemma first_block_taken (st : TSVDataStore float) first block :
  tsvs !! 0 = Some first →
  new_TSVBlock first (float_column_indices_ st) (string_column_indices_ st)
    = Some block →
  ∃ s, at_line_59 tsvs st ~~>* s ∧
    line s = InProcessBlock 0 block (ProcessBlock_loops st) ∧
    pool s !! 0 = Some (LoadBlock first 0, Notifying) ∧
    Took 0 ∈ trace s.
Proof.
  intros Hfirst Hblock.
  set (s1 := with_line (EnqueueLoop 1)
               (Enqueue Outer (LoadBlock first 0)
                  (log (Probed first) (at_line_59 tsvs st)))).
  assert (at_line_59 tsvs st ~~>* s1) as H1.
  { apply rtc_once. exists Main. simpl. unfold main_step. simpl.
    rewrite Hfirst, files_exist; [done|]. by eapply list_elem_of_lookup_2. }
  destruct (enqueue_rest s1 1 eq_refl)
    as (s2 & rest & H2 & Hl2 & Ht2 & Hb2 & Hlp2 & Hp2).
  simpl in Ht2, Hb2, Hlp2, Hp2.
  set (t := LoadBlock (float:=float) first 0).
  set (s3 := log (Started (label t))
               (with_pool Outer (<[0 := (t, Running)]> (get_pool Outer s2)) s2)).
  assert (s2 ~~>* s3) as H3.
  { apply rtc_once. exists (WorkerStart Outer 0).
    apply (worker_start_eq Outer 0 s2 t);
      [by rewrite Hl2|by simpl; rewrite Hp2|done]. }
  set (s4 := log (Stored 0)
               (with_pool Outer (<[0 := (t, Notifying)]> (get_pool Outer s3))
                  (with_blocks (<[0 := Some block]> (blocks s3)) s3))).
  assert (s3 ~~>* s4) as H4.
  { apply rtc_once. exists (WorkerStore Outer 0).
    apply (worker_store_eq Outer 0 s3 first 0 block);
      [by simpl; rewrite Hl2|by simpl; rewrite Hp2|by simpl; rewrite Ht2]. }
  assert (line s4 = ConsumeLoop 0) as Hl4 by done.
  assert (this s4 = st) as Ht4 by done.
  assert (blocks s4 !! 0 = Some (Some block)) as Hb4.
  { simpl. rewrite Hb2. apply list_lookup_insert_eq. rewrite length_replicate.
    by eapply lookup_lt_Some. }
  set (s5 := with_line (InProcessBlock 0 block (ProcessBlock_loops (this s4)))
               (with_pool Inner []
                  (log (Took 0) (with_blocks (<[0 := None]> (blocks s4)) s4)))).
  assert (s4 ~~>* s5) as H5.
  { apply rtc_once. exists Main. by apply main_take_eq. }
  exists s5. split; [|split; [|split]].
  - etrans; [exact H1|]. etrans; [exact H2|]. etrans; [exact H3|].
    etrans; [exact H4|]. done.
  - simpl. by rewrite Ht2.
  - simpl. rewrite Hp2. done.
  - simpl. apply elem_of_app. right. by left.
Qed.

(** When the block of the first file lacks a slot, a loop of
    [ProcessBlock] reads past the end of its columns. *)
Lemma short_block_undefined (st : TSVDataStore float) first block k p slot :
  tsvs !! 0 = Some first →
  new_TSVBlock first (float_column_indices_ st) (string_column_indices_ st)
    = Some block →
  (k, (p, slot)) ∈ ProcessBlock_loops st →
  bound_column k slot block = None →
  ∃ s, at_line_59 tsvs st ~~>* s ∧ line s = Undefined.
Proof.
  intros Hfirst Hblock Hin Hnone.
  destruct (first_block_taken st first block Hfirst Hblock)
    as (s5 & H5 & Hl5 & _).
  destruct (process_short s5 0 block (ProcessBlock_loops st) k p slot Hl5)
    as (s6 & H6 & Hl6); [done|done|].
  exists s6. split; [|done]. by etrans.
Qed.

End Short_block.
(** * From the entry of [LoadTSVs] *)

Section Entry.

Context {float : Type}.
Variable ReadFile : string → option string.
Variable split : string → list string.
Variable TrimWhiteSpace : string → string.
Variable new_column : gmap addr (Column float) → addr.
Variable FileExists : string → bool.
Variable new_TSVBlock : string → list nat → list nat → option (TSVBlock float).

Local Abbreviation Setup :=
  (SetupColumns ReadFile split TrimWhiteSpace new_column).
Local Abbreviation Entry :=
  (LoadTSVs_entry ReadFile split TrimWhiteSpace new_column).

Lemma entry_at_line_59 header_file tsvs config st :
  Setup header_file config empty_store = Ok st →
  Entry header_file tsvs config = at_line_59 tsvs st.
Proof. intros H. unfold LoadTSVs_entry. by rewrite H. Qed.

Lemma entry_died header_file tsvs config e :
  Setup header_file config empty_store = Died e →
  Entry header_file tsvs config =
    {| line := Aborted e; this := empty_store; blocks := [];
       pool := []; local_pool := []; trace := [] |}.
Proof. intros H. unfold LoadTSVs_entry. by rewrite H. Qed.

(** The record of the parse tasks holds from the entry on, whatever
    the header and the configuration. *)
Lemma entry_parse_log header_file tsvs config s :
  rtc (step FileExists new_TSVBlock tsvs) (Entry header_file tsvs config) s →
  parse_log FileExists new_TSVBlock tsvs s.
Proof.
  intros H. eapply parse_log_steps; [|exact H].
  unfold LoadTSVs_entry.
  destruct (Setup header_file config empty_store) as [st|e].
  - apply parse_log_start.
  - by apply parse_log_stopped.
Qed.

(** What the lemmas on a load that goes well assume, for the store
    [SetupColumns] builds. *)
Lemma going_well header_file (tsvs : list string) config st :
  Setup header_file config empty_store = Ok st →
  NoDup (configured_names config) →
  fresh_allocator new_column →
  honours_layout new_TSVBlock →
  Forall (λ tsv, FileExists tsv = true) tsvs →
  well_formed st ∧
  (∀ tsv, tsv ∈ tsvs → ∃ block,
     new_TSVBlock tsv (float_column_indices_ st) (string_column_indices_ st)
       = Some block ∧
     length (float_columns block) = length (float_column_indices_ st) ∧
     length (string_columns block) = length (string_column_indices_ st)) ∧
  (∀ tsv, tsv ∈ tsvs → FileExists tsv = true).
Proof.
  intros Hst Hnd Hfresh Hparser Hfiles. split; [|split].
  - by eapply SetupColumns_well_formed.
  - intros tsv _. apply Hparser.
  - by apply Forall_forall.
Qed.

(** Two stores with the same vectors and the same columns are the same
    store. *)
Lemma same_layout_eq2 (st st1 st2 : TSVDataStore float) :
  same_layout st st1 → same_layout st st2 → objects st1 = objects st2 →
  st1 = st2.
Proof.
  destruct st, st1, st2. simpl.
  intros (?&?&?&?&?&?) (?&?&?&?&?&?) ?. simpl in *. by subst.
Qed.

(** A column that has been fed the blocks and finalized. *)
Lemma feed_loaded k name slot (bs : list (TSVBlock float)) :
  Column_Finalize (feed k name slot bs) = loaded_column k name slot bs.
Proof.
  destruct (feed_fields k name slot bs) as (Hk & Hn & Hf).
  unfold loaded_column, float_rows, string_rows.
  destruct (decide (k = StringKind)) as [->|Hne].
  - destruct (feed_strings name slot bs) as [Hs Hfl].
    revert Hk Hn Hf Hs Hfl. generalize (feed StringKind name slot bs).
    intros [? ? ? ? ?]. simpl. by intros -> -> -> -> ->.
  - destruct (feed_floats k name slot bs Hne) as [Hfl Hs].
    revert Hk Hn Hf Hs Hfl. generalize (feed k name slot bs).
    intros [? ? ? ? ?]. simpl. intros -> -> -> -> ->. by destruct k.
Qed.

End Entry.
(** * The scenarios, further *)

Module Scenario_more.

Import Scenario Scenario_facts.

(** ** Trimming twice is trimming once *)

Lemma trim_right_cons c rest :
  trim_right (String c rest) =
    match trim_right rest with
    | EmptyString => if is_space c then EmptyString else String c EmptyString
    | kept => String c kept
    end.
Proof. done. Qed.

Lemma trim_right_idem s : trim_right (trim_right s) = trim_right s.
Proof.
  induction s as [|c rest IH]; [done|]. rewrite trim_right_cons.
  destruct (trim_right rest) as [|a kept] eqn:E.
  - destruct (is_space c) eqn:Hc; [done|].
    rewrite trim_right_cons. simpl. by rewrite Hc.
  - rewrite trim_right_cons, IH. done.
Qed.

(** A string that does not begin with a space is left as it is by
    [trim_left], and still does not begin with a space once trimmed on
    the right. *)
Lemma trim_left_clean s :
  (∀ c rest, s = String c rest → is_space c = false) → trim_left s = s.
Proof.
  destruct s as [|c rest]; [done|]. intros H. simpl.
  by rewrite (H c rest eq_refl).
Qed.

Lemma trim_left_begins s c rest :
  trim_left s = String c rest → is_space c = false.
Proof.
  induction s as [|a s IH]; [done|]. simpl.
  destruct (is_space a) eqn:Ha; [done|]. by intros [= <- _].
Qed.

Lemma trim_right_begins s c rest :
  (∀ c' rest', s = String c' rest' → is_space c' = false) →
  trim_right s = String c rest → is_space c = false.
Proof.
  destruct s as [|a s]; [done|]. intros H. rewrite trim_right_cons.
  pose proof (H a s eq_refl) as Ha.
  destruct (trim_right s); rewrite ?Ha; by intros [= <- _].
Qed.

Lemma TrimWhiteSpace_idem s :
  TrimWhiteSpace (TrimWhiteSpace s) = TrimWhiteSpace s.
Proof.
  unfold TrimWhiteSpace. rewrite (trim_left_clean (trim_right (trim_left s))).
  - apply trim_right_idem.
  - intros c rest. apply trim_right_begins. intros c' rest'.
    apply trim_left_begins.
Qed.

(** ** The scenario of the two files *)

Lemma two_files_resolved {float : Type} :
  SetupColumns (float:=float) (ReadFile two_files) (split_on tab)
    TrimWhiteSpace new_column "header.tsv" xy_label empty_store
  = Ok (resolved two_files xy_label).
Proof. vm_compute. reflexivity. Qed.

Lemma xy_label_distinct : NoDup (configured_names xy_label).
Proof. apply (bool_decide_unpack _). vm_compute. exact I. Qed.

Lemma two_files_exist :
  Forall (λ tsv, FileExists two_files tsv = true) ["a.tsv"; "b.tsv"].
Proof. repeat constructor. Qed.

(** The load of the two files can be run to its return. *)
Lemma two_files_return :
  ∃ s, steps as_text two_files ["a.tsv"; "b.tsv"]
         (entry two_files ["a.tsv"; "b.tsv"] xy_label) s ∧
       line s = Returned.
Proof.
  destruct (going_well (ReadFile two_files) (split_on tab) TrimWhiteSpace
              new_column (FileExists two_files) (new_TSVBlock as_text two_files)
              "header.tsv" ["a.tsv"; "b.tsv"] xy_label _ two_files_resolved
              xy_label_distinct new_column_fresh
              (new_TSVBlock_honours_layout as_text two_files) two_files_exist)
    as (Hwf & Hblocks & Hexist).
  unfold steps, entry.
  rewrite (entry_at_line_59 _ _ _ _ _ _ _ _ two_files_resolved).
  eapply structure_returns; [done..|]. by apply structure_start.
Qed.

End Scenario_more.
(** * The properties of the specification *)

Section Resolution.

Context {float : Type}.
Variable ReadFile : string → option string.
Variable split : string → list string.
Variable TrimWhiteSpace : string → string.
Variable new_column : gmap addr (Column float) → addr.

Local Abbreviation Setup :=
  (SetupColumns ReadFile split TrimWhiteSpace new_column).
Local Abbreviation headers_of := (trimmed_headers split TrimWhiteSpace).

(** C4.  When the header has every configured name, [SetupColumns]
    succeeds; [float_column_indices_] holds, for the binned names then
    the raw names in the order of the configuration, a position of the
    header where that name is, and [string_column_indices_] does the
    same for the string names; the slots of the binned columns are
    [0, 1, ...], those of the raw columns follow them, and those of the
    string columns are [0, 1, ...]: the slot of a column is its position
    in the index vector of its type. *)
Theorem schema_resolution_positions header_file contents config :
  ReadFile header_file = Some contents →
  Forall (λ name, name ∈ headers_of contents) (configured_names config) →
  ∃ st, Setup header_file config empty_store = Ok st ∧
    Forall2 (λ name index, headers_of contents !! index = Some name)
      (binned_float_column config ++ raw_float_column config)
      (float_column_indices_ st) ∧
    Forall2 (λ name index, headers_of contents !! index = Some name)
      (string_column config) (string_column_indices_ st) ∧
    (binned_float_columns_ st).*2 = seq 0 (length (binned_float_column config)) ∧
    (raw_float_columns_ st).*2 =
      seq (length (binned_float_column config))
        (length (raw_float_column config)) ∧
    (string_columns_ st).*2 = seq 0 (length (string_column config)).
Proof.
  intros Hread Hall. rewrite Forall_forall in Hall.
  destruct (SetupColumns_succeeds ReadFile split TrimWhiteSpace new_column
              header_file contents config empty_store Hread Hall) as [st Hst].
  exists st. split; [done|].
  destruct (SetupColumns_layout _ _ _ _ _ _ _ _ Hread Hst)
    as (psB & psR & psS & HF & HS & HlB & HlR & HlS & -> & -> & ->).
  split; [|split; [|split; [|split]]].
  - eapply Forall2_impl; [exact HF|]. intros name index Hl.
    by apply last_position_Some in Hl as [? _].
  - eapply Forall2_impl; [exact HS|]. intros name index Hl.
    by apply last_position_Some in Hl as [? _].
  - apply snd_zip. rewrite length_seq. lia.
  - apply snd_zip. rewrite length_seq. lia.
  - apply snd_zip. rewrite length_seq. lia.
Qed.

(** C9.  Whatever [SetupColumns] resolves a configured name to is the
    position of the last occurrence of the name in the header: when the
    header has the name more than once, the later entry has overwritten
    the earlier ones in the map. *)
Theorem duplicate_header_last_wins header_file contents config st :
  ReadFile header_file = Some contents →
  Setup header_file config empty_store = Ok st →
  Forall2 (last_at (headers_of contents))
    (binned_float_column config ++ raw_float_column config)
    (float_column_indices_ st) ∧
  Forall2 (last_at (headers_of contents))
    (string_column config) (string_column_indices_ st).
Proof.
  intros Hread Hst.
  destruct (SetupColumns_layout _ _ _ _ _ _ _ _ Hread Hst)
    as (psB & psR & psS & HF & HS & _).
  split; (eapply Forall2_impl; [eassumption|]);
    intros name index Hl; by apply last_position_Some.
Qed.

(** C5.  When a configured name is not in the header, [SetupColumns]
    dies on such a name, and [LoadTSVs] with it: the load is aborted at
    its entry, with nothing in the trace (no file probed, no task
    enqueued), and nothing happens afterwards. *)
Theorem missing_name_aborts_before_io
    (FileExists : string → bool)
    (new_TSVBlock : string → list nat → list nat → option (TSVBlock float))
    header_file contents tsvs config name :
  ReadFile header_file = Some contents →
  name ∈ configured_names config →
  name ∉ headers_of contents →
  let entry := LoadTSVs_entry ReadFile split TrimWhiteSpace new_column
                 header_file tsvs config in
  ∃ absent, absent ∈ configured_names config ∧
    (absent ∉ headers_of contents) ∧
    Setup header_file config empty_store = Died (FailedToFind absent) ∧
    line entry = Aborted (FailedToFind absent) ∧
    trace entry = [] ∧
    (∀ s, rtc (step FileExists new_TSVBlock tsvs) entry s → s = entry).
Proof.
  intros Hread Hin Hnotin entry. subst entry. unfold LoadTSVs_entry.
  destruct (Setup header_file config empty_store) as [st|e] eqn:Hst.
  - exfalso.
    destruct (SetupColumns_layout _ _ _ _ _ _ _ _ Hread Hst)
      as (_ & _ & _ & HF & HS & _).
    assert (∀ names idxs,
              Forall2 (λ name idx,
                last_position name (headers_of contents) = Some idx) names idxs →
              name ∉ names) as Hres.
    { intros names idxs H2 Hn.
      apply list_elem_of_lookup in Hn as [n Hn].
      destruct (Forall2_lookup_l _ _ _ _ _ H2 Hn) as (idx & _ & Hl).
      apply last_position_Some in Hl as [Hl _].
      apply Hnotin. by eapply list_elem_of_lookup_2. }
    unfold configured_names in Hin. rewrite app_assoc in Hin.
    apply elem_of_app in Hin as [Hin|Hin];
      [by apply (Hres _ _ HF)|by apply (Hres _ _ HS)].
  - destruct (SetupColumns_dies _ _ _ _ _ _ _ _ _ Hread Hst)
      as (absent & -> & Habs & Hnot).
    exists absent. repeat split; try done.
    intros s Hsteps. by eapply stopped_no_steps.
Qed.

(** C6 (what the code does).  When a name is configured twice, each
    occurrence gets its slot and its entry in the index vector, and a
    column is allocated for each; but the second [reset] on the same
    entry of [column_map_] destroys the column of the first occurrence,
    which the per-kind vector still points to. *)
Theorem duplicate_name_destroys_first_column header_file contents name index :
  fresh_allocator new_column →
  ReadFile header_file = Some contents →
  last_position name (headers_of contents) = Some index →
  let config := {| binned_float_column := [name; name];
                   raw_float_column := []; string_column := [] |} in
  ∃ st p1 p2, Setup header_file config empty_store = Ok st ∧
    binned_float_columns_ st = [(p1, 0); (p2, 1)] ∧
    float_column_indices_ st = [index; index] ∧
    p1 ≠ p2 ∧
    objects st !! p1 = None ∧
    objects st !! p2 = Some (new_Column BinnedFloat name) ∧
    column_map_ st !! name = Some p2.
Proof.
  intros Hfresh Hread Hlast config.
  rewrite (SetupColumns_unfold _ _ _ _ _ _ _ _ Hread). simpl.
  rewrite !header_map_lookup, Hlast. simpl.
  rewrite lookup_empty, lookup_insert_eq. simpl.
  set (p1 := new_column ∅).
  set (p2 := new_column (<[p1 := new_Column BinnedFloat name]> ∅)).
  assert (p1 ≠ p2) as Hne.
  { intros Heq. pose proof (Hfresh (<[p1 := new_Column BinnedFloat name]> ∅)) as Hf.
    fold p2 in Hf. rewrite <- Heq, lookup_insert_eq in Hf. done. }
  eexists _, p1, p2. split; [done|]. simpl.
  split; [done|]. split; [done|]. split; [done|].
  split; [|split].
  - apply lookup_delete_eq.
  - rewrite lookup_delete_ne by done. apply lookup_insert_eq.
  - apply lookup_insert_eq.
Qed.

End Resolution.

(** C8.  Two resolutions of the same configuration against header files
    of the same contents, whatever the addresses the allocator hands
    out in each, end the same way, and when they succeed they leave the
    same index vectors and the same slots. *)
Theorem resolution_is_deterministic {float : Type}
    (ReadFile1 ReadFile2 : string → option string)
    (split : string → list string) (TrimWhiteSpace : string → string)
    (new_column1 new_column2 : gmap addr (Column float) → addr)
    (header_file1 header_file2 : string) (config : TSVDataConfig) :
  ReadFile1 header_file1 = ReadFile2 header_file2 →
  match SetupColumns ReadFile1 split TrimWhiteSpace new_column1
          header_file1 config empty_store,
        SetupColumns ReadFile2 split TrimWhiteSpace new_column2
          header_file2 config empty_store with
  | Ok st1, Ok st2 =>
      float_column_indices_ st1 = float_column_indices_ st2 ∧
      string_column_indices_ st1 = string_column_indices_ st2 ∧
      (binned_float_columns_ st1).*2 = (binned_float_columns_ st2).*2 ∧
      (raw_float_columns_ st1).*2 = (raw_float_columns_ st2).*2 ∧
      (string_columns_ st1).*2 = (string_columns_ st2).*2
  | Died e1, Died e2 =>
      (e1 = HeaderUnreadable header_file1 ∧ e2 = HeaderUnreadable header_file2) ∨
      (∃ name, e1 = FailedToFind name ∧ e2 = FailedToFind name)
  | _, _ => False
  end.
Proof.
  intros Hsame.
  pose proof (SetupColumns_outcome ReadFile1 ReadFile2 split TrimWhiteSpace
                new_column1 new_column2 header_file1 header_file2 config
                empty_store empty_store Hsame) as Hout.
  destruct (SetupColumns ReadFile1 _ _ new_column1 _ _ _) as [st1|e1] eqn:E1;
    destruct (SetupColumns ReadFile2 _ _ new_column2 _ _ _) as [st2|e2] eqn:E2;
    try done.
  destruct (ReadFile1 header_file1) as [contents|] eqn:H1;
    [|by unfold SetupColumns in E1; rewrite H1 in E1].
  symmetry in Hsame.
  destruct (SetupColumns_layout _ _ _ _ _ _ _ _ H1 E1)
    as (psB & psR & psS & HF & HS & HlB & HlR & HlS & -> & -> & ->).
  destruct (SetupColumns_layout _ _ _ _ _ _ _ _ Hsame E2)
    as (psB' & psR' & psS' & HF' & HS' & HlB' & HlR' & HlS' & -> & -> & ->).
  assert (∀ names (l1 l2 : list nat),
            Forall2 (λ name idx,
              last_position name (trimmed_headers split TrimWhiteSpace contents)
                = Some idx) names l1 →
            Forall2 (λ name idx,
              last_position name (trimmed_headers split TrimWhiteSpace contents)
                = Some idx) names l2 →
            l1 = l2) as Hfun.
  { intros names l1 l2 Ha. revert l2.
    induction Ha as [|name idx names l1 Hn _ IH]; intros l2 Hb.
    - by apply Forall2_nil_inv_l in Hb.
    - apply Forall2_cons_inv_l in Hb as (idx' & l2' & Hn' & Hb & ->).
      f_equal; [congruence|by apply IH]. }
  split; [by eapply Hfun|]. split; [by eapply Hfun|].
  rewrite !snd_zip by (rewrite length_seq; lia). done.
Qed.

(** ** The pipeline *)

Section Pipeline.

Context {float : Type}.
Variable ReadFile : string → option string.
Variable split : string → list string.
Variable TrimWhiteSpace : string → string.
Variable new_column : gmap addr (Column float) → addr.
Variable FileExists : string → bool.
Variable new_TSVBlock : string → list nat → list nat → option (TSVBlock float).

Local Abbreviation Setup :=
  (SetupColumns ReadFile split TrimWhiteSpace new_column).
Local Abbreviation Entry :=
  (LoadTSVs_entry ReadFile split TrimWhiteSpace new_column).
Local Abbreviation Steps tsvs := (rtc (step FileExists new_TSVBlock tsvs)).

Lemma entry_ok header_file tsvs config st :
  Setup header_file config empty_store = Ok st →
  Entry header_file tsvs config = at_line_59 tsvs st.
Proof. intros H. unfold LoadTSVs_entry. by rewrite H. Qed.

Lemma honours_layout_blocks (tsvs : list string) (st : TSVDataStore float) :
  honours_layout new_TSVBlock →
  ∀ tsv, tsv ∈ tsvs → ∃ block,
    new_TSVBlock tsv (float_column_indices_ st) (string_column_indices_ st)
      = Some block ∧
    length (float_columns block) = length (float_column_indices_ st) ∧
    length (string_columns block) = length (string_column_indices_ st).
Proof. intros H tsv _. apply H. Qed.


(** The hypotheses of a load that goes well, for the lemmas on the
    store [SetupColumns] builds. *)
Lemma load_hypotheses header_file (tsvs : list string) config st :
  Setup header_file config empty_store = Ok st →
  NoDup (configured_names config) →
  fresh_allocator new_column →
  honours_layout new_TSVBlock →
  Forall (λ tsv, FileExists tsv = true) tsvs →
  well_formed st ∧
  (∀ tsv, tsv ∈ tsvs → ∃ block,
     new_TSVBlock tsv (float_column_indices_ st) (string_column_indices_ st)
       = Some block ∧
     length (float_columns block) = length (float_column_indices_ st) ∧
     length (string_columns block) = length (string_column_indices_ st)) ∧
  (∀ tsv, tsv ∈ tsvs → FileExists tsv = true).
Proof.
  intros Hst Hnd Hfresh Hparser Hfiles. split; [|split].
  - by eapply SetupColumns_well_formed.
  - by apply honours_layout_blocks.
  - by apply Forall_forall.
Qed.


Lemma no_file_no_event (e : Event) :
  is_parse e ∨ is_accept e → ∃ i, file_of e = Some i.
Proof. destruct e as [|[]|[]|[]| |]; intros [[]|[]]; by eexists. Qed.

(** C10.  With no file, in a load whose header and configuration are
    in order, whatever the schedule: no parse task and no [Add] is
    enqueued, started or ended, and no block is stored; the load can always be run to its
    return; and by then [Finalize] has started once and ended once on
    every column, which is as its constructor left it but for that one
    call. *)
Theorem empty_file_list_finalizes header_file config st :
  Setup header_file config empty_store = Ok st →
  NoDup (configured_names config) →
  fresh_allocator new_column →
  ∀ s, Steps [] (Entry header_file [] config) s →
    Forall (λ e, ¬ is_parse e ∧ ¬ is_accept e) (trace s) ∧
    (∃ s', Steps [] s s' ∧ line s' = Returned) ∧
    (line s = Returned →
     ∀ k p slot, (k, (p, slot)) ∈ ProcessBlock_loops st →
       occurrences (Started (Finish p)) (trace s) = 1 ∧
       occurrences (Ended (Finish p)) (trace s) = 1 ∧
       ∃ name, objects (this s) !! p = Some (Column_Finalize (new_Column k name))).
Proof.
  intros Hst Hnd Hfresh s.
  pose proof (SetupColumns_well_formed _ _ _ _ _ _ _ Hfresh Hnd Hst) as Hwf.
  assert (∀ tsv : string, tsv ∈ [] → ∃ block,
            new_TSVBlock tsv (float_column_indices_ st)
              (string_column_indices_ st) = Some block ∧
            length (float_columns block) = length (float_column_indices_ st) ∧
            length (string_columns block)
              = length (string_column_indices_ st)) as Hblocks
    by (intros tsv Hin; by apply elem_of_nil in Hin).
  assert (∀ tsv : string, tsv ∈ [] → FileExists tsv = true) as Hexist
    by (intros tsv Hin; by apply elem_of_nil in Hin).
  rewrite (entry_ok _ _ _ _ Hst). intros Hsteps.
  split; [|split].
  - apply Forall_forall. intros e Hin.
    assert (∀ i, file_of e ≠ Some i) as Hnone.
    { intros i Hi.
      pose proof (load_events_of_files FileExists new_TSVBlock [] st Hwf
                    Hblocks Hexist s e i Hsteps Hin Hi) as Hlt.
      simpl in Hlt. lia. }
    split; intros He;
      [destruct (no_file_no_event e (or_introl He)) as [i Hi]
      |destruct (no_file_no_event e (or_intror He)) as [i Hi]];
      by apply (Hnone i).
  - eapply structure_returns; [done..|]. by eapply structure_reachable.
  - intros Hret k p slot Hloop.
    assert (p ∈ accumulators st) as Hp.
    { unfold accumulators. apply list_elem_of_fmap. exists (p, slot).
      split; [done|]. apply list_elem_of_fmap. by exists (k, (p, slot)). }
    destruct (load_finalizes_once FileExists new_TSVBlock [] st Hwf Hblocks
                Hexist s p Hsteps Hret Hp) as [Hs He].
    split; [done|]. split; [done|].
    rewrite (load_returns_sequential FileExists new_TSVBlock [] st
               Hwf Hblocks Hexist s Hsteps Hret).
    destruct (sequential_load_lookup new_TSVBlock [] st _ _ _ Hwf Hloop)
      as (name & _ & ->).
    by exists name.
Qed.

(** C2 (as amended).  When file [k] is the first one that does not
    exist, whatever the schedule: the load neither returns nor runs
    into undefined behaviour; no parse task is ever enqueued for that
    file or for a later one; when the load is aborted, it is either by
    the check of line 61 on that file, the parse tasks of all the files
    before it having been enqueued by then, or by the parser, which has
    died on one of the files before it; as long as the load is not
    aborted, the controlling thread can be run to the failure of that
    check, whatever the parse tasks have done; and a load that can go
    no further has been aborted. *)
Theorem missing_file_aborts_at_its_check header_file tsvs config st k missing :
  Setup header_file config empty_store = Ok st →
  tsvs !! k = Some missing →
  FileExists missing = false →
  (∀ j tsv, j < k → tsvs !! j = Some tsv → FileExists tsv = true) →
  ∀ s, Steps tsvs (Entry header_file tsvs config) s →
    line s ≠ Returned ∧ line s ≠ Undefined ∧
    (∀ j, Enqueued (Parse j) ∈ trace s → j < k) ∧
    (∀ e, line s = Aborted e →
       e = DoesNotExist missing ∧
         (∀ j, j < k → Enqueued (Parse j) ∈ trace s) ∨
       ∃ j tsv, j < k ∧ tsvs !! j = Some tsv ∧ e = ParseError tsv ∧
         new_TSVBlock tsv (float_column_indices_ st)
           (string_column_indices_ st) = None) ∧
    ((∀ e, line s ≠ Aborted e) →
       ∃ s', Steps tsvs s s' ∧ line s' = Aborted (DoesNotExist missing)) ∧
    ((∀ s', ¬ step FileExists new_TSVBlock tsvs s s') →
       ∃ e, line s = Aborted e).
Proof.
  intros Hst Hk Hmissing Hearlier s. rewrite (entry_ok _ _ _ _ Hst).
  intros Hsteps.
  pose proof (enqueueing_reachable FileExists new_TSVBlock tsvs st k missing
                Hk Hmissing Hearlier s Hsteps) as Henq.
  destruct (enqueueing_line new_TSVBlock tsvs st k missing s Henq)
    as (H1 & H2 & H3 & H4).
  assert ((∀ e, line s ≠ Aborted e) →
          ∃ s', Steps tsvs s s' ∧ line s' = Aborted (DoesNotExist missing))
    as H5 by (intros Halive; by eapply enqueueing_aborts).
  split; [done|]. split; [done|]. split; [done|]. split; [done|].
  split; [done|].
  intros Hstuck. destruct (line s) as [| | | | | |e|] eqn:Hline;
    try (by exists e);
    (destruct H5 as (s' & Hs' & Hline'); [done|];
     destruct Hs' as [|s1 s2 s3 Hstep _]; [congruence|];
     by destruct (Hstuck _ Hstep)).
Qed.

End Pipeline.

(** ** The scenarios *)

Import Scenario Scenario_facts.

(** C7.  The scenario of the specification: with the header
    [id x y label], the raw numeric columns [x] and [y], the string
    column [label], and the one-row files [1 0.5 1.2 A] and
    [2 0.7 0.9 B] in that order, whatever the schedule, the load
    neither aborts nor runs into undefined behaviour and can always be
    run to its return; on return column [x] is [0.5, 0.7], column [y]
    is [1.2, 0.9] and column [label] is [A, B], each finalized once.
    The numbers are what the conversion makes of the fields. *)
Theorem scenario_two_files {float : Type} (atof : string → float) :
  ∀ s, steps atof two_files ["a.tsv"; "b.tsv"]
         (entry two_files ["a.tsv"; "b.tsv"] xy_label) s →
    (∀ e, line s ≠ Aborted e) ∧ line s ≠ Undefined ∧
    (∃ s', steps atof two_files ["a.tsv"; "b.tsv"] s s' ∧ line s' = Returned) ∧
    (line s = Returned →
       column_named (this s) "x" =
         Some {| col_kind := RawFloat; col_name := "x";
                 col_floats := [atof "0.5"; atof "0.7"]; col_strings := [];
                 col_finalized := 1 |} ∧
       column_named (this s) "y" =
         Some {| col_kind := RawFloat; col_name := "y";
                 col_floats := [atof "1.2"; atof "0.9"]; col_strings := [];
                 col_finalized := 1 |} ∧
       column_named (this s) "label" =
         Some {| col_kind := StringKind; col_name := "label";
                 col_floats := []; col_strings := ["A"; "B"];
                 col_finalized := 1 |}).
Proof.
  intros s. unfold steps, entry.
  assert (resolve (float:=float) two_files xy_label
          = Ok (resolved two_files xy_label)) as Hst
    by (vm_compute; reflexivity).
  unfold resolve in Hst.
  assert (NoDup (configured_names xy_label)) as Hnd
    by (apply (bool_decide_unpack _); vm_compute; exact I).
  assert (Forall (λ tsv, FileExists two_files tsv = true) ["a.tsv"; "b.tsv"])
    as Hfiles by (repeat constructor).
  destruct (load_hypotheses (ReadFile two_files) (split_on tab) TrimWhiteSpace
              new_column (FileExists two_files) (new_TSVBlock atof two_files)
              "header.tsv" ["a.tsv"; "b.tsv"] xy_label _ Hst Hnd
              new_column_fresh (new_TSVBlock_honours_layout atof two_files)
              Hfiles) as (Hwf & Hblocks & Hexist).
  rewrite (entry_ok _ _ _ _ _ _ _ _ Hst). intros Hsteps.
  destruct (load_goes_well _ _ _ _ Hwf Hblocks Hexist s Hsteps) as [Hab Hub].
  split; [done|]. split; [done|]. split.
  - eapply structure_returns; [done..|]. by eapply structure_reachable.
  - intros Hret. unfold column_named.
    destruct (steps_layout _ _ _ _ _ Hsteps) as (-> & _). simpl.
    rewrite (load_returns_sequential _ _ _ _ Hwf Hblocks Hexist s Hsteps Hret).
    vm_compute. done.
Qed.

(** C2 (as stated) fails: with the files [a.tsv], which exists, and
    [missing.tsv], which does not, the check of line 61 fails on the
    second file once the parse task of the first one is enqueued. *)
Lemma missing_file_after_submission :
  ¬ aborts_before_any_submission
      (FileExists two_files) (new_TSVBlock as_text two_files)
      ["a.tsv"; "missing.tsv"]
      (entry two_files ["a.tsv"; "missing.tsv"] xy_label).
Proof.
  intros Hclaim.
  pose proof (run_steps (FileExists two_files) (new_TSVBlock as_text two_files)
                ["a.tsv"; "missing.tsv"] [Main; Main]
                (entry two_files ["a.tsv"; "missing.tsv"] xy_label)) as Hrun.
  destruct (run _ _ _ _ _) as [s|] eqn:E; [|by vm_compute in E].
  specialize (Hrun s eq_refl).
  assert (line s = Aborted (DoesNotExist "missing.tsv") ∧
          Enqueued (Parse 0) ∈ trace s) as [Hline Hin].
  { vm_compute in E. injection E as <-. split; [done|]. simpl.
    right. by left. }
  exact (Hclaim s Hrun _ Hline 0 Hin).
Qed.

(** *** The theorems at work *)


Lemma scenario_two_files_witness :
  ∃ s, steps as_text two_files ["a.tsv"; "b.tsv"]
         (entry two_files ["a.tsv"; "b.tsv"] xy_label) s ∧
    line s = Returned ∧
    column_named (this s) "x" =
      Some {| col_kind := RawFloat; col_name := "x";
              col_floats := ["0.5"; "0.7"]; col_strings := [];
              col_finalized := 1 |} ∧
    column_named (this s) "y" =
      Some {| col_kind := RawFloat; col_name := "y";
              col_floats := ["1.2"; "0.9"]; col_strings := [];
              col_finalized := 1 |} ∧
    column_named (this s) "label" =
      Some {| col_kind := StringKind; col_name := "label";
              col_floats := []; col_strings := ["A"; "B"];
              col_finalized := 1 |}.
Proof.
  destruct (scenario_two_files as_text
              (entry two_files ["a.tsv"; "b.tsv"] xy_label) (rtc_refl _ _))
    as (_ & _ & (s & Hsteps & Hret) & _).
  exists s. split; [exact Hsteps|]. split; [exact Hret|].
  exact (proj2 (proj2 (proj2 (scenario_two_files as_text s Hsteps))) Hret).
Defined.

Lemma missing_file_aborts_at_its_check_witness :
  ∃ s', steps as_text two_files ["a.tsv"; "missing.tsv"]
          (entry two_files ["a.tsv"; "missing.tsv"] xy_label) s' ∧
        line s' = Aborted (DoesNotExist "missing.tsv").
Proof.
  refine (proj1 (proj2 (proj2 (proj2 (proj2 (missing_file_aborts_at_its_check
            (ReadFile two_files) (split_on tab) TrimWhiteSpace new_column
            (FileExists two_files) (new_TSVBlock as_text two_files)
            "header.tsv" ["a.tsv"; "missing.tsv"] xy_label
            (resolved two_files xy_label) 1 "missing.tsv" _ _ _ _
            (entry two_files ["a.tsv"; "missing.tsv"] xy_label) _))))) _).
  - vm_compute. reflexivity.
  - reflexivity.
  - reflexivity.
  - intros j tsv Hj. destruct j as [|j]; [|lia]. simpl.
    intros [= <-]. reflexivity.
  - apply rtc_refl.
  - intros e. vm_compute. discriminate.
Defined.


Lemma schema_resolution_positions_witness :
  ∃ st, resolve (float:=string) two_files xy_label = Ok st ∧
    Forall2 (λ name index,
               trimmed_headers (split_on tab) TrimWhiteSpace header_txt !! index
                 = Some name)
      ["x"; "y"] (float_column_indices_ st) ∧
    Forall2 (λ name index,
               trimmed_headers (split_on tab) TrimWhiteSpace header_txt !! index
                 = Some name)
      ["label"] (string_column_indices_ st) ∧
    (binned_float_columns_ st).*2 = [] ∧
    (raw_float_columns_ st).*2 = [0; 1] ∧
    (string_columns_ st).*2 = [0].
Proof.
  refine (schema_resolution_positions
            (ReadFile two_files) (split_on tab) TrimWhiteSpace new_column
            "header.tsv" header_txt xy_label _ _).
  - reflexivity.
  - apply (bool_decide_unpack _). vm_compute. exact I.
Defined.

Lemma duplicate_header_last_wins_witness :
  Forall2 (last_at (trimmed_headers (split_on tab) TrimWhiteSpace
                      (tsv_line ["x"; "y"; "x"])))
    ["x"] (float_column_indices_ (resolved (float:=string) x_y_x raw_x)) ∧
  float_column_indices_ (resolved (float:=string) x_y_x raw_x) = [2].
Proof.
  split.
  - refine (proj1 (duplicate_header_last_wins
              (ReadFile x_y_x) (split_on tab) TrimWhiteSpace new_column
              "header.tsv" (tsv_line ["x"; "y"; "x"]) raw_x
              (resolved x_y_x raw_x) _ _)).
    + reflexivity.
    + vm_compute. reflexivity.
  - vm_compute. reflexivity.
Defined.

Lemma missing_name_aborts_before_io_witness :
  ∃ absent, absent ∈ configured_names raw_z ∧
    (absent ∉ trimmed_headers (split_on tab) TrimWhiteSpace header_txt) ∧
    resolve (float:=string) two_files raw_z = Died (FailedToFind absent) ∧
    line (entry (float:=string) two_files ["a.tsv"; "b.tsv"] raw_z)
      = Aborted (FailedToFind absent) ∧
    trace (entry (float:=string) two_files ["a.tsv"; "b.tsv"] raw_z) = [] ∧
    (∀ s, steps as_text two_files ["a.tsv"; "b.tsv"]
            (entry two_files ["a.tsv"; "b.tsv"] raw_z) s →
          s = entry two_files ["a.tsv"; "b.tsv"] raw_z).
Proof.
  refine (missing_name_aborts_before_io
            (ReadFile two_files) (split_on tab) TrimWhiteSpace new_column
            (FileExists two_files) (new_TSVBlock as_text two_files)
            "header.tsv" header_txt ["a.tsv"; "b.tsv"] raw_z "z" _ _ _).
  - reflexivity.
  - apply (bool_decide_unpack _). vm_compute. exact I.
  - apply (bool_decide_unpack _). vm_compute. exact I.
Defined.

Lemma duplicate_name_destroys_first_column_witness :
  ∃ st p1 p2, resolve (float:=string) two_files binned_x_twice = Ok st ∧
    binned_float_columns_ st = [(p1, 0); (p2, 1)] ∧
    float_column_indices_ st = [1; 1] ∧
    p1 ≠ p2 ∧
    objects st !! p1 = None ∧
    objects st !! p2 = Some (new_Column BinnedFloat "x") ∧
    column_map_ st !! "x" = Some p2.
Proof.
  refine (duplicate_name_destroys_first_column
            (ReadFile two_files) (split_on tab) TrimWhiteSpace new_column
            "header.tsv" header_txt "x" 1 _ _ _).
  - apply new_column_fresh.
  - reflexivity.
  - vm_compute. reflexivity.
Defined.

Lemma resolution_is_deterministic_witness :
  float_column_indices_ (resolved (float:=string) two_files xy_label) = [1; 2] ∧
  match resolve (float:=string) two_files xy_label,
        SetupColumns (float:=string) (ReadFile other_files) (split_on tab)
          TrimWhiteSpace new_column_far "columns.txt" xy_label empty_store with
  | Ok st1, Ok st2 =>
      float_column_indices_ st1 = float_column_indices_ st2 ∧
      string_column_indices_ st1 = string_column_indices_ st2 ∧
      (binned_float_columns_ st1).*2 = (binned_float_columns_ st2).*2 ∧
      (raw_float_columns_ st1).*2 = (raw_float_columns_ st2).*2 ∧
      (string_columns_ st1).*2 = (string_columns_ st2).*2
  | Died e1, Died e2 =>
      (e1 = HeaderUnreadable "header.tsv" ∧ e2 = HeaderUnreadable "columns.txt") ∨
      (∃ name, e1 = FailedToFind name ∧ e2 = FailedToFind name)
  | _, _ => False
  end.
Proof.
  split; [vm_compute; reflexivity|].
  refine (resolution_is_deterministic
            (ReadFile two_files) (ReadFile other_files) (split_on tab)
            TrimWhiteSpace new_column new_column_far
            "header.tsv" "columns.txt" xy_label _).
  reflexivity.
Defined.

Lemma empty_file_list_finalizes_witness :
  ∃ s', steps as_text two_files [] (entry two_files [] xy_label) s' ∧
        line s' = Returned.
Proof.
  refine (proj1 (proj2 (empty_file_list_finalizes
            (ReadFile two_files) (split_on tab) TrimWhiteSpace new_column
            (FileExists two_files) (new_TSVBlock as_text two_files)
            "header.tsv" xy_label (resolved two_files xy_label) _ _ _
            (entry two_files [] xy_label) _))).
  - vm_compute. reflexivity.
  - apply (bool_decide_unpack _). vm_compute. exact I.
  - apply new_column_fresh.
  - apply rtc_refl.
Defined.
(** * Further properties of the code *)

Section Resolution_more.

Context {float : Type}.
Variable ReadFile : string → option string.
Variable split : string → list string.
Variable TrimWhiteSpace : string → string.
Variable new_column : gmap addr (Column float) → addr.

Local Abbreviation Setup :=
  (SetupColumns ReadFile split TrimWhiteSpace new_column).
Local Abbreviation headers_of := (trimmed_headers split TrimWhiteSpace).

(** X1.  The checks of [SetupColumns] run in the order of the three
    loops, binned, raw, string, and in the order of the names in each:
    the name the failure reports is the first configured name, in that
    order, that the header does not have. *)
Theorem first_missing_name_is_reported header_file contents config found
    missing rest :
  ReadFile header_file = Some contents →
  configured_names config = found ++ missing :: rest →
  Forall (λ name, name ∈ headers_of contents) found →
  missing ∉ headers_of contents →
  Setup header_file config empty_store = Died (FailedToFind missing).
Proof. apply SetupColumns_first_missing. Qed.

(** X2.  After [SetupColumns], whatever the configuration repeats:
    [column_map_] owns the columns, each entry a column that is alive,
    no two entries the same one, and no column is alive but those;
    there are as many columns as there are different configured names;
    and the column under a configured name is a new column of that name,
    of the kind of the last loop that has the name. *)
Theorem registry_holds_one_column_per_name header_file config st :
  fresh_allocator new_column →
  Setup header_file config empty_store = Ok st →
  registry_owns st ∧
  size (objects st) =
    size (list_to_set (configured_names config) : gset string) ∧
  ∀ name, column_named st name =
            (λ k, new_Column k name) <$> registered_kind config name.
Proof. apply SetupColumns_registry. Qed.

(** X3.  The per-kind vectors point to columns that are alive, no two
    entries to the same column, exactly when no name is configured
    twice, in one list or across the three. *)
Theorem slots_sound_iff_names_distinct header_file config st :
  fresh_allocator new_column →
  Setup header_file config empty_store = Ok st →
  slots_sound st ↔ NoDup (configured_names config).
Proof.
  intros Hfresh Hst. split.
  - by eapply slots_sound_names_distinct.
  - intros Hnd. apply well_formed_slots_sound.
    by eapply SetupColumns_well_formed.
Qed.

(** X4.  The names of the header are trimmed, those of the
    configuration are not: a configured name that trimming would change
    is never found, whatever the header, and [SetupColumns] dies. *)
Theorem untrimmed_name_is_never_found header_file contents config name :
  (∀ s, TrimWhiteSpace (TrimWhiteSpace s) = TrimWhiteSpace s) →
  ReadFile header_file = Some contents →
  name ∈ configured_names config →
  TrimWhiteSpace name ≠ name →
  ∃ absent, absent ∈ configured_names config ∧
    (absent ∉ headers_of contents) ∧
    Setup header_file config empty_store = Died (FailedToFind absent).
Proof.
  intros Hidem Hread Hin Hname.
  assert (name ∉ headers_of contents) as Hnot.
  { intros Hh. apply list_elem_of_fmap in Hh as (h & -> & _).
    by rewrite Hidem in Hname. }
  destruct (Setup header_file config empty_store) as [st|e] eqn:Hst.
  - destruct Hnot. by eapply SetupColumns_Ok_found.
  - destruct (SetupColumns_dies _ _ _ _ _ _ _ _ _ Hread Hst)
      as (absent & -> & Habs & Hnone).
    by exists absent.
Qed.

End Resolution_more.

Section Pipeline_more.

Context {float : Type}.
Variable ReadFile : string → option string.
Variable split : string → list string.
Variable TrimWhiteSpace : string → string.
Variable new_column : gmap addr (Column float) → addr.
Variable FileExists : string → bool.
Variable new_TSVBlock : string → list nat → list nat → option (TSVBlock float).

Local Abbreviation Setup :=
  (SetupColumns ReadFile split TrimWhiteSpace new_column).
Local Abbreviation Entry :=
  (LoadTSVs_entry ReadFile split TrimWhiteSpace new_column).
Local Abbreviation Steps tsvs := (rtc (step FileExists new_TSVBlock tsvs)).

(** X5.  When a name is configured twice, [LoadTSVs] can run into
    undefined behaviour even with no file to load: [Finalize] enqueues
    a call for every entry of the vectors, and either one of them is on
    a column that has been destroyed, or two of them are on the same
    column and can run at the same time. *)
Theorem repeated_name_reaches_undefined_behaviour header_file config st :
  fresh_allocator new_column →
  Setup header_file config empty_store = Ok st →
  ¬ NoDup (configured_names config) →
  ∃ s, Steps [] (Entry header_file [] config) s ∧ line s = Undefined.
Proof.
  intros Hfresh Hst Hdup. rewrite (entry_at_line_59 _ _ _ _ _ _ _ _ Hst).
  apply unsound_slots_undefined. intros Hsound. apply Hdup.
  by eapply slots_sound_names_distinct.
Qed.

(** X6.  In a load that goes well (names all different, files that
    exist, a parser that honours the layout), whatever the number of
    files and the schedule: the load neither aborts nor runs into
    undefined behaviour, the column a running task works on is alive,
    and no other running task works on it. *)
Theorem calls_on_a_column_exclude_one_another header_file tsvs config st :
  Setup header_file config empty_store = Ok st →
  NoDup (configured_names config) →
  fresh_allocator new_column →
  honours_layout new_TSVBlock →
  Forall (λ tsv, FileExists tsv = true) tsvs →
  ∀ s, Steps tsvs (Entry header_file tsvs config) s →
    (∀ e, line s ≠ Aborted e) ∧ line s ≠ Undefined ∧ exclusive s.
Proof.
  intros Hst Hnd Hfresh Hparser Hfiles s.
  destruct (going_well _ _ _ _ _ _ _ _ _ _ Hst Hnd Hfresh Hparser Hfiles)
    as (Hwf & Hblocks & Hexist).
  rewrite (entry_at_line_59 _ _ _ _ _ _ _ _ Hst). intros Hsteps.
  destruct (load_goes_well _ _ _ _ Hwf Hblocks Hexist s Hsteps) as [Hab Hub].
  split; [done|]. split; [done|]. by eapply exclusive_reachable.
Qed.

(** X7.  Every schedule is finite: whatever the header, the
    configuration and the files, a run of [LoadTSVs] of [n] files into
    [c] configured columns has at most
    [4n + 1 + n(3c + 2) + 3c + 3] steps. *)
Theorem every_schedule_is_finite header_file tsvs config ms s :
  run FileExists new_TSVBlock tsvs ms (Entry header_file tsvs config) = Some s →
  length ms ≤ steps_bound (length tsvs) (length (configured_names config)).
Proof.
  intros Hrun. apply run_remaining in Hrun. unfold steps_bound.
  destruct (Setup header_file config empty_store) as [st|e] eqn:Hst.
  - rewrite (entry_at_line_59 _ _ _ _ _ _ _ _ Hst) in Hrun.
    unfold remaining in Hrun. simpl in Hrun.
    rewrite length_replicate, (SetupColumns_loops_length _ _ _ _ _ _ _ Hst)
      in Hrun.
    lia.
  - rewrite (entry_died _ _ _ _ _ _ _ _ Hst) in Hrun.
    unfold remaining in Hrun. simpl in Hrun. lia.
Qed.

(** X8.  In a load that goes well, whatever the number of files and
    the schedule, on return the column registered under a configured
    name holds the rows of its slot, file after file in the order of
    the file list: numbers for a binned or raw name, strings for a
    string name; it has been finalized once. *)
Theorem columns_hold_the_files_in_order header_file tsvs config st :
  Setup header_file config empty_store = Ok st →
  NoDup (configured_names config) →
  fresh_allocator new_column →
  honours_layout new_TSVBlock →
  Forall (λ tsv, FileExists tsv = true) tsvs →
  ∀ s, Steps tsvs (Entry header_file tsvs config) s → line s = Returned →
    ∀ k name slot, (k, (name, slot)) ∈ configured_columns config →
      column_named (this s) name =
        Some (loaded_column k name slot (blocks_of new_TSVBlock st tsvs)).
Proof.
  intros Hst Hnd Hfresh Hparser Hfiles s.
  destruct (going_well _ _ _ _ _ _ _ _ _ _ Hst Hnd Hfresh Hparser Hfiles)
    as (Hwf & Hblocks & Hexist).
  rewrite (entry_at_line_59 _ _ _ _ _ _ _ _ Hst).
  intros Hsteps Hret k name slot Hin.
  destruct (SetupColumns_slots_by_name _ _ _ _ _ _ _ _ _ _ Hnd Hst Hin)
    as (p & Hloop & Hmap).
  destruct (sequential_load_lookup new_TSVBlock tsvs st _ _ _ Hwf Hloop)
    as (name0 & Hnew & Hseq).
  destruct (SetupColumns_registry _ _ _ _ _ _ _ Hfresh Hst) as (_ & _ & Hnamed).
  assert (name0 = name) as ->.
  { specialize (Hnamed name). unfold column_named in Hnamed.
    rewrite Hmap in Hnamed. simpl in Hnamed. rewrite Hnew in Hnamed.
    destruct (registered_kind config name); by simplify_eq/=. }
  unfold column_named.
  destruct (steps_layout _ _ _ _ _ Hsteps) as (-> & _). simpl.
  rewrite Hmap. simpl.
  rewrite (load_returns_sequential _ _ _ _ Hwf Hblocks Hexist s Hsteps Hret).
  by rewrite Hseq, feed_loaded.
Qed.

(** X9.  In a load that goes well, the state [LoadTSVs] returns does
    not depend on the schedule: two runs return the same store, and
    every slot of [blocks] is empty again, each block having been
    moved to [ProcessBlock]. *)
Theorem return_does_not_depend_on_schedule header_file tsvs config st :
  Setup header_file config empty_store = Ok st →
  NoDup (configured_names config) →
  fresh_allocator new_column →
  honours_layout new_TSVBlock →
  Forall (λ tsv, FileExists tsv = true) tsvs →
  ∀ s1 s2,
    Steps tsvs (Entry header_file tsvs config) s1 → line s1 = Returned →
    Steps tsvs (Entry header_file tsvs config) s2 → line s2 = Returned →
    this s1 = this s2 ∧
    blocks s1 = replicate (length tsvs) None ∧
    blocks s2 = replicate (length tsvs) None.
Proof.
  intros Hst Hnd Hfresh Hparser Hfiles s1 s2.
  destruct (going_well _ _ _ _ _ _ _ _ _ _ Hst Hnd Hfresh Hparser Hfiles)
    as (Hwf & Hblocks & Hexist).
  rewrite (entry_at_line_59 _ _ _ _ _ _ _ _ Hst).
  intros H1 Hret1 H2 Hret2.
  destruct (returned_store _ _ _ _ Hwf Hblocks Hexist s1 H1 Hret1) as [Hl1 Ho1].
  destruct (returned_store _ _ _ _ Hwf Hblocks Hexist s2 H2 Hret2) as [Hl2 Ho2].
  split; [|split].
  - eapply same_layout_eq2; [done|done|congruence].
  - by eapply returned_blocks.
  - by eapply returned_blocks.
Qed.

(** X10.  Whatever the state and the schedule, the steps of [LoadTSVs]
    leave [column_map_], the per-kind vectors and the index vectors as
    they are, create and destroy no column, and only add to a column:
    it keeps its kind and its name, and what it holds begins with what
    it held. *)
Theorem columns_only_grow tsvs s s' :
  Steps tsvs s s' →
  same_layout (this s) (this s') ∧
  columns_grow (objects (this s)) (objects (this s')).
Proof.
  intros H. split; [by eapply steps_layout|by eapply steps_grow].
Qed.

(** X11.  Whatever the header, the configuration, the files and the
    schedule: the parse task of a file is enqueued, started and ended
    at most once each, in that order; it is enqueued only for a file of
    the list that has been probed and exists; and when [LoadTSVs]
    returns, the parse task of every file has been enqueued, started
    and ended once. *)
Theorem each_file_is_parsed_once header_file tsvs config s :
  Steps tsvs (Entry header_file tsvs config) s →
  (∀ i, occurrences (Enqueued (Parse i)) (trace s) ≤ 1 ∧
        occurrences (Started (Parse i)) (trace s) ≤ 1 ∧
        occurrences (Ended (Parse i)) (trace s) ≤ 1 ∧
        precedes (Enqueued (Parse i)) (Started (Parse i)) (trace s) ∧
        precedes (Started (Parse i)) (Ended (Parse i)) (trace s)) ∧
  (∀ i, Enqueued (Parse i) ∈ trace s →
     ∃ tsv, tsvs !! i = Some tsv ∧ FileExists tsv = true ∧
            occurs_before (Probed tsv) (Enqueued (Parse i)) (trace s)) ∧
  (line s = Returned → ∀ i, i < length tsvs →
     occurrences (Enqueued (Parse i)) (trace s) = 1 ∧
     occurrences (Started (Parse i)) (trace s) = 1 ∧
     occurrences (Ended (Parse i)) (trace s) = 1).
Proof.
  intros Hsteps.
  pose proof (entry_parse_log _ _ _ _ _ _ _ _ _ _ Hsteps) as Hlog.
  split; [|split].
  - intros i. destruct (parse_log_once _ _ _ s i Hlog) as (H1 & H2 & _ & H3).
    destruct (plg_order _ _ _ _ Hlog i) as (O1 & O2 & _). done.
  - intros i. by apply (parse_log_enqueued FileExists new_TSVBlock tsvs).
  - intros Hret i Hi.
    by destruct (parse_log_returned FileExists new_TSVBlock tsvs s i Hlog
                   Hret Hi) as (? & ? & _ & ?).
Qed.

(** X12.  Whatever the header, the configuration, the files and the
    schedule: the parse task of a file stores its block once at most,
    after it has started and before it ends; the controlling thread
    takes the block of a file only after that task has stored it; and
    when [LoadTSVs] returns it has taken the block of every file, in
    the order of the list.  The task need not have ended when its block
    is taken: when the files exist and the parser does not die on the
    first one, some schedule takes the block of the first file while
    its parse task has still to end. *)
Theorem block_is_taken_once_stored header_file tsvs config s :
  Steps tsvs (Entry header_file tsvs config) s →
  (∀ i, occurrences (Stored i) (trace s) ≤ 1 ∧
        precedes (Started (Parse i)) (Stored i) (trace s) ∧
        precedes (Stored i) (Ended (Parse i)) (trace s) ∧
        precedes (Stored i) (Took i) (trace s)) ∧
  (line s = Returned → taken (trace s) = seq 0 (length tsvs)) ∧
  (∀ st first block,
     Setup header_file config empty_store = Ok st →
     Forall (λ tsv, FileExists tsv = true) tsvs →
     tsvs !! 0 = Some first →
     new_TSVBlock first (float_column_indices_ st) (string_column_indices_ st)
       = Some block →
     ∃ s', Steps tsvs (Entry header_file tsvs config) s' ∧
           Took 0 ∈ trace s' ∧ Ended (Parse 0) ∉ trace s').
Proof.
  intros Hsteps.
  pose proof (entry_parse_log _ _ _ _ _ _ _ _ _ _ Hsteps) as Hlog.
  split; [|split].
  - intros i. destruct (parse_log_once _ _ _ s i Hlog) as (_ & _ & H3 & _).
    by destruct (plg_order _ _ _ _ Hlog i) as (_ & _ & ? & ? & ?).
  - by apply (parse_log_taken FileExists new_TSVBlock tsvs).
  - intros st first block Hst Hfiles Hfirst Hblock.
    assert (∀ tsv, tsv ∈ tsvs → FileExists tsv = true) as Hexist
      by (by apply Forall_forall).
    destruct (first_block_taken FileExists new_TSVBlock tsvs Hexist st first
                block Hfirst Hblock) as (s' & Hs' & _ & Hpool & Htook).
    rewrite <- (entry_at_line_59 _ _ _ _ _ _ _ _ Hst) in Hs'.
    exists s'. split; [done|]. split; [done|].
    pose proof (entry_parse_log _ _ _ _ _ _ _ _ _ _ Hs') as Hlog'.
    destruct (counts_reached _ _ 0 (plg_count _ _ _ _ Hlog'))
      as (_ & _ & _ & _ & Hnot).
    apply Hnot. rewrite (stage_lookup _ _ _ _ Hpool). simpl. lia.
Qed.

(** X13.  In a load that goes well, whatever the schedule, blocks are
    folded one at a time: when the controlling thread takes the block
    of file [j], the [Add] of every file before [j] has ended on every
    column, no [Add] of file [j] or of a later file has been enqueued,
    and every [Add] enqueued, started or ended afterwards is of file
    [j] or of a later file. *)
Theorem blocks_are_folded_one_at_a_time header_file tsvs config st :
  Setup header_file config empty_store = Ok st →
  NoDup (configured_names config) →
  fresh_allocator new_column →
  honours_layout new_TSVBlock →
  Forall (λ tsv, FileExists tsv = true) tsvs →
  ∀ s, Steps tsvs (Entry header_file tsvs config) s →
    one_at_a_time (accumulators st) (trace s).
Proof.
  intros Hst Hnd Hfresh Hparser Hfiles s.
  destruct (going_well _ _ _ _ _ _ _ _ _ _ Hst Hnd Hfresh Hparser Hfiles)
    as (Hwf & Hblocks & Hexist).
  rewrite (entry_at_line_59 _ _ _ _ _ _ _ _ Hst). intros Hsteps.
  by destruct (folds_reachable _ _ _ _ Hwf Hblocks Hexist s Hsteps).
Qed.

(** X14.  When a file of the list does not exist, whatever the
    schedule, the load never gets to its second loop: the store stays
    as [SetupColumns] left it, no block is taken, and no [Add] and no
    [Finalize] is enqueued, started or ended; the files before the
    missing one may have been parsed for nothing. *)
Theorem missing_file_leaves_columns_untouched header_file tsvs config st
    missing :
  Setup header_file config empty_store = Ok st →
  missing ∈ tsvs →
  FileExists missing = false →
  ∀ s, Steps tsvs (Entry header_file tsvs config) s → untouched st s.
Proof.
  intros Hst Hin Hno s. rewrite (entry_at_line_59 _ _ _ _ _ _ _ _ Hst).
  destruct (first_missing FileExists tsvs missing Hin Hno)
    as (k & first & Hk & Hfirst & Hbefore).
  by eapply untouched_reachable.
Qed.

(** X15.  [ProcessBlock] indexes the columns of a block without a
    check: when all the files exist and the block the parser makes of
    the first file has fewer numeric columns than there are configured
    numeric names, or fewer string columns than there are configured
    string names, the load can run into undefined behaviour. *)
Theorem short_block_reaches_undefined_behaviour header_file tsvs config st
    first block :
  Setup header_file config empty_store = Ok st →
  Forall (λ tsv, FileExists tsv = true) tsvs →
  tsvs !! 0 = Some first →
  new_TSVBlock first (float_column_indices_ st) (string_column_indices_ st)
    = Some block →
  length (float_columns block)
    < length (binned_float_column config ++ raw_float_column config) ∨
  length (string_columns block) < length (string_column config) →
  ∃ s, Steps tsvs (Entry header_file tsvs config) s ∧ line s = Undefined.
Proof.
  intros Hst Hfiles Hfirst Hblock Hshort.
  rewrite (entry_at_line_59 _ _ _ _ _ _ _ _ Hst).
  destruct (SetupColumns_slot_used _ _ _ _ _ _ _ Hst) as [Hnum Hstr].
  assert (∀ tsv, tsv ∈ tsvs → FileExists tsv = true) as Hexist
    by (by apply Forall_forall).
  destruct Hshort as [Hshort|Hshort].
  - destruct (Hnum _ Hshort) as (k & p & Hk & Hin).
    eapply (short_block_undefined _ _ _ Hexist); [done|done|exact Hin|].
    destruct k; [| |done]; simpl; by rewrite (proj2 (lookup_ge_None _ _)).
  - destruct (Hstr _ Hshort) as (p & Hin).
    eapply (short_block_undefined _ _ _ Hexist); [done|done|exact Hin|].
    simpl. by rewrite (proj2 (lookup_ge_None _ _)).
Qed.

End Pipeline_more.

(** ** The further properties at work *)

Import Scenario Scenario_facts Scenario_more.

Lemma first_missing_name_is_reported_witness :
  resolve (float:=string) two_files raw_x_z_label = Died (FailedToFind "z").
Proof.
  refine (first_missing_name_is_reported
            (ReadFile two_files) (split_on tab) TrimWhiteSpace new_column
            "header.tsv" header_txt raw_x_z_label ["x"] "z" ["label"] _ _ _ _).
  - reflexivity.
  - reflexivity.
  - apply (bool_decide_unpack _). vm_compute. exact I.
  - apply (bool_decide_unpack _). vm_compute. exact I.
Defined.

Lemma registry_holds_one_column_per_name_witness :
  registry_owns (resolved (float:=string) two_files binned_x_twice) ∧
  size (objects (resolved (float:=string) two_files binned_x_twice)) =
    size (list_to_set (configured_names binned_x_twice) : gset string) ∧
  ∀ name, column_named (resolved (float:=string) two_files binned_x_twice) name =
            (λ k, new_Column k name) <$> registered_kind binned_x_twice name.
Proof.
  refine (registry_holds_one_column_per_name
            (ReadFile two_files) (split_on tab) TrimWhiteSpace new_column
            "header.tsv" binned_x_twice _ _ _).
  - apply new_column_fresh.
  - vm_compute. reflexivity.
Defined.

Lemma slots_sound_iff_names_distinct_witness :
  slots_sound (resolved (float:=string) two_files xy_label) ↔
  NoDup (configured_names xy_label).
Proof.
  refine (slots_sound_iff_names_distinct
            (ReadFile two_files) (split_on tab) TrimWhiteSpace new_column
            "header.tsv" xy_label _ _ _).
  - apply new_column_fresh.
  - vm_compute. reflexivity.
Defined.

Lemma untrimmed_name_is_never_found_witness :
  ∃ absent, absent ∈ configured_names raw_padded_x ∧
    (absent ∉ trimmed_headers (split_on tab) TrimWhiteSpace header_txt) ∧
    resolve (float:=string) two_files raw_padded_x
      = Died (FailedToFind absent).
Proof.
  refine (untrimmed_name_is_never_found
            (ReadFile two_files) (split_on tab) TrimWhiteSpace new_column
            "header.tsv" header_txt raw_padded_x " x" _ _ _ _).
  - apply TrimWhiteSpace_idem.
  - reflexivity.
  - apply (bool_decide_unpack _). vm_compute. exact I.
  - apply (bool_decide_unpack _). vm_compute. exact I.
Defined.

Lemma repeated_name_reaches_undefined_behaviour_witness :
  ∃ s, steps as_text two_files [] (entry two_files [] binned_x_twice) s ∧
       line s = Undefined.
Proof.
  refine (repeated_name_reaches_undefined_behaviour
            (ReadFile two_files) (split_on tab) TrimWhiteSpace new_column
            (FileExists two_files) (new_TSVBlock as_text two_files)
            "header.tsv" binned_x_twice (resolved two_files binned_x_twice)
            _ _ _).
  - apply new_column_fresh.
  - vm_compute. reflexivity.
  - apply (bool_decide_unpack _). vm_compute. exact I.
Defined.

Lemma calls_on_a_column_exclude_one_another_witness :
  ∃ s, steps as_text two_files ["a.tsv"; "b.tsv"]
         (entry two_files ["a.tsv"; "b.tsv"] xy_label) s ∧
       line s = Returned ∧ exclusive s.
Proof.
  destruct two_files_return as (s & Hsteps & Hret).
  exists s. split; [exact Hsteps|]. split; [exact Hret|].
  exact (proj2 (proj2 (calls_on_a_column_exclude_one_another
           (ReadFile two_files) (split_on tab) TrimWhiteSpace new_column
           (FileExists two_files) (new_TSVBlock as_text two_files)
           "header.tsv" ["a.tsv"; "b.tsv"] xy_label
           (resolved two_files xy_label) two_files_resolved xy_label_distinct
           new_column_fresh (new_TSVBlock_honours_layout as_text two_files)
           two_files_exist s Hsteps))).
Defined.

Lemma every_schedule_is_finite_witness :
  length [Main; Main; WorkerStart Outer 0; WorkerStore Outer 0;
          WorkerEnd Outer 0; Main]
    ≤ steps_bound 1 3.
Proof.
  destruct (run (FileExists two_files) (new_TSVBlock as_text two_files)
              ["a.tsv"]
              [Main; Main; WorkerStart Outer 0; WorkerStore Outer 0;
               WorkerEnd Outer 0; Main]
              (entry two_files ["a.tsv"] xy_label)) as [s|] eqn:E.
  - exact (every_schedule_is_finite
             (ReadFile two_files) (split_on tab) TrimWhiteSpace new_column
             (FileExists two_files) (new_TSVBlock as_text two_files)
             "header.tsv" ["a.tsv"] xy_label _ s E).
  - vm_compute in E. discriminate E.
Defined.

Lemma columns_hold_the_files_in_order_witness :
  ∃ s, steps as_text two_files ["a.tsv"; "b.tsv"]
         (entry two_files ["a.tsv"; "b.tsv"] xy_label) s ∧
       line s = Returned ∧
       column_named (this s) "y" =
         Some (loaded_column RawFloat "y" 1
                 (blocks_of (new_TSVBlock as_text two_files)
                    (resolved two_files xy_label) ["a.tsv"; "b.tsv"])).
Proof.
  destruct two_files_return as (s & Hsteps & Hret).
  exists s. split; [exact Hsteps|]. split; [exact Hret|].
  refine (columns_hold_the_files_in_order
            (ReadFile two_files) (split_on tab) TrimWhiteSpace new_column
            (FileExists two_files) (new_TSVBlock as_text two_files)
            "header.tsv" ["a.tsv"; "b.tsv"] xy_label
            (resolved two_files xy_label) two_files_resolved xy_label_distinct
            new_column_fresh (new_TSVBlock_honours_layout as_text two_files)
            two_files_exist s Hsteps Hret RawFloat "y" 1 _).
  apply (bool_decide_unpack _). vm_compute. exact I.
Defined.

Lemma return_does_not_depend_on_schedule_witness :
  ∃ s, steps as_text two_files ["a.tsv"; "b.tsv"]
         (entry two_files ["a.tsv"; "b.tsv"] xy_label) s ∧
       line s = Returned ∧ blocks s = [None; None].
Proof.
  destruct two_files_return as (s & Hsteps & Hret).
  exists s. split; [exact Hsteps|]. split; [exact Hret|].
  exact (proj1 (proj2 (return_does_not_depend_on_schedule
           (ReadFile two_files) (split_on tab) TrimWhiteSpace new_column
           (FileExists two_files) (new_TSVBlock as_text two_files)
           "header.tsv" ["a.tsv"; "b.tsv"] xy_label
           (resolved two_files xy_label) two_files_resolved xy_label_distinct
           new_column_fresh (new_TSVBlock_honours_layout as_text two_files)
           two_files_exist s s Hsteps Hret Hsteps Hret))).
Defined.

Lemma columns_only_grow_witness :
  ∃ s, steps as_text two_files ["a.tsv"; "b.tsv"]
         (entry two_files ["a.tsv"; "b.tsv"] xy_label) s ∧
       line s = Returned ∧
       columns_grow
         (objects (this (entry (float:=string) two_files ["a.tsv"; "b.tsv"]
                           xy_label)))
         (objects (this s)).
Proof.
  destruct two_files_return as (s & Hsteps & Hret).
  exists s. split; [exact Hsteps|]. split; [exact Hret|].
  exact (proj2 (columns_only_grow
           (FileExists two_files) (new_TSVBlock as_text two_files)
           ["a.tsv"; "b.tsv"] _ s Hsteps)).
Defined.

Lemma each_file_is_parsed_once_witness :
  ∃ s, steps as_text two_files ["a.tsv"; "b.tsv"]
         (entry two_files ["a.tsv"; "b.tsv"] xy_label) s ∧
       line s = Returned ∧
       occurrences (Started (Parse 1)) (trace s) = 1.
Proof.
  destruct two_files_return as (s & Hsteps & Hret).
  exists s. split; [exact Hsteps|]. split; [exact Hret|].
  refine (proj1 (proj2 (proj2 (proj2 (each_file_is_parsed_once
            (ReadFile two_files) (split_on tab) TrimWhiteSpace new_column
            (FileExists two_files) (new_TSVBlock as_text two_files)
            "header.tsv" ["a.tsv"; "b.tsv"] xy_label s Hsteps)) Hret 1 _))).
  simpl. lia.
Defined.

Lemma block_is_taken_once_stored_witness :
  ∃ s', steps as_text two_files ["a.tsv"; "b.tsv"]
          (entry two_files ["a.tsv"; "b.tsv"] xy_label) s' ∧
        Took 0 ∈ trace s' ∧ Ended (Parse 0) ∉ trace s'.
Proof.
  refine (proj2 (proj2 (block_is_taken_once_stored
            (ReadFile two_files) (split_on tab) TrimWhiteSpace new_column
            (FileExists two_files) (new_TSVBlock as_text two_files)
            "header.tsv" ["a.tsv"; "b.tsv"] xy_label
            (entry two_files ["a.tsv"; "b.tsv"] xy_label) _))
            (resolved two_files xy_label) "a.tsv" _ _ _ _ _).
  - apply rtc_refl.
  - vm_compute. reflexivity.
  - repeat constructor.
  - reflexivity.
  - reflexivity.
Defined.

Lemma blocks_are_folded_one_at_a_time_witness :
  ∃ s, steps as_text two_files ["a.tsv"; "b.tsv"]
         (entry two_files ["a.tsv"; "b.tsv"] xy_label) s ∧
       line s = Returned ∧
       one_at_a_time (accumulators (resolved (float:=string) two_files xy_label))
         (trace s).
Proof.
  destruct two_files_return as (s & Hsteps & Hret).
  exists s. split; [exact Hsteps|]. split; [exact Hret|].
  exact (blocks_are_folded_one_at_a_time
           (ReadFile two_files) (split_on tab) TrimWhiteSpace new_column
           (FileExists two_files) (new_TSVBlock as_text two_files)
           "header.tsv" ["a.tsv"; "b.tsv"] xy_label
           (resolved two_files xy_label) two_files_resolved xy_label_distinct
           new_column_fresh (new_TSVBlock_honours_layout as_text two_files)
           two_files_exist s Hsteps).
Defined.

Lemma missing_file_leaves_columns_untouched_witness :
  untouched (resolved (float:=string) two_files xy_label)
    (entry two_files ["a.tsv"; "missing.tsv"] xy_label).
Proof.
  refine (missing_file_leaves_columns_untouched
            (ReadFile two_files) (split_on tab) TrimWhiteSpace new_column
            (FileExists two_files) (new_TSVBlock as_text two_files)
            "header.tsv" ["a.tsv"; "missing.tsv"] xy_label
            (resolved two_files xy_label) "missing.tsv" _ _ _ _ _).
  - vm_compute. reflexivity.
  - apply (bool_decide_unpack _). vm_compute. exact I.
  - reflexivity.
  - apply rtc_refl.
Defined.

Lemma short_block_reaches_undefined_behaviour_witness :
  ∃ s, rtc (step (FileExists two_files) (no_column (float:=string)) ["a.tsv"])
         (entry two_files ["a.tsv"] xy_label) s ∧
       line s = Undefined.
Proof.
  refine (short_block_reaches_undefined_behaviour
            (ReadFile two_files) (split_on tab) TrimWhiteSpace new_column
            (FileExists two_files) no_column
            "header.tsv" ["a.tsv"] xy_label (resolved two_files xy_label)
            "a.tsv" {| float_columns := []; string_columns := [] |} _ _ _ _ _).
  - vm_compute. reflexivity.
  - repeat constructor.
  - reflexivity.
  - reflexivity.
  - left. simpl. lia.
Defined.
